(** * Decode-PAINT: the sparse voxel face-exposure engine

    A shallow embedding of [locsutil/locsutil.py] (voxelize),
    [locsutil/voxelutil.py] (count_exposed_faces, scan_faces_all, scan_faces,
    scan_faces_1d, auto_origin_df, fit_sigmoid), [voxelscan.py] (voxel_scan,
    _analyze_vox) and [analyze.py] (analyze_clusters).

    Conventions of the embedding:
    - Python floats that hold coordinates, bin sizes and ratios are idealised
      as exact rationals ([Q]); the one irrational operation of the code,
      [total_vol ** (2 / 3)], is taken in the real numbers ([R]).
    - Integer columns ([astype('int')]) are [Z], without the 64-bit bound.
    - The module [machine] gives the builder ([voxelize] and the first
      statements of [count_exposed_faces]) a second time, in the arithmetic
      of the machine: the floor division of float64 with its rounding, the
      cast to int64 and the wrap-around of int64.  The two builders agree on
      coordinates below [2 ^ 52] and positive integer bin sizes.
    - A pandas DataFrame is the list of its rows, in row order; a frame
      created by [pd.DataFrame()] has no columns and is kept apart.
    - Python exceptions are values of [exn], threaded by a small error monad. *)

From Stdlib Require Import ZArith QArith Qabs Qround Reals Lia Lra Ascii.
From Stdlib Require Lqa.
From stdpp Require Import base list sorting.

Local Open Scope Z_scope.

(** ** Exceptions *)

Inductive exn : Type :=
  | KeyError            (* a column name that the frame does not have *)
  | ValueError          (* range() with step 0, max() of an empty list, ragged DataFrame data *)
  | IntCastingNaNError  (* astype('int') on inf or NaN *)
  | ZeroDivisionError   (* int / int with a zero divisor *)
  | RuntimeError.       (* curve_fit: optimal parameters not found *)

Inductive result (A : Type) : Type :=
  | Ok (a : A)
  | Raise (e : exn).
Arguments Ok {A} a.
Arguments Raise {A} e.

Global Instance result_bind : MBind result := λ A B k m,
  match m with
  | Ok a => k a
  | Raise e => Raise e
  end.

(** A [for] loop whose body may raise: the state is threaded through the
    iterations and the first exception ends the loop. *)
Fixpoint for_in {A S : Type} (items : list A) (body : S → A → result S) (s : S)
    : result S :=
  match items with
  | [] => Ok s
  | a :: items' => s' ← body s a; for_in items' body s'
  end.

(** ** Python and pandas helpers *)

(** [range(start, stop, step)], with the length CPython computes. *)
Definition py_range (start stop step : Z) : result (list Z) :=
  if decide (step = 0) then Raise ValueError
  else
    let len :=
      if decide (0 < step) then
        if decide (start < stop) then (stop - start - 1) / step + 1 else 0
      else
        if decide (stop < start) then (start - stop - 1) / (- step) + 1 else 0 in
    Ok ((λ i : nat, start + Z.of_nat i * step) <$> seq 0 (Z.to_nat len)).

(** [df.groupby(key)] with the default [sort=True]: the distinct keys in
    ascending order, each with its rows in their original order. *)
Definition groupby {A K : Type} `{EqDecision K} (le : relation K)
    `{∀ a b, Decision (le a b)} (key : A → K) (df : list A) : list (K * list A) :=
  (λ k, (k, filter (λ r, key r = k) df)) <$> merge_sort le (remove_dups (key <$> df)).

(** [df[~df.duplicated(subset=key)]]: a row is dropped when an earlier row
    has the same key ([keep='first']). *)
Fixpoint not_duplicated {A K : Type} `{EqDecision K} (key : A → K)
    (seen : list K) (df : list A) : list A :=
  match df with
  | [] => []
  | r :: df' =>
      if decide (key r ∈ seen) then not_duplicated key seen df'
      else r :: not_duplicated key (key r :: seen) df'
  end.

(** Lexicographic order of the two-column group keys. *)
Definition key_le (a b : Z * Z) : Prop :=
  a.1 < b.1 ∨ (a.1 = b.1 ∧ a.2 ≤ b.2).

Global Instance key_le_dec a b : Decision (key_le a b).
Proof. unfold key_le. apply _. Defined.

(** [Series.sum()] and [Series.min()] of an integer column; [min] is only
    used on a column with at least one value (the head [m]). *)
Definition sum_Z (l : list Z) : Z := foldr Z.add 0 l.
Definition min_Z (m : Z) (l : list Z) : Z := foldr Z.min m l.

(** ** locsutil.py *)

Module locsutil.

(** One localization: the columns of the input table that the engine reads. *)
Record loc : Type := Loc {
  x_nm : Q;
  y_nm : Q;
  z : Q;
  id : Z;
  hdbscan : Z
}.

(** The value of a float column after [//]: an integer-valued float, or
    one of the non-finite values that division by zero gives. *)
Inductive pyfloat : Type :=
  | Fin (n : Z)
  | PosInf
  | NegInf
  | NaN.

Global Instance pyfloat_eq_dec : EqDecision pyfloat.
Proof. solve_decision. Defined.

(** [a // b] on a float column, in exact arithmetic: the floor of the
    quotient.  [machine.floordiv] is the operation of float64, with its
    rounding; the two agree on coordinates below [2 ^ 52] and positive
    integer bin sizes. *)
Definition floordiv (a b : Q) : pyfloat :=
  if Qeq_bool b 0 then
    match Qcompare a 0 with
    | Gt => PosInf
    | Lt => NegInf
    | Eq => NaN
    end
  else Fin (Qfloor (a / b)).

(** A row of the voxelized table: the localization and its three new columns. *)
Record voxelized : Type := Voxelized {
  src : loc;
  x_vox : pyfloat;
  y_vox : pyfloat;
  z_vox : pyfloat
}.

Definition voxelize_row (bin_xy bin_z : Q) (l : loc) : voxelized :=
  {| src := l;
     x_vox := floordiv (x_nm l) bin_xy;
     y_vox := floordiv (y_nm l) bin_xy;
     z_vox := floordiv (z l) bin_z |}.

Definition voxelize (locs_data : list loc) (bin_xy bin_z : Q) : list voxelized :=
  voxelize_row bin_xy bin_z <$> locs_data.

Definition vox_key (v : voxelized) : pyfloat * pyfloat * pyfloat :=
  (x_vox v, y_vox v, z_vox v).

(** The columns of a localization that [clean_locs] reads. *)
Module clean.

Record loc : Type := Loc {
  d_zcalib : Q;
  lpx : Q;
  lpy : Q;
  z : Q;
  photons : Q
}.

(** [data_out[data_out[col] <= bound]]. *)
Definition keep_le (col : loc → Q) (bound : Q) (data : list loc) : list loc :=
  filter (λ r, Qle_bool (col r) bound) data.

Definition keep_ge (col : loc → Q) (bound : Q) (data : list loc) : list loc :=
  filter (λ r, Qle_bool bound (col r)) data.

(** The values 0, 0, -9999.9, 9999.9 and -1 switch the five filters off. *)
Definition clean_locs (locs_data : list loc)
    (max_dzcalib max_lp min_z max_z : Q) (max_photon : Z) : list loc :=
  let data_out := locs_data in
  let data_out := if Qeq_bool max_dzcalib 0 then data_out
                  else keep_le d_zcalib max_dzcalib data_out in
  let data_out := if Qeq_bool max_lp 0 then data_out
                  else keep_le lpy max_lp (keep_le lpx max_lp data_out) in
  let data_out := if Qeq_bool min_z (-99999 # 10) then data_out
                  else keep_ge z min_z data_out in
  let data_out := if Qeq_bool max_z (99999 # 10) then data_out
                  else keep_le z max_z data_out in
  if decide (max_photon = -1) then data_out
  else keep_le photons (inject_Z max_photon) data_out.

End clean.

(** *** [get_status] *)

Module status.

(** A Python [str]: the list of its characters. *)
Definition str : Type := list ascii.

Global Instance char_eq_dec : EqDecision ascii := ascii_dec.

(** [s.lstrip(chars)]: the leading characters that occur in [chars] are
    removed. *)
Fixpoint lstrip (chars s : str) : str :=
  match s with
  | [] => []
  | c :: s' => if decide (c ∈ chars) then lstrip chars s' else s
  end.

(** [s.strip(chars)]: the same at both ends. *)
Definition strip (chars s : str) : str :=
  reverse (lstrip chars (reverse (lstrip chars s))).

(** [s.split(sep)] for a separator of one character; the result has at
    least one field. *)
Fixpoint split (sep : ascii) (s : str) : list str :=
  match s with
  | [] => [[]]
  | c :: s' =>
      if decide (c = sep) then [] :: split sep s'
      else match split sep s' with
           | field :: fields => (c :: field) :: fields
           | [] => [[c]]
           end
  end.

Definition get_status (file_base : str) : str :=
  let file_info :=
    split "_"%char (strip ["."; "h"; "d"; "f"; "5"]%char file_base) in
  if decide (["x"; "a"]%char ∈ file_info)
  then ["a"; "c"; "t"; "i"; "v"; "e"]%char
  else if decide (["x"; "i"]%char ∈ file_info)
  then ["i"; "n"; "a"; "c"; "t"; "i"; "v"; "e"]%char
  else ["u"; "n"; "k"; "n"; "o"; "w"; "n"]%char.

End status.

End locsutil.

(** ** voxelutil.py *)

Module voxelutil.

Inductive column : Type :=
  | x_vox | y_vox | z_vox | x_faces | y_faces | z_faces.

Global Instance column_eq_dec : EqDecision column.
Proof. solve_decision. Defined.

(** A row of the integer voxel table.  A face column that no pass has
    created yet reads 0. *)
Record row : Type := Row {
  r_x_vox : Z; r_y_vox : Z; r_z_vox : Z;
  r_x_faces : Z; r_y_faces : Z; r_z_faces : Z
}.

Global Instance row_eq_dec : EqDecision row.
Proof. solve_decision. Defined.

Definition get (c : column) (r : row) : Z :=
  match c with
  | x_vox => r_x_vox r | y_vox => r_y_vox r | z_vox => r_z_vox r
  | x_faces => r_x_faces r | y_faces => r_y_faces r | z_faces => r_z_faces r
  end.

Definition set (c : column) (v : Z) (r : row) : row :=
  match c with
  | x_vox => Row v (r_y_vox r) (r_z_vox r) (r_x_faces r) (r_y_faces r) (r_z_faces r)
  | y_vox => Row (r_x_vox r) v (r_z_vox r) (r_x_faces r) (r_y_faces r) (r_z_faces r)
  | z_vox => Row (r_x_vox r) (r_y_vox r) v (r_x_faces r) (r_y_faces r) (r_z_faces r)
  | x_faces => Row (r_x_vox r) (r_y_vox r) (r_z_vox r) v (r_y_faces r) (r_z_faces r)
  | y_faces => Row (r_x_vox r) (r_y_vox r) (r_z_vox r) (r_x_faces r) v (r_z_faces r)
  | z_faces => Row (r_x_vox r) (r_y_vox r) (r_z_vox r) (r_x_faces r) (r_y_faces r) v
  end.

Definition coords (r : row) : Z * Z * Z := (r_x_vox r, r_y_vox r, r_z_vox r).

(** [pd.DataFrame()] has no columns; every other frame of the scanner has
    the voxel columns. *)
Inductive DataFrame : Type :=
  | EmptyDataFrame
  | Table (rows : list row).

Definition rows_of (df : DataFrame) : list row :=
  match df with
  | EmptyDataFrame => []
  | Table rows => rows
  end.

(** [pd.concat([scanned, locs_group], ignore_index=True)]. *)
Definition concat_df (scanned : DataFrame) (locs_group : list row) : DataFrame :=
  Table (rows_of scanned ++ locs_group).

(** [locs_group.at[index, face_col] += d]; the label is a row position
    after [reset_index]. *)
Definition at_add (face_col : column) (index : nat) (d : Z) (locs_group : list row)
    : list row :=
  alter (λ r, set face_col (get face_col r + d) r) index locs_group.

Definition at_set (face_col : column) (index : nat) (v : Z) (locs_group : list row)
    : list row :=
  alter (set face_col v) index locs_group.

(** [locs_group[axis].diff()] followed by [fillna(0)]: the first entry is 0,
    entry [i] is the difference to the row before. *)
Definition diff (vals : list Z) : list Z :=
  match vals with
  | [] => []
  | v :: rest => 0 :: zip_with Z.sub rest vals
  end.

(** The body of the [iterrows] loop of [scan_faces_1d] at one index.
    At index 0 the difference is 0, so [index - 1] is never taken there. *)
Definition mark_row (face_col : column) (diffs : list Z) (len : nat)
    (locs_group : list row) (index : nat) : list row :=
  let g1 := if decide (index = 0%nat) then at_set face_col index 1 locs_group
            else locs_group in
  let g2 := if decide (1 < default 0 (diffs !! index))
            then at_add face_col index 1 (at_add face_col (index - 1) 1 g1)
            else g1 in
  if decide (index = (len - 1)%nat) then at_add face_col index 1 g2 else g2.

(** The order of [sort_values(by=axis)]. *)
Definition axis_le (axis : column) (a b : row) : Prop := get axis a ≤ get axis b.

Global Instance axis_le_dec axis a b : Decision (axis_le axis a b).
Proof. unfold axis_le. apply _. Defined.

(** The body of the [groupby] loop of [scan_faces_1d] on one column of
    voxels: sort by the scan axis, zero the face column, mark the faces. *)
Definition scan_group (axis face_col : column) (locs_group : list row) : list row :=
  let sorted := merge_sort (axis_le axis) locs_group in
  let zeroed := set face_col 0 <$> sorted in
  let diffs := diff (get axis <$> zeroed) in
  fold_left (mark_row face_col diffs (length zeroed)) (seq 0 (length zeroed)) zeroed.

Definition group_key (fixed_columns : column * column) (r : row) : Z * Z :=
  (get fixed_columns.1 r, get fixed_columns.2 r).

Definition scan_faces_1d (df : DataFrame) (axis : column)
    (fixed_columns : column * column) (face_col : column) : result DataFrame :=
  match df with
  | EmptyDataFrame => Raise KeyError
  | Table rows =>
      Ok (fold_left
            (λ scanned g, concat_df scanned (scan_group axis face_col g.2))
            (groupby key_le (group_key fixed_columns) rows)
            EmptyDataFrame)
  end.

Definition scan_faces (df : DataFrame) (axis : column) : result DataFrame :=
  match axis with
  | x_vox => scan_faces_1d df axis (y_vox, z_vox) x_faces
  | y_vox => scan_faces_1d df axis (x_vox, z_vox) y_faces
  | _ => scan_faces_1d df axis (x_vox, y_vox) z_faces
  end.

Definition scan_faces_all (df : DataFrame) : result DataFrame :=
  scanned ← scan_faces df x_vox;
  scanned ← scan_faces scanned y_vox;
  scan_faces scanned z_vox.

(** [df[c] = df[c] - df[c].min() + 1], one column at a time; on a frame
    without rows there is nothing to assign.  The subtraction is the one
    of the integers ([machine.shift_column] wraps around as int64 does). *)
Definition shift_column (c : column) (df : list row) : list row :=
  match df with
  | [] => []
  | r :: _ => let m := min_Z (get c r) (get c <$> df) in
              (λ r', set c (get c r' - m + 1) r') <$> df
  end.

Definition auto_origin_df (df : list row) : list row :=
  shift_column z_vox (shift_column y_vox (shift_column x_vox df)).

(** [locs_group[['x_vox', 'y_vox', 'z_vox']].astype('int')], without the
    bound of int64 ([machine.to_int] has it). *)
Definition to_int (f : locsutil.pyfloat) : result Z :=
  match f with
  | locsutil.Fin n => Ok n
  | _ => Raise IntCastingNaNError
  end.

Definition astype_int_row (v : locsutil.voxelized) : result row :=
  x ← to_int (locsutil.x_vox v);
  y ← to_int (locsutil.y_vox v);
  z ← to_int (locsutil.z_vox v);
  Ok (Row x y z 0 0 0).

Fixpoint astype_int (df : list locsutil.voxelized) : result (list row) :=
  match df with
  | [] => Ok []
  | v :: df' =>
      r ← astype_int_row v;
      rs ← astype_int df';
      Ok (r :: rs)
  end.

Definition xy_faces (r : row) : Z := get x_faces r + get y_faces r.
Definition total_faces (r : row) : Z := get x_faces r + get y_faces r + get z_faces r.

(** [out_data[out_data['total_faces'] != 0]]: the rows that
    [count_exposed_faces] counts as surface voxels, selected on the column
    [total_faces] that it has just added to its table. *)
Definition surface_rows (out_data : list row) : list row :=
  filter (λ r, total_faces r ≠ 0) out_data.

(** A row of the table that [count_exposed_faces] returns: the row of the
    scanner with the two columns [xy_faces] and [total_faces]. *)
Record calculated_row : Type := CalculatedRow {
  scanned_row : row;
  c_xy_faces : Z;
  c_total_faces : Z
}.

(** [out_data['xy_faces'] = ...] and [out_data['total_faces'] = ...]. *)
Definition add_face_columns (out_data : list row) : list calculated_row :=
  (λ r, CalculatedRow r (xy_faces r) (total_faces r)) <$> out_data.

(** A table of voxels with face counts has one of two shapes: the one the
    scanner returns, and the one [count_exposed_faces] returns, with the
    two added columns. *)
Inductive faces_frame : Type :=
  | Scanned (df : list row)
  | Calculated (df : list calculated_row).

(** [df[df['total_faces'] != 0]] and [df[df['total_faces'] == 0]]: on a
    table without the column [total_faces] the lookup raises [KeyError]. *)
Definition extract_surface (df : faces_frame) : result faces_frame :=
  match df with
  | Scanned _ => Raise KeyError
  | Calculated df => Ok (Calculated (filter (λ r, c_total_faces r ≠ 0) df))
  end.

Definition extract_core (df : faces_frame) : result faces_frame :=
  match df with
  | Scanned _ => Raise KeyError
  | Calculated df => Ok (Calculated (filter (λ r, c_total_faces r = 0) df))
  end.

(** [extract_cluster]: the number of rows of every [hdbscan] label, as the
    pairs (label, count) in ascending order of the label. *)
Definition extract_cluster (df : list locsutil.loc) : list (Z * Z) :=
  (λ g, (g.1, sum_Z ((λ _, 1) <$> g.2))) <$> groupby Z.le locsutil.hdbscan df.

(** [sigmoid(x, L, x0, k)], in the real numbers. *)
Definition sigmoid (x L x0 k : R) : R := (L / (1 + exp (- k * (x - x0))))%R.

(** Returns [(out_data, total_vox, surf_vox, xy_faces, z_faces)]. *)
Definition count_exposed_faces (locs_group : list locsutil.voxelized)
    : result (list row * Z * Z * Z * Z) :=
  let locs_group := not_duplicated locsutil.vox_key [] locs_group in
  locs_group ← astype_int locs_group;
  let locs_group := auto_origin_df locs_group in
  out ← scan_faces_all (Table locs_group);
  match out with
  | EmptyDataFrame => Raise KeyError
  | Table out_data =>
      let total_vox := Z.of_nat (length out_data) in
      let surf_vox := Z.of_nat (length (surface_rows out_data)) in
      Ok (out_data, total_vox, surf_vox,
          sum_Z (xy_faces <$> out_data), sum_Z (get z_faces <$> out_data))
  end.

End voxelutil.

(** ** The builder in machine arithmetic *)

Module machine.

(** *** float64 *)

(** [2 ^ e] as a rational. *)
Definition pow2 (e : Z) : Q :=
  if decide (0 ≤ e) then inject_Z (2 ^ e)%Z else Qinv (inject_Z (2 ^ (- e))%Z).

(** The binary exponent of a rational other than zero: the [e] with
    [2 ^ e <= |q| < 2 ^ (e + 1)]. *)
Definition ilog2 (q : Q) : Z :=
  let e := Z.log2 (Z.abs (Qnum q)) - Z.log2 (Zpos (Qden q)) in
  if Qle_bool (pow2 e) (Qabs q) then e else e - 1.

(** Rounding to the nearest integer, ties to the even one. *)
Definition rint (q : Q) : Z :=
  let f := Qfloor q in
  match (q - inject_Z f ?= 1 # 2)%Q with
  | Lt => f
  | Gt => f + 1
  | Eq => if Z.even f then f else f + 1
  end.

(** The result of a float64 operation on finite operands. *)
Inductive float64 : Type :=
  | Finite (q : Q)
  | Infinite (negative : bool).

Definition Qltb (a b : Q) : bool := negb (Qle_bool b a).

(** Rounding of a real result to float64 (round to nearest, ties to even):
    53 significant bits, exponents from -1022, and infinity from [2 ^ 1024]. *)
Definition round (q : Q) : float64 :=
  let q := Qred q in
  if Qeq_bool q 0 then Finite 0
  else
    let e := Z.max (ilog2 q) (-1022) in
    let m := rint (q * pow2 (52 - e)) in
    let v := Qred (inject_Z m * pow2 (e - 52)) in
    if Qle_bool (pow2 1024) (Qabs v) then Infinite (Qltb q 0) else Finite v.

(** [fmod(a, b)] of C: the remainder of the quotient truncated towards
    zero; it is exact. *)
Definition fmod (a b : Q) : Q :=
  let q := (a / b)%Q in
  (a - inject_Z (if Qltb q 0 then Qceiling q else Qfloor q) * b)%Q.

(** [a // b] on a float64 column, for finite [a] and [b]: the function
    [npy_divmod] of numpy, which is also the floor division of Python
    floats; division by zero as pandas reports it. *)
Definition floordiv (a b : Q) : locsutil.pyfloat :=
  if Qeq_bool b 0 then
    match Qcompare a 0 with
    | Gt => locsutil.PosInf
    | Lt => locsutil.NegInf
    | Eq => locsutil.NaN
    end
  else
    let modulus := fmod a b in
    let inf (negative : bool) :=
      if negative then locsutil.NegInf else locsutil.PosInf in
    match round (a - modulus) with
    | Infinite s => inf s
    | Finite t =>
        match round (t / b) with
        | Infinite s => inf s
        | Finite div =>
            let adjusted :=
              if negb (Qeq_bool modulus 0) && xorb (Qltb b 0) (Qltb modulus 0)
              then round (div - 1) else Finite div in
            match adjusted with
            | Infinite s => inf s
            | Finite div =>
                if Qeq_bool div 0 then locsutil.Fin 0
                else
                  let floor_div := Qfloor div in
                  match round (div - inject_Z floor_div) with
                  | Infinite _ => locsutil.Fin floor_div
                  | Finite frac =>
                      if Qltb (1 # 2) frac
                      then match round (inject_Z floor_div + 1) with
                           | Finite v => locsutil.Fin (Qfloor v)
                           | Infinite s => inf s
                           end
                      else locsutil.Fin floor_div
                  end
            end
        end
    end.

Definition voxelize_row (bin_xy bin_z : Q) (l : locsutil.loc) : locsutil.voxelized :=
  {| locsutil.src := l;
     locsutil.x_vox := floordiv (locsutil.x_nm l) bin_xy;
     locsutil.y_vox := floordiv (locsutil.y_nm l) bin_xy;
     locsutil.z_vox := floordiv (locsutil.z l) bin_z |}.

Definition voxelize (locs_data : list locsutil.loc) (bin_xy bin_z : Q)
    : list locsutil.voxelized :=
  voxelize_row bin_xy bin_z <$> locs_data.

(** *** int64 *)

(** The value of an int64 operation: the result modulo [2 ^ 64], in the
    range from [- 2 ^ 63]. *)
Definition int64 (n : Z) : Z := (n + 2 ^ 63) mod 2 ^ 64 - 2 ^ 63.

(** [astype('int')] of one value: a float that is not finite is refused;
    a finite one outside the range of int64 is not, the cast gives the
    smallest int64 for it (x86-64). *)
Definition to_int (f : locsutil.pyfloat) : result Z :=
  match f with
  | locsutil.Fin n => Ok (if decide (- 2 ^ 63 ≤ n < 2 ^ 63) then n else - 2 ^ 63)
  | _ => Raise IntCastingNaNError
  end.

Definition astype_int_row (v : locsutil.voxelized) : result voxelutil.row :=
  x ← to_int (locsutil.x_vox v);
  y ← to_int (locsutil.y_vox v);
  z ← to_int (locsutil.z_vox v);
  Ok (voxelutil.Row x y z 0 0 0).

Fixpoint astype_int (df : list locsutil.voxelized) : result (list voxelutil.row) :=
  match df with
  | [] => Ok []
  | v :: df' =>
      r ← astype_int_row v;
      rs ← astype_int df';
      Ok (r :: rs)
  end.

(** [df[c] = df[c] - df[c].min() + 1] on an int64 column. *)
Definition shift_column (c : voxelutil.column) (df : list voxelutil.row)
    : list voxelutil.row :=
  match df with
  | [] => []
  | r :: _ =>
      let m := min_Z (voxelutil.get c r) (voxelutil.get c <$> df) in
      (λ r', voxelutil.set c (int64 (int64 (voxelutil.get c r' - m) + 1)) r') <$> df
  end.

Definition auto_origin_df (df : list voxelutil.row) : list voxelutil.row :=
  shift_column voxelutil.z_vox
    (shift_column voxelutil.y_vox (shift_column voxelutil.x_vox df)).

(** The first three statements of [count_exposed_faces]: the grid that it
    hands to the scanner. *)
Definition voxel_grid (locs_group : list locsutil.voxelized)
    : result (list voxelutil.row) :=
  let locs_group := not_duplicated locsutil.vox_key [] locs_group in
  locs_group ← astype_int locs_group;
  Ok (auto_origin_df locs_group).

End machine.


(** ** voxelscan.py *)

Module voxelscan.

(** The value of [total_surf / (total_vol ** (2 / 3))].  For a positive
    volume it is a real number; for a zero volume the quotient is inf or
    NaN and for a negative one Python's power is complex. *)
Inductive pyscalar : Type :=
  | Real (r : R)
  | NonReal.

Definition normalized_stov (total_surf total_vol : Z) : pyscalar :=
  if decide (0 < total_vol)
  then Real (IZR total_surf / Rpower (IZR total_vol) (2 / 3))
  else NonReal.

(** [int / int]: true division of Python integers. *)
Definition truediv (a b : Z) : result Q :=
  if decide (b = 0) then Raise ZeroDivisionError else Ok (inject_Z a / inject_Z b)%Q.

(** The five lists that [voxel_scan] builds and returns. *)
Record scan_lists : Type := ScanLists {
  bin_list : list Z;
  vol_list : list Z;
  surf_list : list Z;
  stov_list : list pyscalar;
  core_ratio_list : list Q
}.

(** The body of the loop of [voxel_scan] for one bin size. *)
Definition voxel_scan_bin (locs : list locsutil.loc) (acc : scan_lists) (bin : Z)
    : result scan_lists :=
  let data := locsutil.voxelize locs (inject_Z bin) (inject_Z bin) in
  '(calculated, total_vox, surf_vox, xy_faces, z_faces) ←
     voxelutil.count_exposed_faces data;
  let total_vol := total_vox * bin ^ 3 in
  let total_surf := (xy_faces + z_faces) * bin ^ 2 in
  let normalized := normalized_stov total_surf total_vol in
  core_ratio ← truediv (total_vox - surf_vox) total_vox;
  Ok {| bin_list := bin_list acc ++ [bin];
        vol_list := vol_list acc ++ [total_vol];
        surf_list := surf_list acc ++ [total_surf];
        stov_list := stov_list acc ++ [normalized];
        core_ratio_list := core_ratio_list acc ++ [core_ratio] |}.

Definition voxel_scan (locs : list locsutil.loc) (bin_min bin_max step : Z)
    : result scan_lists :=
  bins ← py_range bin_min bin_max step;
  for_in bins (voxel_scan_bin locs) (ScanLists [] [] [] [] []).

(** [max(_y)] of a Python list: the first of the largest elements. *)
Definition py_max (ys : list Q) : result Q :=
  match ys with
  | [] => Raise ValueError
  | y :: ys' => Ok (fold_left (λ m v, if Qlt_le_dec m v then v else m) ys' y)
  end.

(** [np.median(_x)] of a list with at least one element. *)
Definition median (xs : list Z) : Q :=
  let sorted := merge_sort Z.le xs in
  let n := length sorted in
  if Nat.even n
  then ((inject_Z (default 0%Z (sorted !! (n / 2 - 1)%nat))
         + inject_Z (default 0%Z (sorted !! (n / 2)%nat))) / 2)%Q
  else inject_Z (default 0 (sorted !! (n / 2)%nat)).

Section fit.

(** The least-squares solver of scipy, [curve_fit(sigmoid, _x, _y,
    method='dogbox', p0=p0)]: it returns the fitted [(L, x0, k)] or
    raises [RuntimeError] when it does not converge. *)
Variable curve_fit : list Z → list Q → Q * Q * Q → result (Q * Q * Q).

Definition fit_sigmoid (_x : list Z) (_y : list Q) : result (Q * Q * Q) :=
  L0 ← py_max _y;
  curve_fit _x _y (L0, median _x, 1%Q).

(** The nine lists that [_analyze_vox] builds, one entry per cluster
    that passes the cutoff ([int2str] joins the numbers of an entry
    into one string; the entry is kept as the list here). *)
Record columns : Type := Columns {
  _id : list Z;
  total_locs : list Z;
  num_clusters : list Z;
  bins : list (list Z);
  vols : list (list Z);
  surfs : list (list Z);
  stovs : list (list pyscalar);
  core_ratios : list (list Q);
  params : list (Q * Q * Q)
}.

(** The body of the loop of [_analyze_vox] for one cluster. *)
Definition analyze_group (bin_min bin_max step cutoff : Z) (acc : columns)
    (g : Z * list locsutil.loc) : result columns :=
  let '(i, locs_group) := g in
  if decide (Z.of_nat (length locs_group) < cutoff) then Ok acc
  else
    sl ← voxel_scan locs_group bin_min bin_max step;
    let acc' := {|
      _id := _id acc ++ [i];
      total_locs := total_locs acc ++ [Z.of_nat (length locs_group)];
      num_clusters := num_clusters acc ++
        [Z.of_nat (length (remove_dups (locsutil.hdbscan <$> locs_group)))];
      bins := bins acc ++ [bin_list sl];
      vols := vols acc ++ [vol_list sl];
      surfs := surfs acc ++ [surf_list sl];
      stovs := stovs acc ++ [stov_list sl];
      core_ratios := core_ratios acc ++ [core_ratio_list sl];
      params := params acc |} in
    match fit_sigmoid (bin_list sl) (core_ratio_list sl) with
    | Ok popt =>
        Ok {| _id := _id acc'; total_locs := total_locs acc';
              num_clusters := num_clusters acc'; bins := bins acc';
              vols := vols acc'; surfs := surfs acc'; stovs := stovs acc';
              core_ratios := core_ratios acc';
              params := params acc' ++ [popt] |}
    | Raise RuntimeError => Ok acc'   (* prints 'Fitting failed' *)
    | Raise e => Raise e
    end.

(** One row of the table that [_analyze_vox] returns. *)
Record cluster_row : Type := ClusterRow {
  row_id : Z;
  row_total_locs : Z;
  row_clusters : Z;
  row_vox_bins : list Z;
  row_total_vol : list Z;
  row_total_surf : list Z;
  row_s_to_v : list pyscalar;
  row_core_ratios : list Q;
  row_sigmoid_params : Q * Q * Q
}.

(** [pd.DataFrame(data={...})] from a dict of lists: the lists must have
    one length, otherwise pandas raises [ValueError]. *)
Fixpoint make_rows (c1 c2 c3 : list Z) (c4 c5 c6 : list (list Z))
    (c7 : list (list pyscalar)) (c8 : list (list Q)) (c9 : list (Q * Q * Q))
    : result (list cluster_row) :=
  match c1, c2, c3, c4, c5, c6, c7, c8, c9 with
  | [], [], [], [], [], [], [], [], [] => Ok []
  | a1 :: c1, a2 :: c2, a3 :: c3, a4 :: c4, a5 :: c5, a6 :: c6,
    a7 :: c7, a8 :: c8, a9 :: c9 =>
      rs ← make_rows c1 c2 c3 c4 c5 c6 c7 c8 c9;
      Ok (ClusterRow a1 a2 a3 a4 a5 a6 a7 a8 a9 :: rs)
  | _, _, _, _, _, _, _, _, _ => Raise ValueError
  end.

Definition DataFrame_of (c : columns) : result (list cluster_row) :=
  make_rows (_id c) (total_locs c) (num_clusters c) (bins c) (vols c)
    (surfs c) (stovs c) (core_ratios c) (params c).

Definition _analyze_vox (locs : list locsutil.loc) (bin_min bin_max step cutoff : Z)
    : result (list cluster_row) :=
  c ← for_in (groupby Z.le locsutil.id locs)
         (analyze_group bin_min bin_max step cutoff)
         (Columns [] [] [] [] [] [] [] [] []);
  DataFrame_of c.

End fit.

End voxelscan.

(** ** analyze.py *)

Module analyze.

Definition sum_Q (l : list Q) : Q := foldr Qplus 0%Q l.

(** [Series.mean()] of a float column. *)
Definition mean (l : list Q) : Q := (sum_Q l / inject_Z (Z.of_nat (length l)))%Q.

Definition calc_com (locs : list locsutil.loc) : Q * Q * Q :=
  (mean (locsutil.x_nm <$> locs), mean (locsutil.y_nm <$> locs),
   mean (locsutil.z <$> locs)).

Definition gyration_radius (locs : list locsutil.loc) (com : Q * Q * Q) : R :=
  let '(cx, cy, cz) := com in
  let r2 := (λ l, (locsutil.x_nm l - cx) ^ 2 + (locsutil.y_nm l - cy) ^ 2
                  + (locsutil.z l - cz) ^ 2)%Q <$> locs in
  sqrt (Q2R (sum_Q r2 / inject_Z (Z.of_nat (length locs)))).

(** The running totals of the inner loop of [analyze_clusters]. *)
Record totals : Type := Totals {
  total_vox : Q;
  total_surf_vox : Q;
  total_xy_faces : Q;
  total_z_faces : Q
}.

(** The body of the inner loop: one hdbscan sub-group of a cluster. *)
Definition add_subgroup (t : totals) (g : Z * list locsutil.voxelized)
    : result totals :=
  '(calculated, vol, surf, xy_faces, z_faces) ← voxelutil.count_exposed_faces g.2;
  Ok {| total_vox := total_vox t + inject_Z vol;
        total_surf_vox := total_surf_vox t + inject_Z surf;
        total_xy_faces := total_xy_faces t + inject_Z xy_faces;
        total_z_faces := total_z_faces t + inject_Z z_faces |}%Q.

(** One row of the table that [analyze_clusters] returns. *)
Record cluster_row : Type := ClusterRow {
  row_id : Z;
  row_total_locs : Z;
  row_com : Q * Q * Q;
  row_total_vox : Q;
  row_total_surf_vox : Q;
  row_vol_vox : Q;
  row_surf_area : Q;
  row_rg : R
}.

(** The body of the outer loop: one decoded cluster. *)
Definition analyze_cluster (bin_xy bin_z : Q) (acc : list cluster_row)
    (g : Z * list locsutil.voxelized) : result (list cluster_row) :=
  let '(i, locs_group) := g in
  let com := calc_com (locsutil.src <$> locs_group) in
  t ← for_in (groupby Z.le (λ v, locsutil.hdbscan (locsutil.src v)) locs_group)
         add_subgroup (Totals 0 0 0 0);
  Ok (acc ++ [{|
    row_id := i;
    row_total_locs := Z.of_nat (length locs_group);
    row_com := com;
    row_total_vox := total_vox t;
    row_total_surf_vox := total_surf_vox t;
    row_vol_vox := (total_vox t * bin_xy ^ 2 * bin_z)%Q;
    row_surf_area :=
      (total_xy_faces t * bin_xy * bin_z + total_z_faces t * bin_xy ^ 2)%Q;
    row_rg := gyration_radius (locsutil.src <$> locs_group) com |}]).

Definition analyze_clusters (locs : list locsutil.voxelized) (bin_xy bin_z : Q)
    : result (list cluster_row) :=
  for_in (groupby Z.le (λ v, locsutil.id (locsutil.src v)) locs)
    (analyze_cluster bin_xy bin_z) [].

(** [analyze_data] after the file has been read and converted to nm. *)
Definition analyze_data (data : list locsutil.loc) (bin_xy bin_z : Q)
    : result (list cluster_row) :=
  let data := filter (λ l, locsutil.id l ≠ -1) data in
  analyze_clusters (locsutil.voxelize data bin_xy bin_z) bin_xy bin_z.

End analyze.

(** * Specification vocabulary *)

Import voxelutil.

(** The scan-axis value at position [i] of a column. *)
Definition val (vs : list Z) (i : nat) : Z := default 0 (vs !! i).

Definition gap (a b : Z) : Z := if decide (1 < b - a) then 1 else 0.

Definition marked (vs : list Z) (k i : nat) : Z :=
  (if decide (i = 0%nat ∧ (0 < k)%nat) then 1 else 0)
  + (if decide ((0 < i < k)%nat) then gap (val vs (Nat.pred i)) (val vs i) else 0)
  + (if decide ((S i < k)%nat) then gap (val vs i) (val vs (S i)) else 0)
  + (if decide (i = (length vs - 1)%nat ∧ (i < k)%nat) then 1 else 0).

Definition column_faces (vs : list Z) (i : nat) : Z :=
  (if decide (i = 0%nat) then 1 else 0)
  + (if decide (i = (length vs - 1)%nat) then 1 else 0)
  + (if decide ((0 < i)%nat) then gap (val vs (Nat.pred i)) (val vs i) else 0)
  + (if decide ((S i < length vs)%nat) then gap (val vs i) (val vs (S i)) else 0).

(** A voxel position is exposed on one side when the neighbouring position
    is not occupied: the count is 1 for an absent neighbour, 0 otherwise. *)
Definition absent {A : Type} `{EqDecision A} (occupied : list A) (c : A) : Z :=
  if decide (c ∈ occupied) then 0 else 1.

(** The keys of [groupby], in the order the groups are visited. *)
Definition group_keys {A K : Type} `{EqDecision K} (le : relation K)
    `{∀ a b, Decision (le a b)} (key : A → K) (df : list A) : list K :=
  merge_sort le (remove_dups (key <$> df)).

(** The columns of a frame for one pass, in the order the pass visits them. *)
Definition columns_of (fixed_columns : column * column) (rows : list row)
    : list (list row) :=
  (groupby key_le (group_key fixed_columns) rows).*2.

(** The rows that one pass of the scanner leaves. *)
Definition pass (axis face_col : column) (fixed_columns : column * column)
    (rows : list row) : list row :=
  concat (scan_group axis face_col <$> columns_of fixed_columns rows).

(** The row of a voxel with the face counts read off the grid: on each axis,
    the number of the two neighbouring positions that are not occupied. *)
Definition exposure (grid : list (Z * Z * Z)) (c : Z * Z * Z) : row :=
  let '(x, y, z) := c in
  Row x y z
    (absent grid (x - 1, y, z) + absent grid (x + 1, y, z))
    (absent grid (x, y - 1, z) + absent grid (x, y + 1, z))
    (absent grid (x, y, z - 1) + absent grid (x, y, z + 1)).

Definition pass_x : list row → list row := pass x_vox x_faces (y_vox, z_vox).
Definition pass_y : list row → list row := pass y_vox y_faces (x_vox, z_vox).
Definition pass_z : list row → list row := pass z_vox z_faces (x_vox, y_vox).

(** The number of maximal contiguous runs of a column, given by the set of
    its scan-axis positions: every run has exactly one first position, the
    one whose predecessor is not in the column. *)
Definition runs (vs : list Z) : Z :=
  Z.of_nat (length (filter (λ v, v - 1 ∉ vs) vs)).

(** The voxel index of a localization: floor division of each coordinate
    by the bin size of its axis. *)
Definition voxel_of (bin_xy bin_z : Q) (l : locsutil.loc) : Z * Z * Z :=
  (Qfloor (locsutil.x_nm l / bin_xy), Qfloor (locsutil.y_nm l / bin_xy),
   Qfloor (locsutil.z l / bin_z)).

(** The minimum of a column of a frame (0 stands for the NaN of an empty
    frame, which [auto_origin_df] never uses). *)
Definition col_min (c : column) (df : list row) : Z :=
  match df with
  | [] => 0
  | r :: _ => min_Z (get c r) (get c <$> df)
  end.

(** Translation of a voxel so that the corner [m] lands on (1, 1, 1). *)
Definition to_origin (m c : Z * Z * Z) : Z * Z * Z :=
  (c.1.1 - m.1.1 + 1, c.1.2 - m.1.2 + 1, c.2 - m.2 + 1).

(** The row of the integer voxel table for a voxel index, before any pass. *)
Definition int_row (c : Z * Z * Z) : row := Row c.1.1 c.1.2 c.2 0 0 0.

(** The grid that [count_exposed_faces] scans when it is given the output
    of [voxelize]: the rows left by the removal of duplicates, cast to
    integers and moved to the origin. *)
Definition voxel_grid (locs : list locsutil.loc) (bin_xy bin_z : Q) : list row :=
  auto_origin_df
    ((λ v, int_row (voxel_of bin_xy bin_z (locsutil.src v)))
       <$> not_duplicated locsutil.vox_key [] (locsutil.voxelize locs bin_xy bin_z)).

(** The three float columns of a voxel index. *)
Definition fin3 (c : Z * Z * Z) : locsutil.pyfloat * locsutil.pyfloat * locsutil.pyfloat :=
  (locsutil.Fin c.1.1, locsutil.Fin c.1.2, locsutil.Fin c.2).

(** The corner that [auto_origin_df] moves to (1, 1, 1). *)
Definition corner (df : list row) : Z * Z * Z :=
  (col_min x_vox df, col_min y_vox df, col_min z_vox df).

(** ** The samples of the multi-scale sweep *)

(** The table that [count_exposed_faces] returns for one bin size of the
    sweep ([bin_xy = bin_z = bin]). *)
Definition scanned (locs : list locsutil.loc) (bin : Z) : list row :=
  pass_z (pass_y (pass_x (voxel_grid locs (inject_Z bin) (inject_Z bin)))).

Definition sample_total_vox (locs : list locsutil.loc) (bin : Z) : Z :=
  Z.of_nat (length (scanned locs bin)).

Definition sample_surf_vox (locs : list locsutil.loc) (bin : Z) : Z :=
  Z.of_nat (length (surface_rows (scanned locs bin))).

Definition sample_vol (locs : list locsutil.loc) (bin : Z) : Z :=
  sample_total_vox locs bin * bin ^ 3.

Definition sample_surf (locs : list locsutil.loc) (bin : Z) : Z :=
  (sum_Z (xy_faces <$> scanned locs bin) + sum_Z (get z_faces <$> scanned locs bin))
  * bin ^ 2.

Definition sample_stov (locs : list locsutil.loc) (bin : Z) : voxelscan.pyscalar :=
  voxelscan.normalized_stov (sample_surf locs bin) (sample_vol locs bin).

Definition sample_core_ratio (locs : list locsutil.loc) (bin : Z) : Q :=
  (inject_Z (sample_total_vox locs bin - sample_surf_vox locs bin)
   / inject_Z (sample_total_vox locs bin))%Q.

(** The tuple that [count_exposed_faces] returns for the table [out_data]. *)
Definition counts (out_data : list row) : list row * Z * Z * Z * Z :=
  (out_data, Z.of_nat (length out_data),
   Z.of_nat (length (surface_rows out_data)),
   sum_Z (xy_faces <$> out_data), sum_Z (get z_faces <$> out_data)).

(** The sub-groups of a cluster in [analyze_clusters]. *)
Definition subgroups (locs_group : list locsutil.voxelized)
    : list (Z * list locsutil.voxelized) :=
  groupby Z.le (λ v, locsutil.hdbscan (locsutil.src v)) locs_group.

(** The clusters of the voxelized table in [analyze_clusters]. *)
Definition clusters (locs : list locsutil.voxelized)
    : list (Z * list locsutil.voxelized) :=
  groupby Z.le (λ v, locsutil.id (locsutil.src v)) locs.

(** ** The lists of [_analyze_vox] *)

(** The eight lists that are extended for every processed cluster have one
    length, and [params] is not longer. *)
Definition aligned (c : voxelscan.columns) : Prop :=
  length (voxelscan.total_locs c) = length (voxelscan._id c)
  ∧ length (voxelscan.num_clusters c) = length (voxelscan._id c)
  ∧ length (voxelscan.bins c) = length (voxelscan._id c)
  ∧ length (voxelscan.vols c) = length (voxelscan._id c)
  ∧ length (voxelscan.surfs c) = length (voxelscan._id c)
  ∧ length (voxelscan.stovs c) = length (voxelscan._id c)
  ∧ length (voxelscan.core_ratios c) = length (voxelscan._id c)
  ∧ (length (voxelscan.params c) ≤ length (voxelscan._id c))%nat.

(** The number of processed clusters without fitted parameters. *)
Definition missing (c : voxelscan.columns) : nat :=
  (length (voxelscan._id c) - length (voxelscan.params c))%nat.

(** The fit of the cluster [g] does not converge. *)
Definition fit_fails (curve_fit : list Z → list Q → Q * Q * Q → result (Q * Q * Q))
    (bin_min bin_max step cutoff : Z) (g : Z * list locsutil.loc) : Prop :=
  ¬ Z.of_nat (length g.2) < cutoff
  ∧ ∃ sl, voxelscan.voxel_scan g.2 bin_min bin_max step = Ok sl
      ∧ voxelscan.fit_sigmoid curve_fit (voxelscan.bin_list sl)
          (voxelscan.core_ratio_list sl) = Raise RuntimeError.


(** ** Translations *)

(** Translation of a voxel row by an integer offset per axis. *)
Definition translate_row (k : Z * Z * Z) (r : row) : row :=
  Row (r_x_vox r + k.1.1) (r_y_vox r + k.1.2) (r_z_vox r + k.2)
      (r_x_faces r) (r_y_faces r) (r_z_faces r).

(** Translation of a localization by an offset in nm per axis. *)
Definition translate_loc (dx dy dz : Q) (l : locsutil.loc) : locsutil.loc :=
  {| locsutil.x_nm := locsutil.x_nm l + dx;
     locsutil.y_nm := locsutil.y_nm l + dy;
     locsutil.z := locsutil.z l + dz;
     locsutil.id := locsutil.id l;
     locsutil.hdbscan := locsutil.hdbscan l |}.

(** Two voxelized rows hold the same voxel up to the offset [k]. *)
Definition shifted (k : Z * Z * Z) (v v' : locsutil.voxelized) : Prop :=
  ∃ c : Z * Z * Z,
    locsutil.vox_key v = fin3 c
    ∧ locsutil.vox_key v' = fin3 (c.1.1 + k.1.1, c.1.2 + k.1.2, c.2 + k.2).

(** The six axis neighbours of a voxel. *)
Definition neighbours (c : Z * Z * Z) : list (Z * Z * Z) :=
  let '(x, y, z) := c in
  [(x - 1, y, z); (x + 1, y, z); (x, y - 1, z); (x, y + 1, z);
   (x, y, z - 1); (x, y, z + 1)].

(** ** The table of [_analyze_vox] *)

(** The clusters that [_analyze_vox] processes: the groups with at least
    [cutoff] localizations, in the order of the loop. *)
Definition processed (locs : list locsutil.loc) (cutoff : Z)
    : list (Z * list locsutil.loc) :=
  filter (λ g, ¬ Z.of_nat (length g.2) < cutoff) (groupby Z.le locsutil.id locs).

(** The row of the table for the cluster [g], swept over [bins], with the
    fitted parameters [popt]. *)
Definition table_row (bins : list Z) (g : Z * list locsutil.loc) (popt : Q * Q * Q)
    : voxelscan.cluster_row :=
  {| voxelscan.row_id := g.1;
     voxelscan.row_total_locs := Z.of_nat (length g.2);
     voxelscan.row_clusters :=
       Z.of_nat (length (remove_dups (locsutil.hdbscan <$> g.2)));
     voxelscan.row_vox_bins := bins;
     voxelscan.row_total_vol := sample_vol g.2 <$> bins;
     voxelscan.row_total_surf := sample_surf g.2 <$> bins;
     voxelscan.row_s_to_v := sample_stov g.2 <$> bins;
     voxelscan.row_core_ratios := sample_core_ratio g.2 <$> bins;
     voxelscan.row_sigmoid_params := popt |}.

(** ** The filters of [clean_locs] *)

(** The bounds that [clean_locs] ends up applying to a row: a filter whose
    parameter has the value that switches it off asks nothing. *)
Definition within_bounds (max_dzcalib max_lp min_z max_z : Q) (max_photon : Z)
    (r : locsutil.clean.loc) : Prop :=
  (¬ (max_dzcalib == 0)%Q → (locsutil.clean.d_zcalib r <= max_dzcalib)%Q)
  ∧ (¬ (max_lp == 0)%Q →
       (locsutil.clean.lpx r <= max_lp)%Q ∧ (locsutil.clean.lpy r <= max_lp)%Q)
  ∧ (¬ (min_z == -99999 # 10)%Q → (min_z <= locsutil.clean.z r)%Q)
  ∧ (¬ (max_z == 99999 # 10)%Q → (locsutil.clean.z r <= max_z)%Q)
  ∧ (max_photon ≠ -1 → (locsutil.clean.photons r <= inject_Z max_photon)%Q).

(** ** The range of the builder in machine arithmetic *)

(** A coordinate below [2 ^ 52] in absolute value. *)
Definition small (x : Q) : Prop :=
  (- inject_Z (2 ^ 52) < x < inject_Z (2 ^ 52))%Q.

Definition small_loc (l : locsutil.loc) : Prop :=
  small (locsutil.x_nm l) ∧ small (locsutil.y_nm l) ∧ small (locsutil.z l).

(** * The marking loop of one column *)

Section scan_group.

Lemma get_set c v r : get c (set c v r) = v.
Proof. by destruct c. Qed.

Lemma get_set_ne c c' v r : c ≠ c' → get c' (set c v r) = get c' r.
Proof. by destruct c, c'. Qed.

Lemma set_set c v w r : set c v (set c w r) = set c v r.
Proof. by destruct c. Qed.

Lemma diff_lookup vs k :
  (k < length vs)%nat →
  default 0 (diff vs !! k)
  = if decide (k = 0%nat) then 0 else val vs k - val vs (Nat.pred k).
Proof.
  destruct vs as [|v vs]; simpl; [lia|]. intros Hk.
  destruct k as [|k]; simpl; [done|].
  rewrite lookup_zip_with. unfold val. simpl.
  destruct (vs !! k) eqn:E1; simpl.
  - destruct ((v :: vs) !! k) eqn:E2; simpl; [done|].
    apply lookup_ge_None in E2. simpl in *. lia.
  - apply lookup_ge_None in E1. lia.
Qed.

Lemma alter_lookup_fn (f : row → row) j (l : list row) i :
  alter f j l !! i = (if decide (j = i) then f else λ r, r) <$> l !! i.
Proof.
  rewrite list_lookup_alter. case_decide; [by subst|].
  by destruct (l !! i).
Qed.

Ltac split_decide := repeat (case_decide; try lia).

Lemma mark_row_step face vs zs k :
  length zs = length vs → (k < length zs)%nat →
  mark_row face (diff vs) (length zs)
    (imap (λ i r, set face (marked vs k i) r) zs) k
  = imap (λ i r, set face (marked vs (S k) i) r) zs.
Proof.
  intros Hlen Hk. apply list_eq. intros i.
  unfold mark_row, at_set, at_add.
  rewrite diff_lookup by lia.
  rewrite list_lookup_imap.
  destruct (decide (k = 0%nat)) as [Hk0|Hk0];
    [|destruct (decide (1 < val vs k - val vs (Nat.pred k))) as [Hg|Hg]];
    destruct (decide (k = (length zs - 1)%nat)) as [Hkn|Hkn];
    try (destruct (decide (1 < 0)) as [?|_]; [lia|]);
    rewrite ?alter_lookup_fn, ?list_lookup_imap;
    destruct (zs !! i) as [r|]; simpl; try (by repeat case_decide);
    f_equal;
    destruct (decide (k = i)) as [Hki|Hki];
    destruct (decide ((k - 1)%nat = i)) as [Hpi|Hpi]; try lia; simpl;
    rewrite ?get_set, ?set_set; f_equal.
  all: try (assert (S k = length zs) by lia; clear Hkn).
  all: try (subst k); try (assert (k = S i) as -> by lia); simpl Nat.pred in *.
  all: unfold marked, gap; rewrite <- ?Hlen; simpl Nat.pred; split_decide.
Qed.

Lemma marked_0 vs i : marked vs 0 i = 0.
Proof. unfold marked. repeat case_decide; lia. Qed.

Lemma mark_rows_fold face vs ss k :
  length ss = length vs → (k ≤ length ss)%nat →
  let zs := set face 0 <$> ss in
  fold_left (mark_row face (diff vs) (length zs)) (seq 0 k) zs
  = imap (λ i r, set face (marked vs k i) r) zs.
Proof.
  intros Hlen Hk zs.
  assert (Hz : length zs = length vs) by (unfold zs; by rewrite length_fmap).
  induction k as [|k IH].
  - simpl. apply list_eq. intros i. rewrite list_lookup_imap.
    unfold zs. rewrite list_lookup_fmap.
    destruct (ss !! i); simpl; [|done].
    by rewrite marked_0, set_set.
  - rewrite seq_S, fold_left_app. simpl. rewrite IH by lia.
    apply mark_row_step; [done|]. rewrite Hz, <- Hlen. lia.
Qed.

Lemma marked_full vs i :
  (i < length vs)%nat → marked vs (length vs) i = column_faces vs i.
Proof. intros Hi. unfold marked, column_faces. repeat case_decide; lia. Qed.

Lemma scan_group_eq axis face g :
  axis ≠ face →
  let sorted := merge_sort (axis_le axis) g in
  scan_group axis face g
  = imap (λ i r, set face (column_faces (get axis <$> sorted) i) r) sorted.
Proof.
  intros Hne sorted. unfold scan_group. fold sorted.
  set (vs := get axis <$> sorted).
  assert (Hvs : get axis <$> (set face 0 <$> sorted) = vs).
  { unfold vs. rewrite <- list_fmap_compose. apply list_fmap_ext.
    intros i r _. simpl. by rewrite get_set_ne. }
  rewrite Hvs.
  pose proof (mark_rows_fold face vs sorted (length sorted)) as H.
  simpl in H. rewrite length_fmap in *.
  rewrite H by (unfold vs; rewrite ?length_fmap; lia).
  apply list_eq. intros i. rewrite !list_lookup_imap, list_lookup_fmap.
  destruct (sorted !! i) as [r|] eqn:Er; simpl; [|done].
  rewrite set_set. do 2 f_equal.
  replace (length sorted) with (length vs) by (unfold vs; by rewrite length_fmap).
  apply marked_full. unfold vs. rewrite length_fmap. by eapply lookup_lt_Some.
Qed.

End scan_group.

(** * Grouping *)

Section groupby.
Context {A K : Type} `{EqDecision K} (le : relation K) `{∀ a b, Decision (le a b)}.
Context (key : A → K).

Lemma groupby_keys df : (groupby le key df).*1 = group_keys le key df.
Proof.
  unfold groupby, group_keys. rewrite <- list_fmap_compose.
  induction (merge_sort le _) as [|k ks IH]; simpl; [done|]. by f_equal.
Qed.

Lemma groupby_groups df :
  (groupby le key df).*2 = (λ k, filter (λ r, key r = k) df) <$> group_keys le key df.
Proof.
  unfold groupby, group_keys. rewrite <- list_fmap_compose.
  induction (merge_sort le _) as [|k ks IH]; simpl; [done|]. by f_equal.
Qed.

Lemma elem_of_group_keys df k : k ∈ group_keys le key df ↔ k ∈ key <$> df.
Proof.
  unfold group_keys. rewrite merge_sort_Permutation. apply elem_of_remove_dups.
Qed.

Lemma NoDup_group_keys df : NoDup (group_keys le key df).
Proof.
  unfold group_keys. rewrite merge_sort_Permutation. apply NoDup_remove_dups.
Qed.

Lemma Sorted_group_keys `{!Total le} df : Sorted le (group_keys le key df).
Proof. apply Sorted_merge_sort; apply _. Qed.

Lemma group_keys_nil df : group_keys le key df = [] ↔ df = [].
Proof.
  split.
  - intros Hk. destruct df as [|r df]; [done|].
    assert (key r ∈ group_keys le key (r :: df)) as Hin.
    { apply elem_of_group_keys. simpl. left. }
    rewrite Hk in Hin. by apply elem_of_nil in Hin.
  - intros ->. done.
Qed.

Lemma elem_of_groupby df k g :
  (k, g) ∈ groupby le key df →
  g = filter (λ r, key r = k) df ∧ k ∈ key <$> df ∧ g ≠ [].
Proof.
  unfold groupby. intros (k' & [= <- ->] & Hk)%list_elem_of_fmap.
  fold (group_keys le key df) in Hk. apply elem_of_group_keys in Hk.
  split; [done|]. split; [done|].
  apply list_elem_of_fmap in Hk as (r & -> & Hr).
  intros Hnil.
  assert (r ∈ filter (λ r', key r' = key r) df) as Hin
    by by apply list_elem_of_filter.
  rewrite Hnil in Hin. by apply elem_of_nil in Hin.
Qed.

(** The groups of a NoDup list of keys that covers the frame are a
    partition of the frame. *)
Lemma filter_keys_partition (ks : list K) (df : list A) :
  NoDup ks →
  concat ((λ k, filter (λ r, key r = k) df) <$> ks)
  ≡ₚ filter (λ r, key r ∈ ks) df.
Proof.
  induction 1 as [|k ks Hk Hnd IH]; simpl.
  - induction df as [|r df IHdf]; [done|].
    rewrite filter_cons_False; [done|]. apply not_elem_of_nil.
  - rewrite IH. clear IH. induction df as [|r df IHdf]; [done|].
    rewrite !filter_cons.
    destruct (decide (key r = k)) as [Heq|Hne];
      destruct (decide (key r ∈ ks)) as [Hin|Hnin];
      destruct (decide (key r ∈ k :: ks)) as [Hin'|Hnin']; simpl.
    + by subst.
    + by subst.
    + by f_equiv.
    + exfalso. apply Hnin'. subst. left.
    + rewrite <- Permutation_middle. by f_equiv.
    + exfalso. apply Hnin'. by right.
    + apply elem_of_cons in Hin' as [?|?]; done.
    + done.
Qed.

Lemma filter_all (P : A → Prop) `{∀ r, Decision (P r)} (df : list A) :
  (∀ r, r ∈ df → P r) → filter P df = df.
Proof.
  induction df as [|r df IH]; intros HP; [done|].
  rewrite filter_cons_True by (apply HP; left).
  f_equal. apply IH. intros r' Hr'. apply HP. by right.
Qed.

Lemma groupby_partition df : concat (groupby le key df).*2 ≡ₚ df.
Proof.
  rewrite groupby_groups, filter_keys_partition by apply NoDup_group_keys.
  rewrite filter_all; [done|].
  intros r Hr. apply elem_of_group_keys. by apply list_elem_of_fmap_2.
Qed.

End groupby.

(** * One pass of the scanner *)

Section scan_faces_1d.

Global Instance key_le_total : Total key_le.
Proof. intros [a1 a2] [b1 b2]. unfold key_le. simpl. lia. Qed.

Global Instance axis_le_total axis : Total (axis_le axis).
Proof. intros a b. unfold axis_le. lia. Qed.

Global Instance axis_le_trans axis : Transitive (axis_le axis).
Proof. intros a b c. unfold axis_le. lia. Qed.

Lemma concat_df_fold (f : list row → list row) (gs : list (Z * Z * list row)) df :
  fold_left (λ scanned g, concat_df scanned (f g.2)) gs df
  = match gs with
    | [] => df
    | _ => Table (rows_of df ++ concat (f <$> gs.*2))
    end.
Proof.
  revert df. induction gs as [|g gs IH]; intros df; [done|].
  simpl. rewrite IH. destruct gs as [|g' gs]; simpl.
  - by rewrite app_nil_r.
  - by rewrite <- !app_assoc.
Qed.

Lemma scan_faces_1d_eq rows axis fixed face :
  scan_faces_1d (Table rows) axis fixed face
  = Ok (match rows with
        | [] => EmptyDataFrame
        | _ => Table (concat (scan_group axis face <$> columns_of fixed rows))
        end).
Proof.
  unfold scan_faces_1d, columns_of. rewrite concat_df_fold. f_equal.
  destruct (groupby key_le (group_key fixed) rows) as [|g gs] eqn:Hg.
  - apply (f_equal (fmap fst)) in Hg. rewrite groupby_keys in Hg.
    apply group_keys_nil in Hg. by subst.
  - destruct rows; [done|]. done.
Qed.

Lemma scan_faces_1d_rows rows axis fixed face :
  ∃ out, scan_faces_1d (Table rows) axis fixed face = Ok out
    ∧ rows_of out = concat (scan_group axis face <$> columns_of fixed rows)
    ∧ (rows ≠ [] → out = Table (rows_of out)).
Proof.
  rewrite scan_faces_1d_eq. eexists. split; [done|].
  destruct rows; simpl; [|done]. split; [done|]. done.
Qed.

(** What one column becomes: the rows are those of the column up to order
    and up to the face column. *)
Lemma scan_group_perm axis face g :
  axis ≠ face → set face 0 <$> scan_group axis face g ≡ₚ set face 0 <$> g.
Proof.
  intros Hne. rewrite scan_group_eq by done.
  rewrite <- (merge_sort_Permutation (axis_le axis) g) at 2.
  apply reflexive_eq, list_eq. intros i.
  rewrite !list_lookup_fmap, list_lookup_imap.
  destruct (merge_sort _ _ !! i); simpl; [|done]. by rewrite set_set.
Qed.

Lemma scan_group_length axis face g :
  axis ≠ face → length (scan_group axis face g) = length g.
Proof.
  intros Hne. pose proof (scan_group_perm axis face g Hne) as Hp.
  apply Permutation_length in Hp. by rewrite !length_fmap in Hp.
Qed.

Lemma scan_group_axis axis face g :
  axis ≠ face →
  get axis <$> scan_group axis face g
  = get axis <$> merge_sort (axis_le axis) g.
Proof.
  intros Hne. rewrite scan_group_eq by done.
  apply list_eq. intros i.
  rewrite !list_lookup_fmap, list_lookup_imap.
  destruct (merge_sort _ _ !! i); simpl; [|done]. by rewrite get_set_ne.
Qed.

Lemma scan_group_sorted axis face g :
  axis ≠ face → Sorted Z.le (get axis <$> scan_group axis face g).
Proof.
  intros Hne. rewrite scan_group_axis by done.
  pose proof (Sorted_merge_sort (axis_le axis) g) as Hs.
  induction Hs as [|r l Hs IH Hhd]; simpl; constructor; [done|].
  destruct Hhd; simpl; constructor. done.
Qed.

Lemma scan_group_faces axis face g i r :
  axis ≠ face →
  scan_group axis face g !! i = Some r →
  get face r = column_faces (get axis <$> scan_group axis face g) i.
Proof.
  intros Hne Hi. rewrite scan_group_axis by done.
  rewrite scan_group_eq in Hi by done.
  rewrite list_lookup_imap in Hi.
  destruct (merge_sort _ _ !! i); simplify_eq/=. by rewrite get_set.
Qed.

Lemma column_faces_singleton v : column_faces [v] 0 = 2.
Proof. reflexivity. Qed.

End scan_faces_1d.

(** * Face counts as absent neighbours *)

Section neighbours.

Lemma StronglySorted_lt_lookup (vs : list Z) i j a b :
  StronglySorted Z.lt vs → (i < j)%nat →
  vs !! i = Some a → vs !! j = Some b → a < b.
Proof.
  intros Hs. revert i j. induction Hs as [|v vs Hs IH Hall]; intros i j Hij Hi Hj.
  - done.
  - destruct j as [|j]; [lia|]. simpl in Hj. destruct i as [|i]; simpl in Hi.
    + simplify_eq. rewrite Forall_forall in Hall. apply Hall.
      by eapply list_elem_of_lookup_2.
    + eapply (IH i j); [lia|done..].
Qed.

Lemma Sorted_le_NoDup_lt (vs : list Z) :
  Sorted Z.le vs → NoDup vs → StronglySorted Z.lt vs.
Proof.
  intros Hs%Sorted_StronglySorted Hnd; [|apply _].
  induction Hs as [|v vs Hs IH Hall]; [constructor|].
  apply NoDup_cons in Hnd as [Hv Hnd]. constructor; [by apply IH|].
  rewrite Forall_forall in *. intros w Hw.
  specialize (Hall w Hw). assert (v ≠ w) by (by intros ->). lia.
Qed.

(** In a column without repeated positions, the face count the loop leaves
    at position [i] is the number of absent neighbours of that voxel. *)
Lemma column_faces_neighbours (vs : list Z) i v :
  StronglySorted Z.lt vs → vs !! i = Some v →
  column_faces vs i = absent vs (v - 1) + absent vs (v + 1).
Proof.
  intros Hs Hi.
  assert (Hlt : (i < length vs)%nat) by by eapply lookup_lt_Some.
  assert (Hlo : (if decide (i = 0%nat) then 1 else 0)
                + (if decide (0 < i)%nat then gap (val vs (Nat.pred i)) (val vs i) else 0)
                = absent vs (v - 1)).
  { unfold absent, gap, val. rewrite Hi. simpl.
    destruct (decide (v - 1 ∈ vs)) as [Hin|Hnin].
    - apply list_elem_of_lookup in Hin as [j Hj].
      destruct (decide (j < i)%nat) as [Hji|Hji].
      + destruct (decide (i = 0%nat)); [lia|]. rewrite decide_True by lia.
        destruct (vs !! Nat.pred i) as [p|] eqn:Hp; simpl.
        2:{ apply lookup_ge_None in Hp. lia. }
        destruct (decide (j = Nat.pred i)) as [->|Hne].
        * simplify_eq. rewrite decide_False by lia. done.
        * pose proof (StronglySorted_lt_lookup vs j (Nat.pred i) _ _ Hs ltac:(lia) Hj Hp).
          pose proof (StronglySorted_lt_lookup vs (Nat.pred i) i _ _ Hs ltac:(lia) Hp Hi).
          lia.
      + destruct (decide (j = i)) as [->|Hne]; [simplify_eq; lia|].
        pose proof (StronglySorted_lt_lookup vs i j _ _ Hs ltac:(lia) Hi Hj). lia.
    - destruct (decide (i = 0%nat)) as [->|Hi0].
      + rewrite decide_False by lia. done.
      + rewrite decide_True by lia.
        destruct (vs !! Nat.pred i) as [p|] eqn:Hp; simpl.
        2:{ apply lookup_ge_None in Hp. lia. }
        pose proof (StronglySorted_lt_lookup vs (Nat.pred i) i _ _ Hs ltac:(lia) Hp Hi).
        destruct (decide (1 < v - p)); [done|].
        assert (p = v - 1) as -> by lia.
        exfalso. apply Hnin. by eapply list_elem_of_lookup_2. }
  assert (Hhi : (if decide (i = (length vs - 1)%nat) then 1 else 0)
                + (if decide (S i < length vs)%nat
                   then gap (val vs i) (val vs (S i)) else 0)
                = absent vs (v + 1)).
  { unfold absent, gap, val. rewrite Hi. simpl.
    destruct (decide (v + 1 ∈ vs)) as [Hin|Hnin].
    - apply list_elem_of_lookup in Hin as [j Hj].
      assert (j < length vs)%nat by by eapply lookup_lt_Some.
      destruct (decide (i < j)%nat) as [Hji|Hji].
      + rewrite decide_False by lia. rewrite decide_True by lia.
        destruct (vs !! S i) as [p|] eqn:Hp; simpl.
        2:{ apply lookup_ge_None in Hp. lia. }
        destruct (decide (j = S i)) as [->|Hne].
        * simplify_eq. rewrite decide_False by lia. done.
        * pose proof (StronglySorted_lt_lookup vs (S i) j _ _ Hs ltac:(lia) Hp Hj).
          pose proof (StronglySorted_lt_lookup vs i (S i) _ _ Hs ltac:(lia) Hi Hp).
          lia.
      + destruct (decide (j = i)) as [->|Hne]; [simplify_eq; lia|].
        pose proof (StronglySorted_lt_lookup vs j i _ _ Hs ltac:(lia) Hj Hi). lia.
    - destruct (decide (i = (length vs - 1)%nat)) as [->|Hi0].
      + rewrite decide_False by lia. done.
      + rewrite decide_True by lia.
        destruct (vs !! S i) as [p|] eqn:Hp; simpl.
        2:{ apply lookup_ge_None in Hp. lia. }
        pose proof (StronglySorted_lt_lookup vs i (S i) _ _ Hs ltac:(lia) Hi Hp).
        destruct (decide (1 < p - v)); [done|].
        assert (p = v + 1) as -> by lia.
        exfalso. apply Hnin. by eapply list_elem_of_lookup_2. }
  unfold column_faces. lia.
Qed.

End neighbours.

(** * One pass on a grid without repeated voxels *)

Lemma NoDup_fmap_inj_on {A B : Type} (f : A → B) (l : list A) x y :
  NoDup (f <$> l) → x ∈ l → y ∈ l → f x = f y → x = y.
Proof.
  induction l as [|a l IH]; simpl; intros Hnd Hx Hy Hf.
  - by apply elem_of_nil in Hx.
  - apply NoDup_cons in Hnd as [Ha Hnd].
    apply elem_of_cons in Hx as [->|Hx]; apply elem_of_cons in Hy as [->|Hy].
    + done.
    + exfalso. apply Ha. rewrite Hf. by apply list_elem_of_fmap_2.
    + exfalso. apply Ha. rewrite <- Hf. by apply list_elem_of_fmap_2.
    + by apply IH.
Qed.

Lemma elem_of_concat {A : Type} (ls : list (list A)) (x : A) :
  x ∈ concat ls ↔ ∃ l, x ∈ l ∧ l ∈ ls.
Proof.
  induction ls as [|l ls IH]; simpl.
  - split; [by intros ?%elem_of_nil|by intros (? & _ & ?%elem_of_nil)].
  - rewrite elem_of_app, IH. split.
    + intros [?|(l' & ? & ?)]; [exists l; split; [done|left]|].
      exists l'. split; [done|by right].
    + intros (l' & Hx & [->|?]%elem_of_cons); [by left|]. right. by exists l'.
Qed.

Section pass.
Variables (axis face : column) (fixed : column * column).
Variable mk : Z * Z → Z → Z * Z * Z.
Hypothesis Hne : axis ≠ face.
Hypothesis Hkey : ∀ v r, group_key fixed (set face v r) = group_key fixed r.
Hypothesis Hcoords : ∀ v r, coords (set face v r) = coords r.
Hypothesis Hmk : ∀ r, coords r = mk (group_key fixed r) (get axis r).
Hypothesis Hinj : ∀ k v k' v', mk k v = mk k' v' → k = k' ∧ v = v'.

Lemma pass_perm rows :
  set face 0 <$> pass axis face fixed rows ≡ₚ set face 0 <$> rows.
Proof.
  unfold pass, columns_of.
  rewrite <- (groupby_partition key_le (group_key fixed) rows) at 2.
  induction ((groupby key_le (group_key fixed) rows).*2) as [|g gs IH]; [done|].
  simpl. rewrite !fmap_app. f_equiv; [|done]. by apply scan_group_perm.
Qed.

Lemma pass_coords rows :
  coords <$> pass axis face fixed rows ≡ₚ coords <$> rows.
Proof.
  pose proof (pass_perm rows) as Hp.
  apply (fmap_Permutation coords) in Hp.
  rewrite <- !list_fmap_compose in Hp.
  etrans; [|etrans; [apply Hp|]]; apply reflexive_eq, list_fmap_ext;
    intros ???; simpl; by rewrite Hcoords.
Qed.

Lemma elem_of_pass rows r :
  r ∈ pass axis face fixed rows →
  ∃ g i, g = filter (λ r', group_key fixed r' = group_key fixed r) rows
         ∧ scan_group axis face g !! i = Some r.
Proof.
  unfold pass, columns_of. intros Hr.
  apply elem_of_concat in Hr as (c & Hr & Hc).
  apply list_elem_of_fmap in Hc as (g & -> & Hg).
  apply list_elem_of_fmap in Hg as ([k g'] & -> & Hg). simpl in *.
  apply elem_of_groupby in Hg as (Hg & _ & _).
  assert (Hk : group_key fixed r = k).
  { pose proof (scan_group_perm axis face g' Hne) as Hp.
    assert (set face 0 r ∈ set face 0 <$> scan_group axis face g') as Hin
      by by apply list_elem_of_fmap_2.
    rewrite Hp in Hin. apply list_elem_of_fmap in Hin as (r' & Heq & Hr').
    rewrite Hg in Hr'. apply list_elem_of_filter in Hr' as [Hk' _].
    rewrite <- Hk', <- (Hkey 0 r), Heq. apply Hkey. }
  apply list_elem_of_lookup in Hr as [i Hi].
  exists g', i. by rewrite Hk.
Qed.

Lemma column_values (rows : list row) k w :
  w ∈ get axis <$> filter (λ r', group_key fixed r' = k) rows
  ↔ mk k w ∈ coords <$> rows.
Proof.
  rewrite !list_elem_of_fmap. split.
  - intros (r' & -> & [Hk Hr']%list_elem_of_filter).
    exists r'. split; [|done]. by rewrite Hmk, Hk.
  - intros (r' & Heq & Hr'). rewrite Hmk in Heq.
    apply Hinj in Heq as [-> ->]. exists r'. split; [done|].
    by apply list_elem_of_filter.
Qed.

Lemma pass_faces rows r :
  NoDup (coords <$> rows) → r ∈ pass axis face fixed rows →
  get face r
  = absent (coords <$> rows) (mk (group_key fixed r) (get axis r - 1))
    + absent (coords <$> rows) (mk (group_key fixed r) (get axis r + 1)).
Proof.
  intros Hnd (g & i & Hg & Hi)%elem_of_pass.
  set (k := group_key fixed r) in *.
  set (vs := get axis <$> scan_group axis face g).
  assert (Hperm : vs ≡ₚ get axis <$> g).
  { unfold vs. rewrite scan_group_axis by done.
    by rewrite merge_sort_Permutation. }
  assert (Hndg : NoDup (get axis <$> g)).
  { apply NoDup_fmap_2_strong.
    - intros x y Hx Hy Hxy. rewrite Hg in Hx, Hy.
      apply list_elem_of_filter in Hx as [Hkx Hx].
      apply list_elem_of_filter in Hy as [Hky Hy].
      apply (NoDup_fmap_inj_on coords rows); [done..|].
      by rewrite !Hmk, Hkx, Hky, Hxy.
    - rewrite Hg. apply NoDup_filter. by eapply NoDup_fmap_1. }
  assert (Hs : StronglySorted Z.lt vs).
  { apply Sorted_le_NoDup_lt; [by apply scan_group_sorted|by rewrite Hperm]. }
  assert (Hv : vs !! i = Some (get axis r)).
  { unfold vs. by rewrite list_lookup_fmap, Hi. }
  rewrite (scan_group_faces axis face g i r Hne Hi). fold vs.
  rewrite (column_faces_neighbours vs i _ Hs Hv).
  unfold absent. f_equal.
  - destruct (decide (get axis r - 1 ∈ vs)) as [Hin|Hnin];
      destruct (decide (mk k (get axis r - 1) ∈ coords <$> rows)) as [Hin'|Hnin'];
      try done; exfalso.
    + apply Hnin', column_values. rewrite <- Hg, <- Hperm. done.
    + apply Hnin. rewrite Hperm, Hg. by apply column_values.
  - destruct (decide (get axis r + 1 ∈ vs)) as [Hin|Hnin];
      destruct (decide (mk k (get axis r + 1) ∈ coords <$> rows)) as [Hin'|Hnin'];
      try done; exfalso.
    + apply Hnin', column_values. rewrite <- Hg, <- Hperm. done.
    + apply Hnin. rewrite Hperm, Hg. by apply column_values.
Qed.

End pass.

(** * The three passes *)

Section scan_faces_all.

Lemma absent_perm {A : Type} `{EqDecision A} (l l' : list A) c :
  l ≡ₚ l' → absent l c = absent l' c.
Proof.
  intros Hp. unfold absent.
  destruct (decide (c ∈ l)) as [Hin|Hnin]; rewrite Hp in *.
  - by rewrite decide_True.
  - by rewrite decide_False.
Qed.

Lemma pass_nonempty axis face fixed rows :
  axis ≠ face → rows ≠ [] → pass axis face fixed rows ≠ [].
Proof.
  intros Hne Hrows Hnil. pose proof (pass_perm axis face fixed Hne rows) as Hp.
  rewrite Hnil in Hp. apply Permutation_length in Hp.
  rewrite !length_fmap in Hp. destruct rows; simpl in *; done.
Qed.

Lemma scan_faces_table rows axis face fixed :
  rows ≠ [] →
  scan_faces_1d (Table rows) axis fixed face = Ok (Table (pass axis face fixed rows)).
Proof. intros Hne. rewrite scan_faces_1d_eq. by destruct rows. Qed.

Lemma scan_faces_all_eq rows :
  rows ≠ [] →
  scan_faces_all (Table rows) = Ok (Table (pass_z (pass_y (pass_x rows)))).
Proof.
  intros Hne. unfold scan_faces_all, scan_faces, mbind, result_bind.
  rewrite scan_faces_table by done.
  rewrite scan_faces_table by (by apply pass_nonempty).
  rewrite scan_faces_table by (by repeat apply pass_nonempty). done.
Qed.

Lemma scan_faces_all_nil : scan_faces_all (Table []) = Raise KeyError.
Proof. reflexivity. Qed.

Lemma pass_x_coords rows : coords <$> pass_x rows ≡ₚ coords <$> rows.
Proof. apply pass_coords; [done|by intros ? []]. Qed.
Lemma pass_y_coords rows : coords <$> pass_y rows ≡ₚ coords <$> rows.
Proof. apply pass_coords; [done|by intros ? []]. Qed.
Lemma pass_z_coords rows : coords <$> pass_z rows ≡ₚ coords <$> rows.
Proof. apply pass_coords; [done|by intros ? []]. Qed.

Lemma pass_x_faces rows r :
  NoDup (coords <$> rows) → r ∈ pass_x rows →
  get x_faces r
  = absent (coords <$> rows) (r_x_vox r - 1, r_y_vox r, r_z_vox r)
    + absent (coords <$> rows) (r_x_vox r + 1, r_y_vox r, r_z_vox r).
Proof.
  intros Hnd Hr.
  apply (pass_faces x_vox x_faces (y_vox, z_vox) (λ k v, (v, k.1, k.2)));
    try done.
  intros [] ? [] ?; simpl. by intros [= -> -> ->].
Qed.

Lemma pass_y_faces rows r :
  NoDup (coords <$> rows) → r ∈ pass_y rows →
  get y_faces r
  = absent (coords <$> rows) (r_x_vox r, r_y_vox r - 1, r_z_vox r)
    + absent (coords <$> rows) (r_x_vox r, r_y_vox r + 1, r_z_vox r).
Proof.
  intros Hnd Hr.
  apply (pass_faces y_vox y_faces (x_vox, z_vox) (λ k v, (k.1, v, k.2)));
    try done.
  intros [] ? [] ?; simpl. by intros [= -> -> ->].
Qed.

Lemma pass_z_faces rows r :
  NoDup (coords <$> rows) → r ∈ pass_z rows →
  get z_faces r
  = absent (coords <$> rows) (r_x_vox r, r_y_vox r, r_z_vox r - 1)
    + absent (coords <$> rows) (r_x_vox r, r_y_vox r, r_z_vox r + 1).
Proof.
  intros Hnd Hr.
  apply (pass_faces z_vox z_faces (x_vox, y_vox) (λ k v, (k.1, k.2, v)));
    try done.
  intros [] ? [] ?; simpl. by intros [= -> -> ->].
Qed.

(** A row of the output of a pass comes from a row of its input that
    differs at most in the face column of the pass. *)
Lemma pass_origin axis face fixed rows r :
  axis ≠ face → r ∈ pass axis face fixed rows →
  ∃ r', r' ∈ rows ∧ set face 0 r = set face 0 r'.
Proof.
  intros Hne Hr. pose proof (pass_perm axis face fixed Hne rows) as Hp.
  assert (set face 0 r ∈ set face 0 <$> pass axis face fixed rows) as Hin
    by by apply list_elem_of_fmap_2.
  rewrite Hp in Hin. apply list_elem_of_fmap in Hin as (r' & Heq & Hr').
  by exists r'.
Qed.

(** On a grid without repeated voxels the three passes leave, for every
    voxel, its row with the number of absent neighbours on each axis. *)
Lemma scan_faces_all_exposure rows r :
  NoDup (coords <$> rows) →
  r ∈ pass_z (pass_y (pass_x rows)) →
  r = exposure (coords <$> rows) (coords r).
Proof.
  intros Hnd Hr.
  assert (Hnd1 : NoDup (coords <$> pass_x rows)) by by rewrite pass_x_coords.
  assert (Hnd2 : NoDup (coords <$> pass_y (pass_x rows)))
    by by rewrite pass_y_coords.
  pose proof (pass_z_faces _ _ Hnd2 Hr) as Hz.
  apply pass_origin in Hr as (r2 & Hr2 & E2); [|done].
  pose proof (pass_y_faces _ _ Hnd1 Hr2) as Hy.
  apply pass_origin in Hr2 as (r1 & Hr1 & E1); [|done].
  pose proof (pass_x_faces _ _ Hnd Hr1) as Hx.
  rewrite (absent_perm _ _ _ (pass_y_coords _)),
    (absent_perm _ _ _ (pass_x_coords _)),
    (absent_perm (coords <$> pass_y _) _ _ (pass_y_coords _)),
    (absent_perm (coords <$> pass_x _) _ _ (pass_x_coords _)) in Hz.
  rewrite (absent_perm _ _ _ (pass_x_coords _)),
    (absent_perm (coords <$> pass_x _) _ _ (pass_x_coords _)) in Hy.
  destruct r, r2, r1. simpl in *. simplify_eq/=. done.
Qed.

End scan_faces_all.

(** * Column sums and runs *)

Section runs.

Lemma sum_Z_perm (l l' : list Z) : l ≡ₚ l' → sum_Z l = sum_Z l'.
Proof.
  unfold sum_Z. induction 1 as [|x l l' _ IH|x y l|l l' l'' _ IH1 _ IH2]; simpl.
  - done.
  - by rewrite IH.
  - lia.
  - by rewrite IH1.
Qed.

Lemma sum_Z_add {A : Type} (f g : A → Z) (l : list A) :
  sum_Z ((λ x, f x + g x) <$> l) = sum_Z (f <$> l) + sum_Z (g <$> l).
Proof. unfold sum_Z. induction l; csimpl; lia. Qed.

Lemma sum_absent_filter (xs l : list Z) (f : Z → Z) :
  sum_Z ((λ x, absent xs (f x)) <$> l)
  = Z.of_nat (length (filter (λ x, f x ∉ xs) l)).
Proof.
  unfold sum_Z, absent. induction l as [|x l IH]; [done|].
  rewrite filter_cons. csimpl. rewrite IH.
  destruct (decide (f x ∈ xs)); destruct (decide (f x ∉ xs)); try done;
    simpl; lia.
Qed.

Lemma length_filter_complement {A : Type} (P : A → Prop) `{∀ x, Decision (P x)}
    (l : list A) :
  (length (filter P l) + length (filter (λ x, ¬ P x) l))%nat = length l.
Proof.
  rewrite <- length_app. apply Permutation_length, filter_app_complement.
Qed.

(** A column has as many last positions of runs as first positions. *)
Lemma run_ends_starts (xs : list Z) :
  NoDup xs →
  length (filter (λ x, x + 1 ∉ xs) xs) = length (filter (λ x, x - 1 ∉ xs) xs).
Proof.
  intros Hnd.
  assert (Hp : Z.succ <$> filter (λ x, x + 1 ∈ xs) xs
               ≡ₚ filter (λ x, x - 1 ∈ xs) xs).
  { apply NoDup_Permutation.
    - apply NoDup_fmap_2; [intros a b; lia|]. by apply NoDup_filter.
    - by apply NoDup_filter.
    - intros w. rewrite list_elem_of_fmap, list_elem_of_filter. split.
      + intros (x & -> & [Hx1 Hx]%list_elem_of_filter).
        replace (Z.succ x - 1) with x by lia.
        replace (Z.succ x) with (x + 1) by lia. done.
      + intros [Hw1 Hw]. exists (w - 1). split; [lia|].
        apply list_elem_of_filter.
        replace (w - 1 + 1) with w by lia. done. }
  apply Permutation_length in Hp. rewrite length_fmap in Hp.
  pose proof (length_filter_complement (λ x, x + 1 ∈ xs) xs).
  pose proof (length_filter_complement (λ x, x - 1 ∈ xs) xs).
  simpl in *. lia.
Qed.

Lemma sum_absent_runs (xs : list Z) :
  NoDup xs →
  sum_Z ((λ x, absent xs (x - 1) + absent xs (x + 1)) <$> xs) = 2 * runs xs.
Proof.
  intros Hnd. rewrite sum_Z_add.
  rewrite (sum_absent_filter xs xs (λ x, x - 1)).
  rewrite (sum_absent_filter xs xs (λ x, x + 1)).
  rewrite run_ends_starts by done. unfold runs. lia.
Qed.

End runs.

Section column_sum.
Variables (axis face : column) (fixed : column * column).
Variable mk : Z * Z → Z → Z * Z * Z.
Hypothesis Hmk : ∀ r, coords r = mk (group_key fixed r) (get axis r).
Hypothesis Hinj : ∀ k v k' v', mk k v = mk k' v' → k = k' ∧ v = v'.

Lemma column_NoDup (rows : list row) k :
  NoDup (coords <$> rows) →
  NoDup (get axis <$> filter (λ r, group_key fixed r = k) rows).
Proof.
  intros Hnd. apply NoDup_fmap_2_strong.
  - intros x y [Hkx Hx]%list_elem_of_filter [Hky Hy]%list_elem_of_filter Hxy.
    apply (NoDup_fmap_inj_on coords rows); [done..|].
    by rewrite !Hmk, Hkx, Hky, Hxy.
  - apply NoDup_filter. by eapply NoDup_fmap_1.
Qed.

Lemma column_sum (rows o : list row) k :
  NoDup (coords <$> rows) →
  coords <$> o ≡ₚ coords <$> rows →
  (∀ r, r ∈ o →
     get face r
     = absent (coords <$> rows) (mk (group_key fixed r) (get axis r - 1))
       + absent (coords <$> rows) (mk (group_key fixed r) (get axis r + 1))) →
  sum_Z (get face <$> filter (λ r, group_key fixed r = k) o)
  = 2 * runs (get axis <$> filter (λ r, group_key fixed r = k) rows).
Proof.
  intros Hnd Hperm Hfaces.
  set (xs := get axis <$> filter (λ r, group_key fixed r = k) rows).
  set (xs_o := get axis <$> filter (λ r, group_key fixed r = k) o).
  assert (Hndo : NoDup (coords <$> o)) by by rewrite Hperm.
  assert (Hxs : xs_o ≡ₚ xs).
  { apply NoDup_Permutation; [by apply column_NoDup..|].
    intros w. unfold xs_o, xs.
    rewrite !(column_values axis fixed mk Hmk Hinj). by rewrite Hperm. }
  rewrite <- (sum_absent_runs xs) by by apply column_NoDup.
  rewrite <- (sum_Z_perm _ _
    (fmap_Permutation (λ x, absent xs (x - 1) + absent xs (x + 1)) _ _ Hxs)).
  unfold xs_o. rewrite <- list_fmap_compose. f_equal.
  apply list_fmap_ext. intros i r Hr. simpl.
  apply list_elem_of_lookup_2, list_elem_of_filter in Hr as [Hk Hr].
  rewrite (Hfaces r Hr), Hk. unfold absent. f_equal.
  - destruct (decide (mk k (get axis r - 1) ∈ coords <$> rows)) as [Hin|Hnin];
      destruct (decide (get axis r - 1 ∈ xs)) as [Hin'|Hnin'];
      try done; exfalso.
    + by apply Hnin', (column_values axis fixed mk Hmk Hinj).
    + by apply Hnin, (column_values axis fixed mk Hmk Hinj).
  - destruct (decide (mk k (get axis r + 1) ∈ coords <$> rows)) as [Hin|Hnin];
      destruct (decide (get axis r + 1 ∈ xs)) as [Hin'|Hnin'];
      try done; exfalso.
    + by apply Hnin', (column_values axis fixed mk Hmk Hinj).
    + by apply Hnin, (column_values axis fixed mk Hmk Hinj).
Qed.

End column_sum.

(** * The VoxelGrid Builder *)

Section floordiv.
Local Open Scope Q_scope.

Lemma Qfloor_bounds (a b : Q) :
  0 < b →
  inject_Z (Qfloor (a / b)) * b <= a ∧ a < inject_Z (Qfloor (a / b) + 1) * b.
Proof.
  intros Hb.
  assert (Hb0 : ¬ b == 0).
  { intros E. rewrite E in Hb. by apply Qlt_irrefl in Hb. }
  assert (Hab : a == a / b * b) by (by field).
  split.
  - rewrite Hab at 2. apply Qmult_le_compat_r; [apply Qfloor_le|by apply Qlt_le_weak].
  - rewrite Hab at 1. apply Qmult_lt_compat_r; [done|apply Qlt_floor].
Qed.

Lemma floordiv_finite (a b : Q) :
  ¬ b == 0 → locsutil.floordiv a b = locsutil.Fin (Qfloor (a / b)).
Proof.
  intros Hb. unfold locsutil.floordiv.
  destruct (Qeq_bool b 0) eqn:E; [|done].
  by apply Qeq_bool_iff in E.
Qed.

Lemma floordiv_zero (a : Q) :
  ∀ n, locsutil.floordiv a 0 ≠ locsutil.Fin n.
Proof. intros n. unfold locsutil.floordiv. simpl. by destruct (a ?= 0). Qed.

End floordiv.

Lemma vox_key_voxelize_row bin_xy bin_z l :
  ¬ (bin_xy == 0)%Q → ¬ (bin_z == 0)%Q →
  locsutil.vox_key (locsutil.voxelize_row bin_xy bin_z l)
  = (locsutil.Fin (voxel_of bin_xy bin_z l).1.1,
     locsutil.Fin (voxel_of bin_xy bin_z l).1.2,
     locsutil.Fin (voxel_of bin_xy bin_z l).2).
Proof.
  intros Hxy Hz. unfold locsutil.vox_key, locsutil.voxelize_row, voxel_of. simpl.
  by rewrite !floordiv_finite.
Qed.

Section not_duplicated.
Context {A K : Type} `{EqDecision K} (key : A → K).

Lemma not_duplicated_keys seen df k :
  k ∈ key <$> not_duplicated key seen df ↔ k ∈ key <$> df ∧ k ∉ seen.
Proof.
  revert seen. induction df as [|r df IH]; intros seen; cbn [not_duplicated].
  - rewrite fmap_nil. split; [by intros ?%elem_of_nil|by intros [?%elem_of_nil _]].
  - destruct (decide (key r ∈ seen)) as [Hin|Hnin].
    + rewrite IH, fmap_cons, elem_of_cons. split; [intros [? ?]; auto|].
      intros [[->|?] ?]; done.
    + rewrite !fmap_cons, !elem_of_cons, IH, elem_of_cons. split.
      * intros [->|[? ?]]; [by auto|]. split; [by right|]. tauto.
      * intros [[->|?] ?]; [by left|].
        destruct (decide (k = key r)) as [->|?]; [by left|]. right. tauto.
Qed.

Lemma not_duplicated_NoDup seen df :
  NoDup (key <$> not_duplicated key seen df).
Proof.
  revert seen. induction df as [|r df IH]; intros seen; cbn [not_duplicated].
  - constructor.
  - destruct (decide (key r ∈ seen)); [apply IH|].
    rewrite fmap_cons. apply NoDup_cons. split; [|apply IH].
    rewrite not_duplicated_keys. intros [_ Hn]. apply Hn. left.
Qed.

Lemma not_duplicated_sublist seen df r :
  r ∈ not_duplicated key seen df → r ∈ df.
Proof.
  revert seen. induction df as [|r' df IH]; intros seen; cbn [not_duplicated]; [done|].
  destruct (decide (key r' ∈ seen)).
  - intros ?%IH. by right.
  - intros [->|?%IH]%elem_of_cons; [left|by right].
Qed.

Lemma not_duplicated_nonempty df :
  df ≠ [] → not_duplicated key [] df ≠ [].
Proof.
  destruct df as [|r df]; [done|]. intros _. cbn [not_duplicated].
  rewrite decide_False by apply not_elem_of_nil. done.
Qed.

(** A frame without repeated keys is left as it is. *)
Lemma not_duplicated_id seen df :
  NoDup (key <$> df) → (∀ k, k ∈ key <$> df → k ∉ seen) →
  not_duplicated key seen df = df.
Proof.
  revert seen. induction df as [|r df IH]; intros seen Hnd Hseen;
    cbn [not_duplicated]; [done|].
  rewrite fmap_cons in Hnd. apply NoDup_cons in Hnd as [Hr Hnd].
  rewrite decide_False by (apply Hseen; rewrite fmap_cons; left).
  f_equal. apply IH; [done|]. intros k Hk [->|?]%elem_of_cons; [done|].
  eapply Hseen; [|done]. rewrite fmap_cons. by right.
Qed.

End not_duplicated.

Lemma astype_int_voxelized bin_xy bin_z (d : list locsutil.voxelized) :
  ¬ (bin_xy == 0)%Q → ¬ (bin_z == 0)%Q →
  (∀ v, v ∈ d → v = locsutil.voxelize_row bin_xy bin_z (locsutil.src v)) →
  astype_int d = Ok ((λ v, int_row (voxel_of bin_xy bin_z (locsutil.src v))) <$> d).
Proof.
  intros Hxy Hz. induction d as [|v d IH]; intros Hd; [done|].
  cbn [astype_int]. rewrite IH by (intros; apply Hd; by right).
  assert (Hv : v = locsutil.voxelize_row bin_xy bin_z (locsutil.src v))
    by (apply Hd; left).
  destruct v as [l a b c]. unfold locsutil.voxelize_row in Hv. simpl in Hv.
  injection Hv as Ha Hb Hc. rewrite floordiv_finite in Ha, Hb, Hc by done.
  unfold astype_int_row. cbn [locsutil.x_vox locsutil.y_vox locsutil.z_vox].
  rewrite Ha, Hb, Hc. done.
Qed.

Lemma astype_int_nonfinite (d : list locsutil.voxelized) v :
  v ∈ d →
  (∀ n, locsutil.x_vox v ≠ locsutil.Fin n) →
  astype_int d = Raise IntCastingNaNError.
Proof.
  intros Hv Hx. induction d as [|v' d IH]; [by apply elem_of_nil in Hv|].
  cbn [astype_int]. apply elem_of_cons in Hv as [<-|Hv].
  - unfold astype_int_row. destruct (locsutil.x_vox v) eqn:E; try reflexivity.
    by destruct (Hx n).
  - rewrite (IH Hv). unfold astype_int_row.
    destruct (locsutil.x_vox v'), (locsutil.y_vox v'), (locsutil.z_vox v');
      reflexivity.
Qed.

Section auto_origin.

Lemma min_Z_le m l : min_Z m l ≤ m ∧ ∀ v, v ∈ l → min_Z m l ≤ v.
Proof.
  unfold min_Z. induction l as [|a l [IH1 IH2]]; simpl.
  - split; [lia|]. by intros v ?%elem_of_nil.
  - split; [lia|]. intros v [->|Hv]%elem_of_cons; [lia|].
    specialize (IH2 v Hv). lia.
Qed.

Lemma min_Z_elem m l : min_Z m l ∈ m :: l.
Proof.
  unfold min_Z. induction l as [|a l IH]; simpl; [left|].
  destruct (Z.min_spec a (foldr Z.min m l)) as [[_ ->]|[_ ->]].
  - right. left.
  - apply elem_of_cons in IH as [->|IH]; [left|]. right. by right.
Qed.

Lemma col_min_le c df r : r ∈ df → col_min c df ≤ get c r.
Proof.
  destruct df as [|r0 df]; [by intros ?%elem_of_nil|]. intros Hr.
  unfold col_min. apply min_Z_le. by apply list_elem_of_fmap_2.
Qed.

Lemma col_min_elem c df : df ≠ [] → ∃ r, r ∈ df ∧ get c r = col_min c df.
Proof.
  destruct df as [|r0 df]; [done|]. intros _. unfold col_min.
  pose proof (min_Z_elem (get c r0) (get c <$> r0 :: df)) as Hm.
  apply elem_of_cons in Hm as [Hm|Hm].
  - exists r0. split; [left|done].
  - apply list_elem_of_fmap in Hm as (r & Hr & Hin). by exists r.
Qed.

Lemma shift_column_eq c df :
  shift_column c df = (λ r, set c (get c r - col_min c df + 1) r) <$> df.
Proof. by destruct df. Qed.

Lemma col_min_ext c df df' :
  get c <$> df = get c <$> df' → col_min c df = col_min c df'.
Proof.
  destruct df as [|r df], df' as [|r' df']; try done.
  unfold col_min. rewrite !fmap_cons. by intros [= -> ->].
Qed.

Lemma auto_origin_df_eq df :
  auto_origin_df df
  = (λ r, Row (r_x_vox r - col_min x_vox df + 1) (r_y_vox r - col_min y_vox df + 1)
              (r_z_vox r - col_min z_vox df + 1)
              (r_x_faces r) (r_y_faces r) (r_z_faces r)) <$> df.
Proof.
  unfold auto_origin_df. rewrite !shift_column_eq.
  rewrite <- !list_fmap_compose.
  rewrite (col_min_ext z_vox _ df), (col_min_ext y_vox _ df).
  - apply list_fmap_ext. intros i r _. by destruct r.
  - rewrite <- list_fmap_compose. apply list_fmap_ext. intros i r _. by destruct r.
  - rewrite <- !list_fmap_compose. apply list_fmap_ext. intros i r _. by destruct r.
Qed.

Lemma auto_origin_df_coords df :
  coords <$> auto_origin_df df
  = to_origin (col_min x_vox df, col_min y_vox df, col_min z_vox df)
      <$> (coords <$> df).
Proof.
  rewrite auto_origin_df_eq, <- !list_fmap_compose.
  apply list_fmap_ext. intros i r _. by destruct r.
Qed.

Lemma to_origin_inj m c c' : to_origin m c = to_origin m c' → c = c'.
Proof.
  destruct m as [[??]?], c as [[??]?], c' as [[??]?]. unfold to_origin. simpl.
  intros [= ? ? ?]. repeat f_equal; lia.
Qed.

Lemma auto_origin_df_ge_1 df r :
  r ∈ auto_origin_df df → 1 ≤ r_x_vox r ∧ 1 ≤ r_y_vox r ∧ 1 ≤ r_z_vox r.
Proof.
  rewrite auto_origin_df_eq. intros (r' & -> & Hr')%list_elem_of_fmap. simpl.
  pose proof (col_min_le x_vox df r' Hr').
  pose proof (col_min_le y_vox df r' Hr').
  pose proof (col_min_le z_vox df r' Hr'). simpl in *. lia.
Qed.

End auto_origin.

Section voxel_grid.
Variables (bin_xy bin_z : Q).
Hypothesis Hxy : ¬ (bin_xy == 0)%Q.
Hypothesis Hz : ¬ (bin_z == 0)%Q.

Let vo (v : locsutil.voxelized) : Z * Z * Z := voxel_of bin_xy bin_z (locsutil.src v).
Let dedup (locs : list locsutil.loc) : list locsutil.voxelized :=
  not_duplicated locsutil.vox_key [] (locsutil.voxelize locs bin_xy bin_z).

Lemma fin3_inj c c' : fin3 c = fin3 c' → c = c'.
Proof.
  destruct c as [[??]?], c' as [[??]?]. unfold fin3. simpl. by intros [= -> -> ->].
Qed.

Lemma dedup_voxelized locs v :
  v ∈ dedup locs →
  v = locsutil.voxelize_row bin_xy bin_z (locsutil.src v) ∧ locsutil.src v ∈ locs.
Proof.
  intros Hv%not_duplicated_sublist. unfold locsutil.voxelize in Hv.
  apply list_elem_of_fmap in Hv as (l & -> & Hl). done.
Qed.

Lemma dedup_vox_key locs v : v ∈ dedup locs → locsutil.vox_key v = fin3 (vo v).
Proof.
  intros [Hv _]%dedup_voxelized. rewrite Hv at 1.
  rewrite vox_key_voxelize_row by done. done.
Qed.

Lemma dedup_voxels locs c :
  c ∈ vo <$> dedup locs ↔ c ∈ voxel_of bin_xy bin_z <$> locs.
Proof.
  split.
  - intros (v & -> & Hv)%list_elem_of_fmap.
    apply dedup_voxelized in Hv as [_ Hv]. unfold vo.
    by apply (list_elem_of_fmap_2 (voxel_of bin_xy bin_z)).
  - intros (l & -> & Hl)%list_elem_of_fmap.
    assert (Hk : fin3 (voxel_of bin_xy bin_z l) ∈ locsutil.vox_key <$> dedup locs).
    { apply not_duplicated_keys. split; [|apply not_elem_of_nil].
      unfold locsutil.voxelize. rewrite <- list_fmap_compose.
      apply list_elem_of_fmap. exists l. split; [|done]. simpl.
      by rewrite vox_key_voxelize_row. }
    apply list_elem_of_fmap in Hk as (v & Hk & Hv).
    rewrite (dedup_vox_key locs v Hv) in Hk. apply fin3_inj in Hk.
    rewrite Hk. by apply list_elem_of_fmap_2.
Qed.

Lemma dedup_voxels_NoDup locs : NoDup (vo <$> dedup locs).
Proof.
  apply (NoDup_fmap_1 fin3). rewrite <- list_fmap_compose.
  assert (E : (fin3 ∘ vo) <$> dedup locs = locsutil.vox_key <$> dedup locs).
  { apply list_fmap_ext. intros i v Hv. simpl. symmetry. apply (dedup_vox_key locs).
    by eapply list_elem_of_lookup_2. }
  rewrite E. apply not_duplicated_NoDup.
Qed.

Lemma coords_int_row (l : list (Z * Z * Z)) : coords <$> (int_row <$> l) = l.
Proof.
  induction l as [|[[??]?] l IH]; [done|]. rewrite !fmap_cons, IH. done.
Qed.

Lemma voxel_grid_coords locs :
  coords <$> voxel_grid locs bin_xy bin_z
  = to_origin (corner (int_row <$> (vo <$> dedup locs))) <$> (vo <$> dedup locs).
Proof.
  unfold voxel_grid. fold (dedup locs).
  assert (EX : (λ v, int_row (voxel_of bin_xy bin_z (locsutil.src v))) <$> dedup locs
               = int_row <$> (vo <$> dedup locs))
    by (by rewrite <- list_fmap_compose).
  rewrite EX, auto_origin_df_coords, coords_int_row. done.
Qed.

Lemma voxel_grid_NoDup locs : NoDup (coords <$> voxel_grid locs bin_xy bin_z).
Proof.
  rewrite voxel_grid_coords. apply NoDup_fmap_2_strong; [|apply dedup_voxels_NoDup].
  intros c c' _ _. apply to_origin_inj.
Qed.

Lemma voxel_grid_nonempty locs : locs ≠ [] → voxel_grid locs bin_xy bin_z ≠ [].
Proof.
  intros Hne Hnil. apply (f_equal length) in Hnil.
  unfold voxel_grid in Hnil. rewrite auto_origin_df_eq, !length_fmap in Hnil.
  apply nil_length_inv in Hnil. revert Hnil. apply not_duplicated_nonempty.
  unfold locsutil.voxelize. by destruct locs.
Qed.

Lemma corner_min locs :
  locs ≠ [] →
  let m := corner (int_row <$> (vo <$> dedup locs)) in
  (∀ l, l ∈ locs →
     m.1.1 ≤ (voxel_of bin_xy bin_z l).1.1 ∧ m.1.2 ≤ (voxel_of bin_xy bin_z l).1.2
     ∧ m.2 ≤ (voxel_of bin_xy bin_z l).2)
  ∧ (∃ l, l ∈ locs ∧ (voxel_of bin_xy bin_z l).1.1 = m.1.1)
  ∧ (∃ l, l ∈ locs ∧ (voxel_of bin_xy bin_z l).1.2 = m.1.2)
  ∧ (∃ l, l ∈ locs ∧ (voxel_of bin_xy bin_z l).2 = m.2).
Proof.
  intros Hne. set (df := int_row <$> (vo <$> dedup locs)). simpl.
  assert (Hdf : ∀ r, r ∈ df ↔ ∃ l, l ∈ locs ∧ r = int_row (voxel_of bin_xy bin_z l)).
  { intros r. unfold df. rewrite list_elem_of_fmap. split.
    - intros (c & -> & Hc). apply dedup_voxels in Hc.
      apply list_elem_of_fmap in Hc as (l & -> & Hl). by exists l.
    - intros (l & Hl & ->). exists (voxel_of bin_xy bin_z l). split; [done|].
      apply dedup_voxels. by apply list_elem_of_fmap_2. }
  assert (Hdfne : df ≠ []).
  { destruct locs as [|l locs']; [done|].
    assert (int_row (voxel_of bin_xy bin_z l) ∈ df) as Hin
      by (apply Hdf; exists l; split; [left|done]).
    intros E. rewrite E in Hin. by apply elem_of_nil in Hin. }
  split; [|split; [|split]].
  - intros l Hl.
    assert (Hr : int_row (voxel_of bin_xy bin_z l) ∈ df) by (apply Hdf; by exists l).
    pose proof (col_min_le x_vox df _ Hr). pose proof (col_min_le y_vox df _ Hr).
    pose proof (col_min_le z_vox df _ Hr). done.
  - destruct (col_min_elem x_vox df Hdfne) as (r & Hr & <-).
    apply Hdf in Hr as (l & Hl & ->). by exists l.
  - destruct (col_min_elem y_vox df Hdfne) as (r & Hr & <-).
    apply Hdf in Hr as (l & Hl & ->). by exists l.
  - destruct (col_min_elem z_vox df Hdfne) as (r & Hr & <-).
    apply Hdf in Hr as (l & Hl & ->). by exists l.
Qed.

Lemma count_exposed_faces_voxelize locs :
  locs ≠ [] →
  let out := pass_z (pass_y (pass_x (voxel_grid locs bin_xy bin_z))) in
  count_exposed_faces (locsutil.voxelize locs bin_xy bin_z)
  = Ok (out, Z.of_nat (length out), Z.of_nat (length (surface_rows out)),
        sum_Z (xy_faces <$> out), sum_Z (get z_faces <$> out)).
Proof.
  intros Hne out. unfold count_exposed_faces.
  rewrite (astype_int_voxelized bin_xy bin_z) by
    (try done; intros v Hv; by apply (dedup_voxelized locs)).
  unfold mbind, result_bind. fold (voxel_grid locs bin_xy bin_z).
  rewrite scan_faces_all_eq by by apply voxel_grid_nonempty. done.
Qed.

End voxel_grid.

(** * The multi-scale sweep *)

Section py_range.

Lemma py_range_zero start stop : py_range start stop 0 = Raise ValueError.
Proof. reflexivity. Qed.

Lemma py_range_pos start stop step :
  0 < step →
  py_range start stop step
  = Ok ((λ i : nat, start + Z.of_nat i * step)
          <$> seq 0 (Z.to_nat (if decide (start < stop)
                               then (stop - start - 1) / step + 1 else 0))).
Proof.
  intros Hs. unfold py_range.
  rewrite decide_False by lia. by rewrite (decide_True (P := 0 < step)).
Qed.

Lemma py_range_empty start stop step :
  0 < step → stop ≤ start → py_range start stop step = Ok [].
Proof.
  intros Hs Hle. rewrite py_range_pos by done. by rewrite decide_False by lia.
Qed.

Lemma py_range_elem start stop step bins b :
  0 < step → py_range start stop step = Ok bins →
  b ∈ bins ↔ start ≤ b < stop ∧ (b - start) mod step = 0.
Proof.
  intros Hs. rewrite py_range_pos by done. intros [= <-].
  rewrite list_elem_of_fmap. setoid_rewrite elem_of_seq.
  destruct (decide (start < stop)) as [Hlt|Hge].
  - pose proof (Z.div_mod (stop - start - 1) step ltac:(lia)) as Hdm.
    pose proof (Z.mod_pos_bound (stop - start - 1) step Hs) as Hmb.
    assert (0 ≤ (stop - start - 1) / step) by (apply Z.div_pos; lia).
    split.
    + intros (i & -> & Hi). split; [nia|].
      replace (start + Z.of_nat i * step - start) with (Z.of_nat i * step) by lia.
      apply Z.mod_mul. lia.
    + intros [Hb Hmod].
      apply Z.mod_divide in Hmod as [q Hq]; [|lia].
      assert (0 ≤ q) by nia.
      exists (Z.to_nat q). split; [rewrite Z2Nat.id by done; lia|].
      assert (q ≤ (stop - start - 1) / step).
      { apply Z.div_le_lower_bound; [done|]. nia. }
      lia.
  - split; [intros (i & _ & Hi); simpl in Hi; lia|]. lia.
Qed.

Lemma py_range_sorted start stop step bins :
  0 < step → py_range start stop step = Ok bins → StronglySorted Z.lt bins.
Proof.
  intros Hs. rewrite py_range_pos by done. intros [= <-].
  generalize (Z.to_nat (if decide (start < stop)
                        then (stop - start - 1) / step + 1 else 0)).
  intros n. generalize 0%nat.
  induction n as [|n IH]; intros k; simpl; constructor; [apply IH|].
  apply Forall_forall. intros b (i & -> & Hi)%list_elem_of_fmap.
  apply elem_of_seq in Hi. nia.
Qed.

Lemma py_range_positive start stop step bins b :
  0 < step → 0 < start → py_range start stop step = Ok bins → b ∈ bins → 0 < b.
Proof.
  intros Hs Hst Hr Hb. apply (py_range_elem _ _ _ _ b Hs Hr) in Hb. lia.
Qed.

End py_range.

Section voxel_scan.
Variable locs : list locsutil.loc.
Hypothesis Hlocs : locs ≠ [].

Lemma inject_Z_nonzero (bin : Z) : bin ≠ 0 → ¬ (inject_Z bin == 0)%Q.
Proof.
  intros Hb E. apply Hb. unfold Qeq in E. simpl in E. lia.
Qed.

Lemma count_exposed_faces_bin bin :
  bin ≠ 0 →
  count_exposed_faces (locsutil.voxelize locs (inject_Z bin) (inject_Z bin))
  = Ok (scanned locs bin, sample_total_vox locs bin, sample_surf_vox locs bin,
        sum_Z (xy_faces <$> scanned locs bin), sum_Z (get z_faces <$> scanned locs bin)).
Proof.
  intros Hb. pose proof (inject_Z_nonzero bin Hb) as Hq.
  by rewrite (count_exposed_faces_voxelize _ _ Hq Hq locs Hlocs).
Qed.

Lemma scanned_nonempty bin : bin ≠ 0 → scanned locs bin ≠ [].
Proof.
  intros Hb. pose proof (inject_Z_nonzero bin Hb) as Hq. unfold scanned.
  repeat apply pass_nonempty; try done. by apply voxel_grid_nonempty.
Qed.

Lemma sample_total_vox_pos bin : bin ≠ 0 → 0 < sample_total_vox locs bin.
Proof.
  intros Hb. pose proof (scanned_nonempty bin Hb). unfold sample_total_vox.
  destruct (scanned locs bin); [done|]. simpl. lia.
Qed.

Lemma voxel_scan_bin_ok acc bin :
  bin ≠ 0 →
  voxelscan.voxel_scan_bin locs acc bin
  = Ok {| voxelscan.bin_list := voxelscan.bin_list acc ++ [bin];
          voxelscan.vol_list := voxelscan.vol_list acc ++ [sample_vol locs bin];
          voxelscan.surf_list := voxelscan.surf_list acc ++ [sample_surf locs bin];
          voxelscan.stov_list := voxelscan.stov_list acc ++ [sample_stov locs bin];
          voxelscan.core_ratio_list :=
            voxelscan.core_ratio_list acc ++ [sample_core_ratio locs bin] |}.
Proof.
  intros Hb. unfold voxelscan.voxel_scan_bin.
  rewrite (count_exposed_faces_bin bin Hb). unfold mbind, result_bind.
  unfold voxelscan.truediv.
  rewrite decide_False by (pose proof (sample_total_vox_pos bin Hb); lia).
  done.
Qed.

Lemma voxel_scan_loop bins acc :
  Forall (λ b, b ≠ 0) bins →
  for_in bins (voxelscan.voxel_scan_bin locs) acc
  = Ok {| voxelscan.bin_list := voxelscan.bin_list acc ++ bins;
          voxelscan.vol_list := voxelscan.vol_list acc ++ (sample_vol locs <$> bins);
          voxelscan.surf_list := voxelscan.surf_list acc ++ (sample_surf locs <$> bins);
          voxelscan.stov_list := voxelscan.stov_list acc ++ (sample_stov locs <$> bins);
          voxelscan.core_ratio_list :=
            voxelscan.core_ratio_list acc ++ (sample_core_ratio locs <$> bins) |}.
Proof.
  intros Hall. revert acc. induction Hall as [|b bins Hb Hall IH]; intros acc.
  - cbn [for_in fmap list_fmap]. rewrite !app_nil_r. by destruct acc.
  - cbn [for_in]. rewrite voxel_scan_bin_ok by done. unfold mbind, result_bind.
    rewrite IH. cbn [voxelscan.bin_list voxelscan.vol_list voxelscan.surf_list
      voxelscan.stov_list voxelscan.core_ratio_list].
    rewrite !fmap_cons, <- !app_assoc. done.
Qed.

Lemma voxel_scan_ok bin_min bin_max step bins :
  py_range bin_min bin_max step = Ok bins → Forall (λ b, b ≠ 0) bins →
  voxelscan.voxel_scan locs bin_min bin_max step
  = Ok (voxelscan.ScanLists bins (sample_vol locs <$> bins)
          (sample_surf locs <$> bins) (sample_stov locs <$> bins)
          (sample_core_ratio locs <$> bins)).
Proof.
  intros Hr Hall. unfold voxelscan.voxel_scan. rewrite Hr.
  unfold mbind, result_bind. by rewrite voxel_scan_loop.
Qed.

End voxel_scan.

(** * Ranges with any step, and bin sizes of zero *)

Section py_range_any_step.
Variables start stop step : Z.

Lemma py_range_ok : step ≠ 0 → ∃ bins, py_range start stop step = Ok bins.
Proof. intros Hs. unfold py_range. rewrite decide_False by done. by eexists. Qed.

Lemma py_range_raises e : py_range start stop step = Raise e → step = 0.
Proof.
  intros Hr. destruct (decide (step = 0)) as [|Hs]; [done|].
  destruct (py_range_ok Hs) as [bins Hb]. rewrite Hb in Hr. discriminate.
Qed.

Lemma py_range_lookup bins (i : nat) b :
  py_range start stop step = Ok bins → bins !! i = Some b →
  b = start + Z.of_nat i * step.
Proof.
  unfold py_range. destruct (decide (step = 0)); [done|]. intros [= <-].
  rewrite list_lookup_fmap. intros Hi.
  destruct (seq _ _ !! i) as [j|] eqn:Hj; [|done].
  apply lookup_seq in Hj as [-> _]. by injection Hi as <-.
Qed.

Lemma py_range_neg :
  step < 0 →
  py_range start stop step
  = Ok ((λ i : nat, start + Z.of_nat i * step)
          <$> seq 0 (Z.to_nat (if decide (stop < start)
                               then (start - stop - 1) / (- step) + 1 else 0))).
Proof.
  intros Hs. unfold py_range.
  rewrite decide_False by lia. by rewrite (decide_False (P := 0 < step)) by lia.
Qed.

Lemma py_range_neg_empty :
  step < 0 → start ≤ stop → py_range start stop step = Ok [].
Proof.
  intros Hs Hle. rewrite py_range_neg by done. by rewrite decide_False by lia.
Qed.

Lemma py_range_neg_elem bins b :
  step < 0 → py_range start stop step = Ok bins →
  b ∈ bins ↔ stop < b ≤ start ∧ (start - b) mod (- step) = 0.
Proof.
  intros Hs. rewrite py_range_neg by done. intros [= <-].
  rewrite list_elem_of_fmap. setoid_rewrite elem_of_seq.
  destruct (decide (stop < start)) as [Hlt|Hge].
  - pose proof (Z.div_mod (start - stop - 1) (- step) ltac:(lia)) as Hdm.
    pose proof (Z.mod_pos_bound (start - stop - 1) (- step) ltac:(lia)) as Hmb.
    assert (0 ≤ (start - stop - 1) / (- step)) by (apply Z.div_pos; lia).
    split.
    + intros (i & -> & Hi). split; [nia|].
      replace (start - (start + Z.of_nat i * step)) with (Z.of_nat i * (- step)) by lia.
      apply Z.mod_mul. lia.
    + intros [Hb Hmod].
      apply Z.mod_divide in Hmod as [q Hq]; [|lia].
      assert (0 ≤ q) by nia.
      exists (Z.to_nat q). split; [rewrite Z2Nat.id by done; lia|].
      assert (q ≤ (start - stop - 1) / (- step)).
      { apply Z.div_le_lower_bound; [lia|]. nia. }
      lia.
  - split; [intros (i & _ & Hi); simpl in Hi; lia|]. lia.
Qed.

End py_range_any_step.

Lemma floordiv_by_zero (a b : Q) :
  (b == 0)%Q → ∀ n, locsutil.floordiv a b ≠ locsutil.Fin n.
Proof.
  intros Hb n. unfold locsutil.floordiv.
  apply Qeq_bool_iff in Hb. rewrite Hb. by destruct (a ?= 0)%Q.
Qed.

Lemma astype_int_raises (d : list locsutil.voxelized) v :
  v ∈ d →
  (∀ n, locsutil.x_vox v ≠ locsutil.Fin n) ∨ (∀ n, locsutil.z_vox v ≠ locsutil.Fin n) →
  astype_int d = Raise IntCastingNaNError.
Proof.
  intros Hv Hx. induction d as [|v' d IH]; [by apply elem_of_nil in Hv|].
  cbn [astype_int]. apply elem_of_cons in Hv as [<-|Hv].
  - unfold astype_int_row.
    destruct (locsutil.x_vox v) eqn:Ex, (locsutil.y_vox v) eqn:Ey,
      (locsutil.z_vox v) eqn:Ez; try reflexivity.
    destruct Hx as [Hx|Hx]; exfalso; eapply Hx; reflexivity.
  - rewrite (IH Hv). unfold astype_int_row.
    destruct (locsutil.x_vox v'), (locsutil.y_vox v'), (locsutil.z_vox v');
      reflexivity.
Qed.

Lemma count_exposed_faces_raises (g : list locsutil.voxelized) :
  g ≠ [] →
  (∀ v, v ∈ g → (∀ n, locsutil.x_vox v ≠ locsutil.Fin n)
                ∨ (∀ n, locsutil.z_vox v ≠ locsutil.Fin n)) →
  count_exposed_faces g = Raise IntCastingNaNError.
Proof.
  intros Hne Hall. unfold count_exposed_faces.
  destruct (not_duplicated locsutil.vox_key [] g) as [|v d] eqn:Hd.
  { exfalso. revert Hd. by apply not_duplicated_nonempty. }
  rewrite (astype_int_raises (v :: d) v); [done|left|].
  apply Hall. apply (not_duplicated_sublist locsutil.vox_key []).
  rewrite Hd. left.
Qed.

(** * The aggregation of [analyze_clusters] *)

Lemma count_exposed_faces_counts g res :
  count_exposed_faces g = Ok res → res = counts res.1.1.1.1.
Proof.
  unfold count_exposed_faces, mbind, result_bind.
  destruct (astype_int _); [|done].
  destruct (scan_faces_all _) as [[|out]|]; [done| |done].
  by intros [= <-].
Qed.

Lemma for_in_append {A B : Type} (items : list A) (body : list B → A → result (list B))
    (P : A → B → Prop) :
  (∀ a, a ∈ items → ∃ b, P a b ∧ ∀ acc, body acc a = Ok (acc ++ [b])) →
  ∀ acc, ∃ bs, for_in items body acc = Ok (acc ++ bs) ∧ Forall2 P items bs.
Proof.
  induction items as [|a items IH]; intros Hbody acc.
  - exists []. split; [by rewrite app_nil_r|constructor].
  - destruct (Hbody a ltac:(left)) as (b & Hb & Ha).
    destruct (IH (λ a' Ha', Hbody a' ltac:(by right)) (acc ++ [b]))
      as (bs & Hbs & Hall).
    exists (b :: bs). split; [|by constructor].
    cbn [for_in]. rewrite Ha. unfold mbind, result_bind.
    by rewrite Hbs, <- app_assoc.
Qed.

Section sums.
Local Open Scope Q_scope.

Lemma add_subgroup_ok (t : analyze.totals) (sg : Z * list locsutil.voxelized)
    (out : list row) :
  count_exposed_faces sg.2 = Ok (counts out) →
  analyze.add_subgroup t sg
  = Ok {| analyze.total_vox := analyze.total_vox t + inject_Z (Z.of_nat (length out));
          analyze.total_surf_vox :=
            analyze.total_surf_vox t
            + inject_Z (Z.of_nat (length (surface_rows out)));
          analyze.total_xy_faces :=
            analyze.total_xy_faces t + inject_Z (sum_Z (xy_faces <$> out));
          analyze.total_z_faces :=
            analyze.total_z_faces t + inject_Z (sum_Z (get z_faces <$> out)) |}.
Proof. unfold analyze.add_subgroup. by intros ->. Qed.

Lemma add_subgroups (groups : list (Z * list locsutil.voxelized))
    (outs : list (list row)) (t : analyze.totals) :
  Forall2 (λ sg out, count_exposed_faces sg.2 = Ok (counts out)) groups outs →
  ∃ t', for_in groups analyze.add_subgroup t = Ok t'
    ∧ analyze.total_vox t'
      == analyze.total_vox t + inject_Z (Z.of_nat (length (concat outs)))
    ∧ analyze.total_surf_vox t'
      == analyze.total_surf_vox t
         + inject_Z (Z.of_nat (length (surface_rows (concat outs))))
    ∧ analyze.total_xy_faces t'
      == analyze.total_xy_faces t + inject_Z (sum_Z (xy_faces <$> concat outs))
    ∧ analyze.total_z_faces t'
      == analyze.total_z_faces t + inject_Z (sum_Z (get z_faces <$> concat outs)).
Proof.
  intros Hall. revert t. induction Hall as [|sg out groups outs Hsg Hall IH]; intros t.
  - exists t. cbn. split; [done|]. repeat split; ring.
  - cbn beta in Hsg. cbn [for_in]. rewrite (add_subgroup_ok t sg out Hsg).
    unfold mbind, result_bind.
    match goal with |- context [for_in groups _ ?t0] =>
      destruct (IH t0) as (t' & Ht' & H1 & H2 & H3 & H4) end.
    exists t'. split; [done|].
    cbn [analyze.total_vox analyze.total_surf_vox analyze.total_xy_faces
         analyze.total_z_faces] in H1, H2, H3, H4.
    cbn [concat]. unfold surface_rows in *.
    rewrite filter_app, !fmap_app, !length_app.
    assert (Hsum : ∀ l l' : list Z, sum_Z (l ++ l') = (sum_Z l + sum_Z l')%Z).
    { intros l l'. unfold sum_Z. induction l; simpl; lia. }
    rewrite !Hsum, !Nat2Z.inj_add, !inject_Z_plus.
    rewrite H1, H2, H3, H4. repeat split; ring.
Qed.

End sums.

Lemma voxelize_filter (f : locsutil.loc → Z) (k : Z) locs bin_xy bin_z :
  filter (λ v, f (locsutil.src v) = k) (locsutil.voxelize locs bin_xy bin_z)
  = locsutil.voxelize (filter (λ l, f l = k) locs) bin_xy bin_z.
Proof.
  unfold locsutil.voxelize. induction locs as [|l locs IH]; [done|].
  rewrite fmap_cons, !filter_cons. cbn [locsutil.voxelize_row locsutil.src].
  destruct (decide (f l = k)); [rewrite fmap_cons|]; by rewrite IH.
Qed.

Lemma voxelize_src locs bin_xy bin_z :
  locsutil.src <$> locsutil.voxelize locs bin_xy bin_z = locs.
Proof.
  unfold locsutil.voxelize. induction locs as [|l locs IH]; [done|].
  rewrite !fmap_cons, IH. done.
Qed.

(** A sub-group of a cluster of a voxelized table is the voxelized table
    of its own points. *)
Lemma subgroup_voxelized locs bin_xy bin_z i g h sg :
  (i, g) ∈ clusters (locsutil.voxelize locs bin_xy bin_z) →
  (h, sg) ∈ subgroups g →
  sg = locsutil.voxelize (locsutil.src <$> sg) bin_xy bin_z ∧ sg ≠ [].
Proof.
  intros (Hg & _ & _)%elem_of_groupby (Hsg & _ & Hne)%elem_of_groupby.
  split; [|done].
  assert (Hg' : g = locsutil.voxelize (filter (λ l, locsutil.id l = i) locs) bin_xy bin_z).
  { rewrite Hg. apply (voxelize_filter locsutil.id i). }
  assert (Hsg' : sg = locsutil.voxelize
            (filter (λ l, locsutil.hdbscan l = h) (filter (λ l, locsutil.id l = i) locs))
            bin_xy bin_z).
  { rewrite Hsg, Hg'. apply (voxelize_filter locsutil.hdbscan h). }
  rewrite Hsg' at 2. by rewrite voxelize_src.
Qed.

(** * The result table of [_analyze_vox] *)

Section analyze_vox.
Variable curve_fit : list Z → list Q → Q * Q * Q → result (Q * Q * Q).

Lemma analyze_group_aligned bin_min bin_max step cutoff acc g acc' :
  voxelscan.analyze_group curve_fit bin_min bin_max step cutoff acc g = Ok acc' →
  aligned acc →
  aligned acc' ∧ (missing acc ≤ missing acc')%nat
  ∧ (fit_fails curve_fit bin_min bin_max step cutoff g → (missing acc < missing acc')%nat).
Proof.
  destruct g as [i locs_group]. unfold voxelscan.analyze_group, fit_fails, missing.
  cbn [snd]. intros Hg Ha. unfold aligned in Ha.
  destruct (decide (Z.of_nat (length locs_group) < cutoff)) as [Hlt|Hge].
  { injection Hg as <-. split; [done|]. split; [done|]. by intros [? _]. }
  destruct (voxelscan.voxel_scan locs_group bin_min bin_max step) as [sl|e] eqn:Hsl;
    [|done].
  unfold mbind, result_bind in Hg.
  destruct (voxelscan.fit_sigmoid curve_fit _ _) as [popt|[]] eqn:Hfit;
    try done; injection Hg as <-; unfold aligned;
    cbn [voxelscan._id voxelscan.total_locs voxelscan.num_clusters voxelscan.bins
         voxelscan.vols voxelscan.surfs voxelscan.stovs voxelscan.core_ratios
         voxelscan.params];
    rewrite ?length_app; simpl.
  - split; [lia|]. split; [lia|].
    intros (_ & sl' & [= <-] & Hf). rewrite Hfit in Hf. done.
  - split; [lia|]. split; lia.
Qed.

Lemma analyze_groups_aligned bin_min bin_max step cutoff groups acc c :
  for_in groups (voxelscan.analyze_group curve_fit bin_min bin_max step cutoff) acc
  = Ok c →
  aligned acc →
  aligned c ∧ (missing acc ≤ missing c)%nat
  ∧ ((∃ g, g ∈ groups ∧ fit_fails curve_fit bin_min bin_max step cutoff g) →
     (missing acc < missing c)%nat).
Proof.
  revert acc. induction groups as [|g groups IH]; intros acc Hc Ha.
  - injection Hc as <-. split; [done|]. split; [done|].
    by intros (g & ?%elem_of_nil & _).
  - cbn [for_in] in Hc. unfold mbind, result_bind in Hc.
    destruct (voxelscan.analyze_group _ _ _ _ _ acc g) as [acc'|] eqn:Hg; [|done].
    destruct (analyze_group_aligned _ _ _ _ _ _ _ Hg Ha) as (Ha' & Hle & Hlt).
    destruct (IH acc' Hc Ha') as (Hac & Hle' & Hlt').
    split; [done|]. split; [lia|].
    intros (g' & [->|Hin]%elem_of_cons & Hf).
    + specialize (Hlt Hf). lia.
    + assert (missing acc' < missing c)%nat by (apply Hlt'; by exists g'). lia.
Qed.

Lemma make_rows_ragged c1 c2 c3 c4 c5 c6 c7 c8 c9 :
  (length c9 < length c1)%nat →
  voxelscan.make_rows c1 c2 c3 c4 c5 c6 c7 c8 c9 = Raise ValueError.
Proof.
  revert c2 c3 c4 c5 c6 c7 c8 c9.
  induction c1 as [|a1 c1 IH]; intros c2 c3 c4 c5 c6 c7 c8 c9 Hlen;
    [simpl in Hlen; lia|].
  destruct c2, c3, c4, c5, c6, c7, c8, c9; try reflexivity.
  cbn [voxelscan.make_rows]. rewrite IH by (simpl in Hlen; lia). reflexivity.
Qed.

Lemma make_rows_aligned c1 c2 c3 c4 c5 c6 c7 c8 c9 :
  length c2 = length c1 → length c3 = length c1 → length c4 = length c1 →
  length c5 = length c1 → length c6 = length c1 → length c7 = length c1 →
  length c8 = length c1 → length c9 = length c1 →
  ∃ rows, voxelscan.make_rows c1 c2 c3 c4 c5 c6 c7 c8 c9 = Ok rows
    ∧ voxelscan.row_id <$> rows = c1
    ∧ voxelscan.row_sigmoid_params <$> rows = c9.
Proof.
  revert c2 c3 c4 c5 c6 c7 c8 c9.
  induction c1 as [|a1 c1 IH]; intros c2 c3 c4 c5 c6 c7 c8 c9;
    destruct c2, c3, c4, c5, c6, c7, c8, c9; simpl; try done.
  - by exists [].
  - intros [= ?] [= ?] [= ?] [= ?] [= ?] [= ?] [= ?] [= ?].
    destruct (IH c2 c3 c4 c5 c6 c7 c8 c9) as (rows & -> & Hid & Hp); try done.
    eexists. split; [reflexivity|]. rewrite !fmap_cons, Hid, Hp. done.
Qed.

(** A single fit that does not converge takes the whole table away: the
    loop goes on, but the lists no longer have one length and the
    construction of the table raises [ValueError]. *)
Lemma fit_failure_raises locs bin_min bin_max step cutoff c :
  for_in (groupby Z.le locsutil.id locs)
    (voxelscan.analyze_group curve_fit bin_min bin_max step cutoff)
    (voxelscan.Columns [] [] [] [] [] [] [] [] []) = Ok c →
  (∃ g, g ∈ groupby Z.le locsutil.id locs
        ∧ fit_fails curve_fit bin_min bin_max step cutoff g) →
  voxelscan._analyze_vox curve_fit locs bin_min bin_max step cutoff
  = Raise ValueError.
Proof.
  intros Hc Hf. unfold voxelscan._analyze_vox. rewrite Hc.
  unfold mbind, result_bind, voxelscan.DataFrame_of.
  destruct (analyze_groups_aligned _ _ _ _ _ _ _ Hc) as (_ & _ & Hlt).
  { unfold aligned. simpl. repeat split; lia. }
  specialize (Hlt Hf). unfold missing in Hlt. simpl in Hlt.
  apply make_rows_ragged. lia.
Qed.

End analyze_vox.

(** * Translations and the origin normalization *)

Section translate.

Lemma min_Z_shift m l k : min_Z (m + k) ((λ v, v + k) <$> l) = min_Z m l + k.
Proof.
  unfold min_Z. induction l as [|a l IH]; [done|].
  rewrite fmap_cons. cbn [foldr]. rewrite IH. lia.
Qed.

Lemma col_min_fmap c (f : row → row) k rows :
  rows ≠ [] → (∀ r, get c (f r) = get c r + k) →
  col_min c (f <$> rows) = col_min c rows + k.
Proof.
  destruct rows as [|r rows]; [done|]. intros _ Hf. unfold col_min.
  rewrite fmap_cons, Hf, <- min_Z_shift. f_equal.
  change (f r :: (f <$> rows)) with (f <$> (r :: rows)).
  rewrite <- !list_fmap_compose. apply list_fmap_ext. intros i r' _. apply Hf.
Qed.

Lemma col_min_translate k rows :
  rows ≠ [] →
  col_min x_vox (translate_row k <$> rows) = col_min x_vox rows + k.1.1
  ∧ col_min y_vox (translate_row k <$> rows) = col_min y_vox rows + k.1.2
  ∧ col_min z_vox (translate_row k <$> rows) = col_min z_vox rows + k.2.
Proof.
  intros Hne. repeat split; by apply col_min_fmap.
Qed.

Lemma auto_origin_df_translate k rows :
  auto_origin_df (translate_row k <$> rows) = auto_origin_df rows.
Proof.
  destruct (decide (rows = [])) as [->|Hne]; [done|].
  rewrite !auto_origin_df_eq.
  destruct (col_min_translate k rows Hne) as (-> & -> & ->).
  rewrite <- list_fmap_compose. apply list_fmap_ext. intros i r _.
  destruct r. unfold translate_row. simpl. f_equal; lia.
Qed.

Lemma auto_origin_df_as_translate rows :
  auto_origin_df rows
  = translate_row (1 - col_min x_vox rows, 1 - col_min y_vox rows,
                   1 - col_min z_vox rows) <$> rows.
Proof.
  rewrite auto_origin_df_eq. apply list_fmap_ext. intros i r _.
  destruct r. unfold translate_row. simpl. f_equal; lia.
Qed.

Lemma auto_origin_df_idemp rows :
  auto_origin_df (auto_origin_df rows) = auto_origin_df rows.
Proof.
  rewrite (auto_origin_df_as_translate rows) at 1.
  apply auto_origin_df_translate.
Qed.

End translate.

Section not_duplicated_rel.
Context {A B K K' : Type} `{EqDecision K, EqDecision K'}.
Variables (key : A → K) (key' : B → K') (R : A → B → Prop).
Hypothesis Hkey : ∀ a b a2 b2, R a b → R a2 b2 → (key a = key a2 ↔ key' b = key' b2).

Lemma not_duplicated_rel sa sb l l' :
  Forall2 R sa sb → Forall2 R l l' →
  Forall2 R (not_duplicated key (key <$> sa) l)
            (not_duplicated key' (key' <$> sb) l').
Proof.
  intros Hs Hl. revert sa sb Hs.
  induction Hl as [|a b l l' Hab Hl IH]; intros sa sb Hs; [constructor|].
  cbn [not_duplicated].
  assert (Hseen : key a ∈ key <$> sa ↔ key' b ∈ key' <$> sb).
  { clear IH. induction Hs as [|a2 b2 sa sb H2 Hs IHs].
    - rewrite !fmap_nil. split; by intros ?%elem_of_nil.
    - rewrite !fmap_cons, !elem_of_cons, IHs, (Hkey a b a2 b2 Hab H2). done. }
  destruct (decide (key a ∈ key <$> sa)) as [Hin|Hnin].
  - rewrite decide_True by by apply Hseen. by apply IH.
  - rewrite decide_False by (by rewrite <- Hseen).
    constructor; [done|]. apply (IH (a :: sa) (b :: sb)). by constructor.
Qed.

End not_duplicated_rel.

Section shifted.
Variable k : Z * Z * Z.

Lemma shifted_key v v' v2 v2' :
  shifted k v v' → shifted k v2 v2' →
  locsutil.vox_key v = locsutil.vox_key v2
  ↔ locsutil.vox_key v' = locsutil.vox_key v2'.
Proof.
  intros ([[x y] z] & -> & ->) ([[x2 y2] z2] & -> & ->). unfold fin3. simpl.
  split; intros [= ? ? ?]; repeat f_equal; lia.
Qed.

Lemma astype_int_shifted d d' :
  Forall2 (shifted k) d d' →
  ∃ rows, astype_int d = Ok rows ∧ astype_int d' = Ok (translate_row k <$> rows).
Proof.
  induction 1 as [|v v' d d' ([[x y] z] & Hv & Hv') Hd (rows & IH & IH')].
  - by exists [].
  - exists (Row x y z 0 0 0 :: rows). cbn [astype_int].
    rewrite IH, IH'. unfold astype_int_row.
    unfold locsutil.vox_key, fin3 in Hv, Hv'. simpl in Hv, Hv'.
    injection Hv as -> -> ->. injection Hv' as -> -> ->. done.
Qed.

(** [count_exposed_faces] does not see an integer translation of the
    voxel columns. *)
Lemma count_exposed_faces_shifted d d' :
  Forall2 (shifted k) d d' → count_exposed_faces d' = count_exposed_faces d.
Proof.
  intros Hd. unfold count_exposed_faces.
  assert (Hnd : Forall2 (shifted k)
            (not_duplicated locsutil.vox_key [] d)
            (not_duplicated locsutil.vox_key [] d')).
  { apply (not_duplicated_rel locsutil.vox_key locsutil.vox_key (shifted k)
             shifted_key [] [] d d'); [constructor|done]. }
  destruct (astype_int_shifted _ _ Hnd) as (rows & -> & ->).
  unfold mbind, result_bind. by rewrite auto_origin_df_translate.
Qed.

End shifted.

Section floor_shift.
Local Open Scope Q_scope.

Lemma Qfloor_add_Z (q : Q) (n : Z) : Qfloor (q + inject_Z n) = (Qfloor q + n)%Z.
Proof.
  destruct q as [a d]. unfold Qfloor, Qplus, inject_Z. simpl.
  rewrite Pos.mul_1_r, Z.mul_1_r. apply Z.div_add. done.
Qed.

Lemma floordiv_shift (a b : Q) (n : Z) :
  ¬ b == 0 →
  locsutil.floordiv (a + inject_Z n * b) b
  = locsutil.Fin (Qfloor (a / b) + n).
Proof.
  intros Hb. rewrite floordiv_finite by done. f_equal.
  rewrite <- Qfloor_add_Z. apply Qfloor_comp. by field.
Qed.

Lemma voxelize_translate locs bin (kx ky kz : Z) :
  ¬ bin == 0 →
  Forall2 (shifted (kx, ky, kz))
    (locsutil.voxelize locs bin bin)
    (locsutil.voxelize
       (translate_loc (inject_Z kx * bin) (inject_Z ky * bin) (inject_Z kz * bin)
          <$> locs) bin bin).
Proof.
  intros Hb. unfold locsutil.voxelize. rewrite <- list_fmap_compose.
  induction locs as [|l locs IH]; [constructor|].
  rewrite !fmap_cons. constructor; [|done].
  exists (voxel_of bin bin l). split; [by apply vox_key_voxelize_row|].
  unfold locsutil.vox_key, locsutil.voxelize_row, translate_loc, voxel_of, fin3.
  simpl. by rewrite !floordiv_shift.
Qed.

End floor_shift.

(** * The Face-Exposure Scanner: claims C1, C2 and C10 *)

Lemma columns_of_spec fixed rows g :
  g ∈ columns_of fixed rows →
  (∃ k, g = filter (λ r, group_key fixed r = k) rows) ∧ g ≠ [].
Proof.
  unfold columns_of. intros ([k g'] & -> & Hg)%list_elem_of_fmap.
  apply elem_of_groupby in Hg as (Hg & _ & Hne). split; [by exists k|done].
Qed.

Lemma columns_of_cover fixed rows r :
  r ∈ rows →
  filter (λ r', group_key fixed r' = group_key fixed r) rows ∈ columns_of fixed rows.
Proof.
  intros Hr. unfold columns_of. rewrite groupby_groups.
  apply list_elem_of_fmap. exists (group_key fixed r). split; [done|].
  apply elem_of_group_keys. by apply list_elem_of_fmap_2.
Qed.

(** C1.  One pass of the Face-Exposure Scanner ([scan_faces_1d], which
    [scan_faces] calls with the columns of the axis) visits every column of
    the frame: the columns are the non-empty classes of rows that share the
    two fixed coordinates, they partition the frame, and the output is the
    concatenation of the processed columns.  A processed column holds the
    voxels of the column and no others, sorted ascending by the scan-axis
    coordinate, and the face count at position [i] is: 1 for the first
    position, plus 1 for the last position, plus 1 for each of the two
    adjacent pairs of position [i] whose coordinate difference is greater
    than 1 (a difference of exactly 1 adds nothing).  The only voxel of a
    one-voxel column gets 2. *)
Theorem scan_faces_1d_column_rule (rows : list row) (axis face_col : column)
    (fixed_columns : column * column) :
  axis ≠ face_col →
  (∀ df, scan_faces df x_vox = scan_faces_1d df x_vox (y_vox, z_vox) x_faces
       ∧ scan_faces df y_vox = scan_faces_1d df y_vox (x_vox, z_vox) y_faces
       ∧ scan_faces df z_vox = scan_faces_1d df z_vox (x_vox, y_vox) z_faces)
  ∧ (∀ a b, (b - a = 1 → gap a b = 0) ∧ (1 < b - a → gap a b = 1))
  ∧ (∃ out,
      scan_faces_1d (Table rows) axis fixed_columns face_col = Ok out
      ∧ rows_of out
        = concat (scan_group axis face_col <$> columns_of fixed_columns rows))
  ∧ concat (columns_of fixed_columns rows) ≡ₚ rows
  ∧ (∀ r, r ∈ rows →
       filter (λ r', group_key fixed_columns r' = group_key fixed_columns r) rows
       ∈ columns_of fixed_columns rows)
  ∧ ∀ g, g ∈ columns_of fixed_columns rows →
      (∃ k, g = filter (λ r, group_key fixed_columns r = k) rows) ∧ g ≠ []
      ∧ let c := scan_group axis face_col g in
        let vs := get axis <$> c in
        Sorted Z.le vs
        ∧ set face_col 0 <$> c ≡ₚ set face_col 0 <$> g
        ∧ (∀ i r, c !! i = Some r →
             get face_col r
             = (if decide (i = 0%nat) then 1 else 0)
               + (if decide (i = (length c - 1)%nat) then 1 else 0)
               + (if decide (0 < i)%nat
                  then gap (val vs (Nat.pred i)) (val vs i) else 0)
               + (if decide (S i < length c)%nat
                  then gap (val vs i) (val vs (S i)) else 0))
        ∧ (length g = 1%nat → ∀ r, r ∈ c → get face_col r = 2).
Proof.
  intros Hne. split; [done|]. split.
  { intros a b. unfold gap. split; intros; case_decide; lia. }
  split.
  { destruct (scan_faces_1d_rows rows axis fixed_columns face_col)
      as (out & Hout & Hrows & _). by exists out. }
  split; [apply groupby_partition|].
  split; [apply columns_of_cover|].
  intros g Hg. destruct (columns_of_spec _ _ _ Hg) as [Hk Hnil].
  split; [done|]. split; [done|]. simpl.
  split; [by apply scan_group_sorted|].
  split; [by apply scan_group_perm|].
  assert (Hfaces : ∀ i r, scan_group axis face_col g !! i = Some r →
    get face_col r = column_faces (get axis <$> scan_group axis face_col g) i)
    by (intros; by apply scan_group_faces).
  split.
  - intros i r Hi. rewrite (Hfaces i r Hi). unfold column_faces.
    by rewrite length_fmap.
  - intros Hlen r [i Hi]%list_elem_of_lookup.
    rewrite (Hfaces i r Hi). unfold column_faces.
    assert (Hl : length (scan_group axis face_col g) = 1%nat)
      by by rewrite scan_group_length.
    apply lookup_lt_Some in Hi as Hlt. rewrite length_fmap, Hl.
    assert (i = 0%nat) as -> by lia. simpl. done.
Qed.

(** The rule of C1 at work on the column x = 1, 2, 5 (y = z = 1) next to the
    one-voxel column at y = 2. *)
Lemma scan_faces_1d_column_rule_witness :
  x_vox ≠ x_faces
  ∧ ∃ out,
      scan_faces_1d
        (Table [Row 5 1 1 0 0 0; Row 1 1 1 0 0 0; Row 2 1 1 0 0 0; Row 1 2 1 0 0 0])
        x_vox (y_vox, z_vox) x_faces = Ok out
      ∧ rows_of out
        = [Row 1 1 1 1 0 0; Row 2 1 1 1 0 0; Row 5 1 1 2 0 0; Row 1 2 1 2 0 0].
Proof.
  assert (Hne : x_vox ≠ x_faces) by discriminate.
  split; [exact Hne|].
  destruct (scan_faces_1d_column_rule
    [Row 5 1 1 0 0 0; Row 1 1 1 0 0 0; Row 2 1 1 0 0 0; Row 1 2 1 0 0 0]
    x_vox x_faces (y_vox, z_vox) Hne) as (_ & _ & (out & Hout & Hrows) & _).
  exists out. split; [exact Hout|]. rewrite Hrows. vm_compute. reflexivity.
Defined.

Lemma scan_faces_all_rows rows out :
  scan_faces_all (Table rows) = Ok out →
  rows ≠ [] ∧ out = Table (pass_z (pass_y (pass_x rows))).
Proof.
  destruct rows as [|r rows]; [by rewrite scan_faces_all_nil|].
  rewrite scan_faces_all_eq by done. by intros [= <-].
Qed.

Lemma scan_faces_all_coords rows :
  coords <$> pass_z (pass_y (pass_x rows)) ≡ₚ coords <$> rows.
Proof. by rewrite pass_z_coords, pass_y_coords, pass_x_coords. Qed.

Lemma absent_cases {A : Type} `{EqDecision A} (l : list A) c :
  absent l c = 0 ∨ absent l c = 1.
Proof. unfold absent. case_decide; auto. Qed.

(** C2.  On a grid without repeated voxels the scanner returns (it raises
    only on the empty grid), every face count of its output is 0, 1 or 2,
    and on each axis the face counts of the voxels of a column add up to
    twice the number of maximal contiguous runs of the column. *)
Theorem face_counts_invariant (rows : list row) :
  NoDup (coords <$> rows) →
  (rows ≠ [] → ∃ o, scan_faces_all (Table rows) = Ok (Table o))
  ∧ ∀ out, scan_faces_all (Table rows) = Ok out →
      (∀ r, r ∈ rows_of out →
         get x_faces r ∈ [0; 1; 2] ∧ get y_faces r ∈ [0; 1; 2]
         ∧ get z_faces r ∈ [0; 1; 2])
      ∧ (∀ k,
           sum_Z (get x_faces <$>
                    filter (λ r, group_key (y_vox, z_vox) r = k) (rows_of out))
           = 2 * runs (get x_vox <$>
                         filter (λ r, group_key (y_vox, z_vox) r = k) rows))
      ∧ (∀ k,
           sum_Z (get y_faces <$>
                    filter (λ r, group_key (x_vox, z_vox) r = k) (rows_of out))
           = 2 * runs (get y_vox <$>
                         filter (λ r, group_key (x_vox, z_vox) r = k) rows))
      ∧ (∀ k,
           sum_Z (get z_faces <$>
                    filter (λ r, group_key (x_vox, y_vox) r = k) (rows_of out))
           = 2 * runs (get z_vox <$>
                         filter (λ r, group_key (x_vox, y_vox) r = k) rows)).
Proof.
  intros Hnd. split.
  { intros Hne. eexists. by apply scan_faces_all_eq. }
  intros out [Hne ->]%scan_faces_all_rows. cbn [rows_of].
  set (o := pass_z (pass_y (pass_x rows))).
  assert (Hexp : ∀ r, r ∈ o → r = exposure (coords <$> rows) (coords r))
    by (intros r Hr; by apply scan_faces_all_exposure).
  split.
  { intros r Hr. rewrite (Hexp r Hr). destruct r as [x y z fx fy fz]. simpl.
    repeat match goal with
    | |- context [absent ?l ?c] =>
        let H := fresh in destruct (absent_cases l c) as [H|H]; rewrite H; clear H
    end; simpl; repeat split; apply list_elem_of_In; simpl; lia. }
  split; [|split].
  - intros k. apply (column_sum x_vox x_faces (y_vox, z_vox) (λ k v, (v, k.1, k.2)));
      try done.
    + intros [] ? [] ?; simpl. by intros [= -> -> ->].
    + apply scan_faces_all_coords.
    + intros r Hr. rewrite (Hexp r Hr) at 1. by destruct r.
  - intros k. apply (column_sum y_vox y_faces (x_vox, z_vox) (λ k v, (k.1, v, k.2)));
      try done.
    + intros [] ? [] ?; simpl. by intros [= -> -> ->].
    + apply scan_faces_all_coords.
    + intros r Hr. rewrite (Hexp r Hr) at 1. by destruct r.
  - intros k. apply (column_sum z_vox z_faces (x_vox, y_vox) (λ k v, (k.1, k.2, v)));
      try done.
    + intros [] ? [] ?; simpl. by intros [= -> -> ->].
    + apply scan_faces_all_coords.
    + intros r Hr. rewrite (Hexp r Hr) at 1. by destruct r.
Qed.

Lemma face_counts_invariant_witness :
  NoDup (coords <$> [Row 1 1 1 0 0 0; Row 2 1 1 0 0 0; Row 4 1 1 0 0 0])
  ∧ ∃ o, scan_faces_all (Table [Row 1 1 1 0 0 0; Row 2 1 1 0 0 0; Row 4 1 1 0 0 0])
         = Ok (Table o).
Proof.
  assert (Hnd : NoDup (coords <$> [Row 1 1 1 0 0 0; Row 2 1 1 0 0 0; Row 4 1 1 0 0 0]))
    by (apply (bool_decide_unpack _); vm_compute; exact I).
  split; [exact Hnd|].
  apply (proj1 (face_counts_invariant _ Hnd)). discriminate.
Defined.

Lemma scan_faces_rows rows axis :
  axis ∈ [x_vox; y_vox; z_vox] →
  ∃ out, scan_faces (Table rows) axis = Ok out
    ∧ coords <$> rows_of out ≡ₚ coords <$> rows.
Proof.
  intros Hax. apply list_elem_of_In in Hax. simpl in Hax.
  destruct Hax as [<-|[<-|[<-|[]]]]; unfold scan_faces.
  - destruct (scan_faces_1d_rows rows x_vox (y_vox, z_vox) x_faces)
      as (out & Hout & Hrows & _). exists out. split; [done|].
    rewrite Hrows. apply pass_x_coords.
  - destruct (scan_faces_1d_rows rows y_vox (x_vox, z_vox) y_faces)
      as (out & Hout & Hrows & _). exists out. split; [done|].
    rewrite Hrows. apply pass_y_coords.
  - destruct (scan_faces_1d_rows rows z_vox (x_vox, y_vox) z_faces)
      as (out & Hout & Hrows & _). exists out. split; [done|].
    rewrite Hrows. apply pass_z_coords.
Qed.

(** C10.  The scanner keeps the voxel set of a deduplicated grid: each of
    the three passes returns the input voxels up to row order, and the
    output of the three passes together holds every input triple exactly
    once (a permutation of the input triples, without repetition); only
    the face columns differ.  The three passes return on every grid with
    at least one voxel. *)
Theorem scan_preserves_voxels (rows : list row) :
  NoDup (coords <$> rows) →
  (∀ axis, axis ∈ [x_vox; y_vox; z_vox] →
     ∃ out, scan_faces (Table rows) axis = Ok out
       ∧ coords <$> rows_of out ≡ₚ coords <$> rows)
  ∧ (rows ≠ [] → ∃ o, scan_faces_all (Table rows) = Ok (Table o))
  ∧ ∀ out, scan_faces_all (Table rows) = Ok out →
      coords <$> rows_of out ≡ₚ coords <$> rows
      ∧ NoDup (coords <$> rows_of out)
      ∧ length (rows_of out) = length rows.
Proof.
  intros Hnd. split; [apply scan_faces_rows|]. split.
  { intros Hne. eexists. by apply scan_faces_all_eq. }
  intros out [Hne ->]%scan_faces_all_rows. cbn [rows_of].
  pose proof (scan_faces_all_coords rows) as Hp.
  split; [done|]. split; [by rewrite Hp|].
  apply Permutation_length in Hp. by rewrite !length_fmap in Hp.
Qed.

Lemma scan_preserves_voxels_witness :
  NoDup (coords <$> [Row 3 1 1 0 0 0; Row 1 1 1 0 0 0; Row 1 2 1 0 0 0])
  ∧ ∃ o, scan_faces_all (Table [Row 3 1 1 0 0 0; Row 1 1 1 0 0 0; Row 1 2 1 0 0 0])
         = Ok (Table o).
Proof.
  assert (Hnd : NoDup (coords <$> [Row 3 1 1 0 0 0; Row 1 1 1 0 0 0; Row 1 2 1 0 0 0]))
    by (apply (bool_decide_unpack _); vm_compute; exact I).
  split; [exact Hnd|].
  apply (proj1 (proj2 (scan_preserves_voxels _ Hnd))). discriminate.
Defined.

(** * The builder in machine arithmetic *)

Section float64.
Local Open Scope Q_scope.

Lemma pow2_nonneg (e : Z) : (0 ≤ e)%Z → machine.pow2 e = inject_Z (2 ^ e).
Proof. intros He. unfold machine.pow2. by rewrite decide_True. Qed.

Lemma inject_Z_pow2_nonzero (e : Z) : (0 ≤ e)%Z → ¬ inject_Z (2 ^ e) == 0.
Proof.
  intros He E. unfold Qeq in E. simpl in E.
  pose proof (Z.pow_pos_nonneg 2 e ltac:(lia) He). lia.
Qed.

Lemma pow2_opp (e : Z) : machine.pow2 e * machine.pow2 (- e) == 1.
Proof.
  unfold machine.pow2.
  destruct (decide (0 ≤ e)%Z) as [H1|H1], (decide (0 ≤ - e)%Z) as [H2|H2]; try lia.
  - replace e with 0%Z by lia. reflexivity.
  - pose proof (inject_Z_pow2_nonzero e H1). rewrite Z.opp_involutive. by field.
  - pose proof (inject_Z_pow2_nonzero (- e) H2). by field.
Qed.

Lemma Qred_inject_Z (z : Z) : Qred (inject_Z z) = inject_Z z.
Proof. apply Qcanon.Qred_identity. simpl. apply Z.gcd_1_r. Qed.

Lemma Qred_integer (x : Q) (z : Z) : x == inject_Z z → Qred x = inject_Z z.
Proof. intros Hx. rewrite (Qred_complete _ _ Hx). apply Qred_inject_Z. Qed.

Lemma rint_integer (x : Q) (z : Z) : x == inject_Z z → machine.rint x = z.
Proof.
  intros Hx. unfold machine.rint.
  rewrite (Qfloor_comp _ _ Hx), Qfloor_Z.
  assert (H0 : x - inject_Z z == 0) by (rewrite Hx; ring).
  by rewrite H0.
Qed.

(** An integer below [2 ^ 53] in absolute value is a float64: rounding
    leaves it as it is. *)
Lemma round_integer (x : Q) (z : Z) :
  x == inject_Z z → (Z.abs z < 2 ^ 53)%Z →
  machine.round x = machine.Finite (inject_Z z).
Proof.
  intros Hx Hz. unfold machine.round. rewrite (Qred_integer x z Hx).
  destruct (Qeq_bool (inject_Z z) 0) eqn:E0.
  { apply Qeq_bool_iff in E0. unfold Qeq in E0. simpl in E0.
    by replace z with 0%Z by lia. }
  assert (Hz0 : z ≠ 0%Z).
  { intros ->. discriminate E0. }
  assert (Hlog : machine.ilog2 (inject_Z z) = Z.log2 (Z.abs z)).
  { unfold machine.ilog2. cbn [Qnum Qden inject_Z]. 
    change (Z.log2 (Z.pos 1)) with 0%Z. rewrite Z.sub_0_r.
    pose proof (Z.log2_nonneg (Z.abs z)).
    rewrite pow2_nonneg by done.
    destruct (Qle_bool _ _) eqn:E; [done|].
    assert (Hle : inject_Z (2 ^ Z.log2 (Z.abs z)) <= Qabs (z # 1)).
    { change (Qabs (z # 1)) with (inject_Z (Z.abs z)). rewrite <- Zle_Qle.
      apply Z.log2_spec. lia. }
    apply Qle_bool_iff in Hle. unfold inject_Z in E at 2. congruence. }
  rewrite Hlog.
  pose proof (Z.log2_nonneg (Z.abs z)) as Hnn.
  assert (Hlt : (Z.log2 (Z.abs z) < 53)%Z) by (apply Z.log2_lt_pow2; lia).
  set (e := Z.log2 (Z.abs z)) in *.
  rewrite Z.max_l by lia.
  rewrite (pow2_nonneg (52 - e)) by lia.
  rewrite (rint_integer _ (z * 2 ^ (52 - e))) by (by rewrite inject_Z_mult).
  assert (Hv : inject_Z (z * 2 ^ (52 - e)) * machine.pow2 (e - 52) == inject_Z z).
  { rewrite inject_Z_mult, <- (pow2_nonneg (52 - e)) by lia.
    replace (e - 52)%Z with (- (52 - e))%Z by lia.
    rewrite <- Qmult_assoc, pow2_opp. ring. }
  rewrite (Qred_integer _ z Hv).
  destruct (Qle_bool _ _) eqn:E; [|done].
  apply Qle_bool_iff in E. rewrite pow2_nonneg in E by lia.
  change (Qabs (inject_Z z)) with (inject_Z (Z.abs z)) in E.
  rewrite <- Zle_Qle in E.
  pose proof (Z.pow_lt_mono_r 2 53 1024 ltac:(lia) ltac:(lia) ltac:(lia)). lia.
Qed.

End float64.

Section comparisons.
Local Open Scope Q_scope.

Lemma Qltb_lt (x y : Q) : machine.Qltb x y = true ↔ x < y.
Proof.
  unfold machine.Qltb. destruct (Qle_bool y x) eqn:E; simpl.
  - apply Qle_bool_iff in E. split; [done|]. intros H. by apply Qlt_not_le in H.
  - split; [intros _|done]. apply Qnot_le_lt. intros H.
    apply Qle_bool_iff in H. congruence.
Qed.

Lemma Qltb_ge (x y : Q) : machine.Qltb x y = false ↔ y <= x.
Proof.
  unfold machine.Qltb. destruct (Qle_bool y x) eqn:E; simpl.
  - by apply Qle_bool_iff in E.
  - split; [done|]. intros H. apply Qle_bool_iff in H. congruence.
Qed.

Lemma Qeq_bool_neq (x y : Q) : Qeq_bool x y = false ↔ ¬ x == y.
Proof.
  rewrite <- Qeq_bool_iff. destruct (Qeq_bool x y); split; try done;
    intros H; exfalso; by apply H.
Qed.

(** The floor is the integer [k] with [k <= x < k + 1]. *)
Lemma Qfloor_unique (x : Q) (k : Z) :
  inject_Z k <= x → x < inject_Z (k + 1) → Qfloor x = k.
Proof.
  intros H1 H2.
  pose proof (Qfloor_le x) as H3. pose proof (Qlt_floor x) as H4.
  assert (Qfloor x < k + 1)%Z.
  { rewrite Zlt_Qlt. eapply Qle_lt_trans; [exact H3|exact H2]. }
  assert (k < Qfloor x + 1)%Z.
  { rewrite Zlt_Qlt. eapply Qle_lt_trans; [exact H1|exact H4]. }
  lia.
Qed.

End comparisons.

Section floordiv_exact.
Local Open Scope Q_scope.
Variable a : Q.
Variable b : Z.
Hypothesis Hb : (0 < b)%Z.
Hypothesis Ha : - inject_Z (2 ^ 52) < a < inject_Z (2 ^ 52).

Let B : Q := inject_Z b.
Let q : Q := a / B.

Lemma B_pos : 0 < B.
Proof. unfold B. rewrite <- (Zlt_Qlt 0). done. Qed.

Lemma B_nonzero : ¬ B == 0.
Proof. intros E. pose proof B_pos as H. rewrite E in H. by apply Qlt_irrefl in H. Qed.

Lemma quotient_times_B : q * B == a.
Proof. unfold q. pose proof B_nonzero. by field. Qed.

(** The quotient lies strictly between [- 2 ^ 52] and [2 ^ 52]. *)
Lemma quotient_range : - inject_Z (2 ^ 52) < q < inject_Z (2 ^ 52).
Proof.
  pose proof B_pos as HB. pose proof quotient_times_B as Hq.
  assert (H1 : 1 <= B).
  { unfold B. rewrite <- (Zle_Qle 1). lia. }
  destruct Ha as [Hlo Hhi]. rewrite <- Hq in Hlo, Hhi.
  assert (H52 : 0 < inject_Z (2 ^ 52)) by reflexivity.
  revert Hlo Hhi H52. generalize (inject_Z (2 ^ 52)). intros c Hlo Hhi Hc.
  clear Hq. revert Hlo Hhi H1. generalize q B. clear. intros q B Hlo Hhi H1.
  split; Lqa.nra.
Qed.

Lemma floor_range : (- 2 ^ 52 ≤ Qfloor q < 2 ^ 52)%Z.
Proof.
  destruct quotient_range as [Hlo Hhi].
  pose proof (Qfloor_le q) as H3. pose proof (Qlt_floor q) as H4.
  split.
  - assert (- 2 ^ 52 < Qfloor q + 1)%Z; [|lia].
    rewrite Zlt_Qlt. eapply Qlt_trans; [|exact H4].
    by rewrite inject_Z_opp.
  - rewrite Zlt_Qlt. eapply Qle_lt_trans; [exact H3|exact Hhi].
Qed.

(** The quotient truncated towards zero and the remainder of [fmod]. *)
Lemma fmod_cases :
  ∃ n : Z,
    machine.fmod a B == a - inject_Z n * B
    ∧ (Z.abs (n * b) < 2 ^ 52)%Z
    ∧ ((machine.fmod a B == 0 ∧ n = Qfloor q)
       ∨ (0 < machine.fmod a B ∧ n = Qfloor q)
       ∨ (machine.fmod a B < 0 ∧ n = (Qfloor q + 1)%Z)).
Proof.
  pose proof B_pos as HB. pose proof quotient_times_B as Hq.
  pose proof (Qfloor_le q) as H3. pose proof (Qlt_floor q) as H4.
  pose proof (Qle_ceiling q) as H5. pose proof (Qceiling_lt q) as H6.
  destruct Ha as [Hlo Hhi].
  unfold machine.fmod. fold B q.
  destruct (machine.Qltb q 0) eqn:Eq0.
  - apply Qltb_lt in Eq0. exists (Qceiling q). split; [reflexivity|].
    assert (Hn0 : (Qceiling q ≤ 0)%Z).
    { assert (Qceiling q - 1 < 0)%Z; [|lia]. rewrite Zlt_Qlt.
      eapply Qlt_trans; [exact H6|exact Eq0]. }
    split.
    { assert (- inject_Z (2 ^ 52) < inject_Z (Qceiling q * b)) as Hb1.
      { rewrite inject_Z_mult. fold B. rewrite <- Hq in Hlo.
        revert Hlo H5 HB. generalize (inject_Z (2 ^ 52)), (inject_Z (Qceiling q)), q, B.
        clear. intros c n q B ???. Lqa.nra. }
      rewrite <- inject_Z_opp, <- Zlt_Qlt in Hb1. nia. }
    destruct (Qlt_le_dec q (inject_Z (Qceiling q))) as [Hlt|Hge].
    + right. right. split.
      * rewrite <- Hq. revert Hlt HB. generalize (inject_Z (Qceiling q)), q, B.
        clear. intros c q B ??. Lqa.nra.
      * symmetry. apply Z.add_move_r. apply Qfloor_unique.
        -- apply Qlt_le_weak. exact H6.
        -- by replace (Qceiling q - 1 + 1)%Z with (Qceiling q) by lia.
    + left. assert (Hqc : q == inject_Z (Qceiling q)) by by apply Qle_antisym.
      split.
      * rewrite <- Hq, Hqc at 1. ring.
      * by rewrite (Qfloor_comp _ _ Hqc), Qfloor_Z.
  - apply Qltb_ge in Eq0. exists (Qfloor q). split; [reflexivity|].
    assert (Hn0 : (0 ≤ Qfloor q)%Z).
    { assert (0 < Qfloor q + 1)%Z; [|lia]. rewrite Zlt_Qlt.
      eapply Qle_lt_trans; [exact Eq0|exact H4]. }
    split.
    { assert (inject_Z (Qfloor q * b) < inject_Z (2 ^ 52)) as Hb1.
      { rewrite inject_Z_mult. fold B. rewrite <- Hq in Hhi.
        revert Hhi H3 HB. generalize (inject_Z (2 ^ 52)), (inject_Z (Qfloor q)), q, B.
        clear. intros c n q B ???. Lqa.nra. }
      rewrite <- Zlt_Qlt in Hb1. nia. }
    destruct (Qlt_le_dec (inject_Z (Qfloor q)) q) as [Hlt|Hge].
    + right. left. split; [|done].
      rewrite <- Hq. revert Hlt HB. generalize (inject_Z (Qfloor q)), q, B.
      clear. intros c q B ??. Lqa.nra.
    + left. assert (Hqc : q == inject_Z (Qfloor q)) by by apply Qle_antisym.
      split; [|done]. rewrite <- Hq, Hqc at 1. ring.
Qed.

(** The end of [npy_divmod] on a quotient that is an integer. *)
Lemma snap_integer (k : Z) :
  (Z.abs k < 2 ^ 53)%Z →
  (if Qeq_bool (inject_Z k) 0 then locsutil.Fin 0
   else
     match machine.round (inject_Z k - inject_Z (Qfloor (inject_Z k))) with
     | machine.Infinite _ => locsutil.Fin (Qfloor (inject_Z k))
     | machine.Finite frac =>
         if machine.Qltb (1 # 2) frac
         then match machine.round (inject_Z (Qfloor (inject_Z k)) + 1) with
              | machine.Finite v => locsutil.Fin (Qfloor v)
              | machine.Infinite s =>
                  if s then locsutil.NegInf else locsutil.PosInf
              end
         else locsutil.Fin (Qfloor (inject_Z k))
     end)
  = locsutil.Fin k.
Proof.
  intros Hk. destruct (Qeq_bool (inject_Z k) 0) eqn:E0.
  { apply Qeq_bool_iff in E0. unfold Qeq in E0. simpl in E0. f_equal. lia. }
  rewrite Qfloor_Z.
  rewrite (round_integer (inject_Z k - inject_Z k) 0) by (ring || done).
  reflexivity.
Qed.

(** Floor division by a positive integer bin size is exact as long as the
    coordinate is below [2 ^ 52] in absolute value: every intermediate
    result of [npy_divmod] is then an integer below [2 ^ 53]. *)
Lemma floordiv_exact : machine.floordiv a B = locsutil.Fin (Qfloor q).
Proof.
  pose proof B_pos as HB. pose proof B_nonzero as HB0.
  pose proof floor_range as Hfl.
  destruct fmod_cases as (n & Hmd & Hnb & Hcases).
  assert (H53 : (2 ^ 53 = 2 * 2 ^ 52)%Z) by reflexivity.
  assert (Hn : (Z.abs n < 2 ^ 52)%Z) by nia.
  unfold machine.floordiv. fold B.
  rewrite (proj2 (Qeq_bool_neq B 0) HB0). cbv zeta.
  rewrite (round_integer (a - machine.fmod a B) (n * b)); [|by rewrite Hmd, inject_Z_mult; fold B; ring|lia].
  rewrite (round_integer (inject_Z (n * b) / B) n);
    [|rewrite inject_Z_mult; fold B; by field|lia].
  rewrite (proj2 (Qltb_ge B 0)) by by apply Qlt_le_weak.
  destruct Hcases as [[Hm ->]|[[Hm ->]|[Hm Hk]]].
  - rewrite (proj2 (Qeq_bool_iff _ _) Hm). cbn [negb andb].
    apply snap_integer. lia.
  - rewrite (proj2 (Qeq_bool_neq _ 0)).
    2:{ intros E. rewrite E in Hm. by apply Qlt_irrefl in Hm. }
    rewrite (proj2 (Qltb_ge _ 0)) by by apply Qlt_le_weak.
    cbn [negb andb xorb]. apply snap_integer. lia.
  - rewrite (proj2 (Qeq_bool_neq _ 0)).
    2:{ intros E. rewrite E in Hm. by apply Qlt_irrefl in Hm. }
    rewrite (proj2 (Qltb_lt _ 0)) by done.
    cbn [negb andb xorb].
    rewrite (round_integer (inject_Z n - 1) (Qfloor q));
      [|subst n; rewrite inject_Z_plus; ring|lia].
    apply snap_integer. lia.
Qed.

End floordiv_exact.

Section int64.

Lemma int64_small (n : Z) : - 2 ^ 63 ≤ n < 2 ^ 63 → machine.int64 n = n.
Proof.
  intros Hn. unfold machine.int64.
  change (2 ^ 64) with 18446744073709551616.
  change (2 ^ 63) with 9223372036854775808 in *.
  rewrite Z.mod_small; lia.
Qed.

Lemma machine_to_int (n : Z) :
  - 2 ^ 63 ≤ n < 2 ^ 63 → machine.to_int (locsutil.Fin n) = to_int (locsutil.Fin n).
Proof. intros Hn. unfold machine.to_int, to_int. by rewrite decide_True. Qed.

Lemma machine_astype_int (d : list locsutil.voxelized) :
  (∀ v, v ∈ d → ∃ c : Z * Z * Z,
     locsutil.vox_key v = fin3 c
     ∧ - 2 ^ 52 ≤ c.1.1 < 2 ^ 52 ∧ - 2 ^ 52 ≤ c.1.2 < 2 ^ 52 ∧ - 2 ^ 52 ≤ c.2 < 2 ^ 52) →
  machine.astype_int d = astype_int d.
Proof.
  assert (H63 : 2 ^ 63 = 2048 * 2 ^ 52) by reflexivity.
  induction d as [|v d IH]; intros Hd; [done|].
  cbn [machine.astype_int astype_int]. rewrite IH by (intros; apply Hd; by right).
  destruct (Hd v ltac:(left)) as ([[x y] z] & Hk & Hx & Hy & Hz).
  unfold locsutil.vox_key, fin3 in Hk. cbn [fst snd] in *. injection Hk as Ex Ey Ez.
  unfold machine.astype_int_row, astype_int_row. rewrite Ex, Ey, Ez.
  by rewrite !machine_to_int by lia.
Qed.

Lemma machine_shift_column_eq c (df : list row) :
  machine.shift_column c df
  = (λ r, set c (machine.int64 (machine.int64 (get c r - col_min c df) + 1)) r) <$> df.
Proof. by destruct df. Qed.

Lemma machine_shift_column c (df : list row) :
  (∀ r, r ∈ df → - 2 ^ 52 ≤ get c r < 2 ^ 52) →
  machine.shift_column c df = shift_column c df.
Proof.
  assert (H63 : 2 ^ 63 = 2048 * 2 ^ 52) by reflexivity.
  intros Hb. rewrite machine_shift_column_eq, shift_column_eq.
  apply list_fmap_ext. intros i r Hr%list_elem_of_lookup_2.
  pose proof (col_min_le c df r Hr) as Hle.
  destruct (col_min_elem c df) as (r0 & Hr0 & Hmin).
  { intros ->. by apply elem_of_nil in Hr. }
  pose proof (Hb r Hr). pose proof (Hb r0 Hr0). cbn beta.
  rewrite (int64_small (get c r - col_min c df)) by lia.
  rewrite int64_small by lia. done.
Qed.

Lemma shift_column_other c c' (df : list row) :
  c ≠ c' → get c' <$> shift_column c df = get c' <$> df.
Proof.
  intros Hc. rewrite shift_column_eq, <- list_fmap_compose.
  apply list_fmap_ext. intros i r _. cbn. by apply get_set_ne.
Qed.

Lemma column_bound_ext c (df df' : list row) (P : Z → Prop) :
  get c <$> df' = get c <$> df →
  (∀ r, r ∈ df → P (get c r)) → ∀ r, r ∈ df' → P (get c r).
Proof.
  intros Heq HP r Hr.
  assert (Hin : get c r ∈ get c <$> df) by (rewrite <- Heq; by apply list_elem_of_fmap_2).
  apply list_elem_of_fmap in Hin as (r' & -> & Hr'). by apply HP.
Qed.

Lemma machine_auto_origin_df (df : list row) :
  (∀ r, r ∈ df → - 2 ^ 52 ≤ r_x_vox r < 2 ^ 52 ∧ - 2 ^ 52 ≤ r_y_vox r < 2 ^ 52
                 ∧ - 2 ^ 52 ≤ r_z_vox r < 2 ^ 52) →
  machine.auto_origin_df df = auto_origin_df df.
Proof.
  intros Hb. unfold machine.auto_origin_df, auto_origin_df.
  rewrite (machine_shift_column x_vox df) by (intros r Hr; apply (Hb r Hr)).
  rewrite (machine_shift_column y_vox).
  2:{ apply (column_bound_ext y_vox df _ (λ n, - 2 ^ 52 ≤ n < 2 ^ 52));
        [by apply shift_column_other|].
      intros r Hr. apply (Hb r Hr). }
  rewrite (machine_shift_column z_vox); [done|].
  apply (column_bound_ext z_vox df _ (λ n, - 2 ^ 52 ≤ n < 2 ^ 52)).
  - by rewrite !shift_column_other.
  - intros r Hr. apply (Hb r Hr).
Qed.

End int64.

Section machine_builder.
Variables bxy bz : Z.
Hypothesis Hxy : 0 < bxy.
Hypothesis Hz : 0 < bz.

Let bin_xy : Q := inject_Z bxy.
Let bin_z : Q := inject_Z bz.

Lemma bin_nonzero (b : Z) : 0 < b → ¬ (inject_Z b == 0)%Q.
Proof. intros Hb E. unfold Qeq in E. simpl in E. lia. Qed.

Lemma machine_voxelize_row (l : locsutil.loc) :
  small_loc l →
  machine.voxelize_row bin_xy bin_z l = locsutil.voxelize_row bin_xy bin_z l.
Proof.
  intros (Hx & Hy & Hzz).
  unfold machine.voxelize_row, locsutil.voxelize_row, locsutil.floordiv, bin_xy, bin_z.
  rewrite !(proj2 (Qeq_bool_neq _ 0)) by by apply bin_nonzero.
  by rewrite !floordiv_exact.
Qed.

Lemma machine_voxelize (locs : list locsutil.loc) :
  (∀ l, l ∈ locs → small_loc l) →
  machine.voxelize locs bin_xy bin_z = locsutil.voxelize locs bin_xy bin_z.
Proof.
  intros Hs. unfold machine.voxelize, locsutil.voxelize.
  apply list_fmap_ext. intros i l Hl%list_elem_of_lookup_2.
  by apply machine_voxelize_row, Hs.
Qed.

Lemma voxel_of_small (l : locsutil.loc) :
  small_loc l →
  - 2 ^ 52 ≤ (voxel_of bin_xy bin_z l).1.1 < 2 ^ 52
  ∧ - 2 ^ 52 ≤ (voxel_of bin_xy bin_z l).1.2 < 2 ^ 52
  ∧ - 2 ^ 52 ≤ (voxel_of bin_xy bin_z l).2 < 2 ^ 52.
Proof.
  intros (Hx & Hy & Hzz). unfold voxel_of, bin_xy, bin_z. cbn [fst snd].
  split; [|split]; by apply floor_range.
Qed.

(** On coordinates below [2 ^ 52] and positive integer bin sizes the
    builder in machine arithmetic is the exact one. *)
Lemma machine_voxel_grid (locs : list locsutil.loc) :
  (∀ l, l ∈ locs → small_loc l) →
  machine.voxel_grid (machine.voxelize locs bin_xy bin_z)
  = Ok (voxel_grid locs bin_xy bin_z).
Proof.
  intros Hs. pose proof (bin_nonzero bxy Hxy) as Hxy0.
  pose proof (bin_nonzero bz Hz) as Hz0. fold bin_xy in Hxy0. fold bin_z in Hz0.
  unfold machine.voxel_grid, voxel_grid. rewrite machine_voxelize by done.
  set (d := not_duplicated locsutil.vox_key [] (locsutil.voxelize locs bin_xy bin_z)).
  assert (Hd : ∀ v, v ∈ d →
            v = locsutil.voxelize_row bin_xy bin_z (locsutil.src v)
            ∧ locsutil.src v ∈ locs).
  { intros v Hv. by apply (dedup_voxelized bin_xy bin_z locs). }
  rewrite machine_astype_int.
  2:{ intros v Hv. destruct (Hd v Hv) as [Hv1 Hv2].
      exists (voxel_of bin_xy bin_z (locsutil.src v)). split.
      - rewrite Hv1 at 1. by apply vox_key_voxelize_row.
      - by apply voxel_of_small, Hs. }
  rewrite (astype_int_voxelized bin_xy bin_z) by (try done; intros v Hv; by apply Hd).
  unfold mbind, result_bind. f_equal. apply machine_auto_origin_df.
  intros r (v & -> & Hv)%list_elem_of_fmap. cbn [int_row r_x_vox r_y_vox r_z_vox].
  destruct (Hd v Hv) as [_ Hv2]. by apply voxel_of_small, Hs.
Qed.

End machine_builder.
(** * The VoxelGrid Builder: claim C3 *)

Lemma Qpos_nonzero (b : Q) : (0 < b)%Q → ¬ (b == 0)%Q.
Proof. intros Hb E. rewrite E in Hb. by apply Qlt_irrefl in Hb. Qed.




(** * The multi-scale sweep: claims C8, C7 and C6 *)










(** * The Shape Aggregator: claim C4 *)

Lemma subgroup_counts locs bin_xy bin_z i g :
  ¬ (bin_xy == 0)%Q → ¬ (bin_z == 0)%Q →
  (i, g) ∈ clusters (locsutil.voxelize locs bin_xy bin_z) →
  ∃ outs, Forall2 (λ sg out, count_exposed_faces sg.2 = Ok (counts out))
            (subgroups g) outs.
Proof.
  intros Hxy Hz Hg.
  assert (Hsub : ∀ sg, sg ∈ subgroups g →
            ∃ out, count_exposed_faces sg.2 = Ok (counts out)).
  { intros [h sg] Hsg.
    destruct (subgroup_voxelized _ _ _ _ _ _ _ Hg Hsg) as [Heq Hne].
    assert (Hls : locsutil.src <$> sg ≠ []).
    { intros E. apply fmap_nil_inv in E. done. }
    remember (locsutil.src <$> sg) as ls eqn:Els. clear Els.
    exists (pass_z (pass_y (pass_x (voxel_grid ls bin_xy bin_z)))).
    cbn [snd]. rewrite Heq.
    by rewrite (count_exposed_faces_voxelize bin_xy bin_z Hxy Hz ls Hls). }
  induction (subgroups g) as [|sg sgs IH].
  - exists []. constructor.
  - destruct (Hsub sg ltac:(left)) as [out Hout].
    destruct IH as [outs Houts]; [intros; apply Hsub; by right|].
    exists (out :: outs). by constructor.
Qed.

(** C4.  For every cluster, [analyze_clusters] returns the volume
    [total_voxel_count * bin_xy^2 * bin_z] and the surface area
    [(sum of xy_faces) * bin_xy * bin_z + (sum of z_faces) * bin_xy^2],
    where the voxels and their face counts are those of the tables that
    [count_exposed_faces] returns for the sub-groups of the cluster, and
    xy_faces of a voxel is x_faces + y_faces.  In the sweep, where
    [bin_xy = bin_z = bin], the recorded volume is [total_vox * bin^3] and
    the recorded surface [(xy_faces + z_faces) * bin^2], which are the same
    formulas at equal bin sizes. *)
Theorem aggregate_volume_surface (locs : list locsutil.loc) (bin_xy bin_z : Q) :
  ¬ (bin_xy == 0)%Q → ¬ (bin_z == 0)%Q →
  (∃ rows,
     analyze.analyze_clusters (locsutil.voxelize locs bin_xy bin_z) bin_xy bin_z
     = Ok rows
     ∧ Forall2
         (λ g cluster,
            analyze.row_id cluster = g.1
            ∧ ∃ outs : list (list row),
                Forall2 (λ sg out, count_exposed_faces sg.2 = Ok (counts out))
                  (subgroups g.2) outs
                ∧ (analyze.row_total_vox cluster
                   == inject_Z (Z.of_nat (length (concat outs))))%Q
                ∧ (analyze.row_vol_vox cluster
                   == inject_Z (Z.of_nat (length (concat outs)))
                      * bin_xy ^ 2 * bin_z)%Q
                ∧ (analyze.row_surf_area cluster
                   == inject_Z (sum_Z (xy_faces <$> concat outs)) * bin_xy * bin_z
                      + inject_Z (sum_Z (get z_faces <$> concat outs))
                        * bin_xy ^ 2)%Q)
         (clusters (locsutil.voxelize locs bin_xy bin_z)) rows)
  ∧ (∀ r, xy_faces r = get x_faces r + get y_faces r)
  ∧ (∀ bin acc, locs ≠ [] → bin ≠ 0 →
       ∃ out total_vox surf_vox xy zf acc',
         count_exposed_faces (locsutil.voxelize locs (inject_Z bin) (inject_Z bin))
         = Ok (out, total_vox, surf_vox, xy, zf)
         ∧ (out, total_vox, surf_vox, xy, zf) = counts out
         ∧ voxelscan.voxel_scan_bin locs acc bin = Ok acc'
         ∧ voxelscan.vol_list acc' = voxelscan.vol_list acc ++ [total_vox * bin ^ 3]
         ∧ voxelscan.surf_list acc'
           = voxelscan.surf_list acc ++ [(xy + zf) * bin ^ 2]
         ∧ (inject_Z (total_vox * bin ^ 3)
            == inject_Z total_vox * inject_Z bin ^ 2 * inject_Z bin)%Q
         ∧ (inject_Z ((xy + zf) * bin ^ 2)
            == inject_Z xy * inject_Z bin * inject_Z bin
               + inject_Z zf * inject_Z bin ^ 2)%Q).
Proof.
  intros Hxy Hz. split; [|split; [done|]].
  - unfold analyze.analyze_clusters. fold (clusters (locsutil.voxelize locs bin_xy bin_z)).
    match goal with |- ∃ rows, for_in ?items ?body [] = Ok rows ∧ Forall2 ?P _ rows =>
      destruct (for_in_append items body P) with (acc := @nil analyze.cluster_row)
        as (rows & Hrows & Hall)
    end.
    2:{ exists rows. by rewrite Hrows. }
    intros [i g] Hg.
    destruct (subgroup_counts locs bin_xy bin_z i g Hxy Hz Hg) as [outs Houts].
    destruct (add_subgroups (subgroups g) outs (analyze.Totals 0 0 0 0) Houts)
      as (t & Ht & H1 & H2 & H3 & H4).
    cbn [analyze.total_vox analyze.total_surf_vox analyze.total_xy_faces
         analyze.total_z_faces] in H1, H2, H3, H4.
    eexists. split.
    2:{ intros acc. unfold analyze.analyze_cluster. unfold subgroups in Ht.
        rewrite Ht. unfold mbind, result_bind. reflexivity. }
    cbn [analyze.row_id analyze.row_total_vox analyze.row_vol_vox
         analyze.row_surf_area fst snd].
    split; [done|]. exists outs. split; [done|].
    rewrite H1, H3, H4. repeat split; ring.
  - intros bin acc Hlocs Hbin.
    exists (scanned locs bin), (sample_total_vox locs bin), (sample_surf_vox locs bin),
      (sum_Z (xy_faces <$> scanned locs bin)), (sum_Z (get z_faces <$> scanned locs bin)).
    eexists. split; [by apply count_exposed_faces_bin|]. split; [done|].
    split; [by apply voxel_scan_bin_ok|].
    cbn [voxelscan.vol_list voxelscan.surf_list].
    split; [done|]. split; [done|].
    rewrite !inject_Z_mult, !inject_Z_plus.
    change (bin ^ 3) with (bin * (bin * (bin * 1))).
    change (bin ^ 2) with (bin * (bin * 1)).
    rewrite !inject_Z_mult.
    generalize (inject_Z (sample_total_vox locs bin)),
      (inject_Z (sum_Z (xy_faces <$> scanned locs bin))),
      (inject_Z (sum_Z (get z_faces <$> scanned locs bin))), (inject_Z bin).
    intros n a c b. split; simpl; ring.
Qed.

Lemma aggregate_volume_surface_witness :
  ¬ (50 == 0)%Q
  ∧ ∃ rows,
      analyze.analyze_clusters
        (locsutil.voxelize [locsutil.Loc 0 0 0 1 0; locsutil.Loc 60 0 0 1 0] 50 50)
        50 50 = Ok rows.
Proof.
  assert (H : ¬ (50 == 0)%Q) by (intros E; discriminate E).
  split; [exact H|].
  destruct (proj1 (aggregate_volume_surface
    [locsutil.Loc 0 0 0 1 0; locsutil.Loc 60 0 0 1 0] 50 50 H H))
    as (rows & Hrows & _).
  exists rows. exact Hrows.
Defined.

(** * Fit failures: claim C5 *)

(** C5, the code against the claim.  One cluster of three points, swept
    over the bins 10 and 15, with a solver that does not converge
    ([curve_fit] raises [RuntimeError]): [_analyze_vox] catches the
    exception but records nothing for the cluster in [params], so the
    lists of the table have different lengths and the construction of the
    table raises [ValueError].  No row is returned, where the same input
    with a converging solver gives the one row of the cluster. *)
Theorem fit_failure_aborts_batch :
  voxelscan._analyze_vox (λ _ _ _, Raise RuntimeError)
    [locsutil.Loc 0 0 0 1 0; locsutil.Loc 10 0 0 1 0; locsutil.Loc 20 0 0 1 0]
    10 20 5 1
  = Raise ValueError
  ∧ ∃ rows,
      voxelscan._analyze_vox (λ _ _ p0, Ok p0)
        [locsutil.Loc 0 0 0 1 0; locsutil.Loc 10 0 0 1 0; locsutil.Loc 20 0 0 1 0]
        10 20 5 1
      = Ok rows
      ∧ voxelscan.row_id <$> rows = [1].
Proof.
  set (locs := [locsutil.Loc 0 0 0 1 0; locsutil.Loc 10 0 0 1 0;
                locsutil.Loc 20 0 0 1 0]).
  assert (Hne : locs ≠ []) by discriminate.
  assert (Hg : groupby Z.le locsutil.id locs = [(1, locs)])
    by (vm_compute; reflexivity).
  assert (Hr : py_range 10 20 5 = Ok [10; 15]) by reflexivity.
  assert (Hscan := voxel_scan_ok locs Hne 10 20 5 [10; 15] Hr
            ltac:(repeat constructor; discriminate)).
  assert (Hmax : ∃ L0, voxelscan.py_max (sample_core_ratio locs <$> [10; 15]) = Ok L0)
    by (eexists; reflexivity).
  destruct Hmax as [L0 Hmax].
  assert (Hcut : ¬ Z.of_nat (length locs) < 1) by (simpl; lia).
  split.
  - eapply (fit_failure_raises _ locs 10 20 5 1).
    + rewrite Hg. cbn [for_in]. unfold voxelscan.analyze_group.
      rewrite decide_False by exact Hcut. rewrite Hscan.
      unfold mbind, result_bind, voxelscan.fit_sigmoid, mbind, result_bind.
      cbn [voxelscan.bin_list voxelscan.core_ratio_list]. rewrite Hmax.
      reflexivity.
    + exists (1, locs). split; [rewrite Hg; left|].
      split; [exact Hcut|]. eexists. split; [exact Hscan|].
      unfold voxelscan.fit_sigmoid, mbind, result_bind.
      cbn [voxelscan.bin_list voxelscan.core_ratio_list]. by rewrite Hmax.
  - unfold voxelscan._analyze_vox. rewrite Hg. cbn [for_in].
    unfold voxelscan.analyze_group.
    rewrite decide_False by exact Hcut. rewrite Hscan.
    unfold mbind, result_bind, voxelscan.fit_sigmoid, mbind, result_bind.
    cbn [voxelscan.bin_list voxelscan.core_ratio_list]. rewrite Hmax.
    eexists. split; reflexivity.
Qed.

(** * Translation and origin normalization: claim C9 *)

Section stov_reals.
Local Open Scope R_scope.

Lemma Rpower_two_thirds_cube (v : R) : 0 < v → Rpower v (2 / 3) ^ 3 = v ^ 2.
Proof.
  intros Hv.
  rewrite <- (Rpower_pow 3 (Rpower v (2 / 3))) by apply exp_pos.
  rewrite Rpower_mult.
  replace (2 / 3 * INR 3) with (INR 2) by (simpl; field).
  by rewrite Rpower_pow.
Qed.

(** Equal normalised ratios have equal cubes: [s1^3 / v1^2 = s2^3 / v2^2]. *)
Lemma stov_eq_cubes (s1 v1 s2 v2 : Z) :
  (0 < v1)%Z → (0 < v2)%Z →
  IZR s1 / Rpower (IZR v1) (2 / 3) = IZR s2 / Rpower (IZR v2) (2 / 3) →
  (s1 ^ 3 * v2 ^ 2 = s2 ^ 3 * v1 ^ 2)%Z.
Proof.
  intros Hv1 Hv2 Heq.
  assert (H1 : 0 < IZR v1) by by apply IZR_lt.
  assert (H2 : 0 < IZR v2) by by apply IZR_lt.
  pose proof (exp_pos (2 / 3 * ln (IZR v1))) as Hp1.
  pose proof (exp_pos (2 / 3 * ln (IZR v2))) as Hp2.
  fold (Rpower (IZR v1) (2 / 3)) in Hp1. fold (Rpower (IZR v2) (2 / 3)) in Hp2.
  assert (Hx : IZR s1 * Rpower (IZR v2) (2 / 3) = IZR s2 * Rpower (IZR v1) (2 / 3)).
  { apply (Rmult_eq_reg_r (/ (Rpower (IZR v1) (2 / 3) * Rpower (IZR v2) (2 / 3)))).
    - transitivity (IZR s1 / Rpower (IZR v1) (2 / 3)); [field; lra|].
      rewrite Heq. field. lra.
    - apply Rinv_neq_0_compat. nra. }
  apply (f_equal (λ x, x ^ 3)) in Hx. rewrite !Rpow_mult_distr in Hx.
  rewrite !Rpower_two_thirds_cube in Hx by done.
  apply eq_IZR. rewrite !mult_IZR.
  change 3%Z with (Z.of_nat 3). change 2%Z with (Z.of_nat 2).
  rewrite <- !pow_IZR. exact Hx.
Qed.

End stov_reals.




(** * Further properties of the scanner *)

Lemma scan_faces_all_perm_exposure rows :
  NoDup (coords <$> rows) →
  pass_z (pass_y (pass_x rows))
  ≡ₚ exposure (coords <$> rows) <$> (coords <$> rows).
Proof.
  intros Hnd. set (o := pass_z (pass_y (pass_x rows))).
  assert (Ho : o = exposure (coords <$> rows) <$> (coords <$> o)).
  { rewrite <- list_fmap_compose. rewrite <- (list_fmap_id o) at 1.
    apply list_fmap_ext. intros i r Hr. simpl.
    apply scan_faces_all_exposure; [done|]. by eapply list_elem_of_lookup_2. }
  rewrite Ho. apply fmap_Permutation, scan_faces_all_coords.
Qed.

(** X1.  On a grid without repeated voxels the scanner returns, up to row
    order, every voxel with face counts equal to the number of its
    unoccupied neighbours on each axis: the face count is what the
    glossary calls the exposed faces of the voxel. *)
Theorem exposed_faces_are_absent_neighbours (rows : list row) :
  NoDup (coords <$> rows) → rows ≠ [] →
  ∃ o, scan_faces_all (Table rows) = Ok (Table o)
    ∧ o ≡ₚ exposure (coords <$> rows) <$> (coords <$> rows).
Proof.
  intros Hnd Hne. eexists. split; [by apply scan_faces_all_eq|].
  by apply scan_faces_all_perm_exposure.
Qed.

Lemma exposed_faces_are_absent_neighbours_witness :
  NoDup (coords <$> [Row 1 1 1 0 0 0; Row 2 1 1 0 0 0])
  ∧ [Row 1 1 1 0 0 0; Row 2 1 1 0 0 0] ≠ []
  ∧ ∃ o, scan_faces_all (Table [Row 1 1 1 0 0 0; Row 2 1 1 0 0 0]) = Ok (Table o)
      ∧ o ≡ₚ [Row 1 1 1 1 2 2; Row 2 1 1 1 2 2].
Proof.
  assert (Hnd : NoDup (coords <$> [Row 1 1 1 0 0 0; Row 2 1 1 0 0 0]))
    by (apply (bool_decide_unpack _); vm_compute; exact I).
  assert (Hne : [Row 1 1 1 0 0 0; Row 2 1 1 0 0 0] ≠ []) by discriminate.
  split; [exact Hnd|]. split; [exact Hne|].
  exact (exposed_faces_are_absent_neighbours _ Hnd Hne).
Defined.

Lemma total_faces_exposure grid c :
  total_faces (exposure grid c) = sum_Z (absent grid <$> neighbours c).
Proof.
  destruct c as [[x y] z]. unfold total_faces, exposure, neighbours, sum_Z.
  simpl. lia.
Qed.

Lemma sum_absent_zero {A : Type} `{EqDecision A} (grid l : list A) :
  sum_Z (absent grid <$> l) = 0 ↔ ∀ c, c ∈ l → c ∈ grid.
Proof.
  unfold sum_Z. induction l as [|a l IH]; csimpl.
  - split; [by intros _ c ?%elem_of_nil|done].
  - assert (Hnn : 0 ≤ foldr Z.add 0 (absent grid <$> l)).
    { clear. induction l as [|b l IH]; csimpl; [done|].
      destruct (absent_cases grid b) as [->| ->]; lia. }
    unfold absent at 1. destruct (decide (a ∈ grid)) as [Hin|Hnin].
    + rewrite Z.add_0_l, IH. split.
      * intros H c [->|?]%elem_of_cons; auto.
      * intros H c Hc. apply H. by right.
    + split; [lia|]. intros H. destruct Hnin. apply H. left.
Qed.

Lemma extract_core_calculated (o : list row) :
  extract_core (Calculated (add_face_columns o))
  = Ok (Calculated (add_face_columns (filter (λ r, total_faces r = 0) o))).
Proof.
  unfold extract_core, add_face_columns. do 2 f_equal.
  induction o as [|r o IH]; [done|].
  rewrite fmap_cons, !filter_cons. cbn [c_total_faces].
  destruct (decide (total_faces r = 0)); [rewrite fmap_cons|]; by rewrite IH.
Qed.

Lemma extract_surface_calculated (o : list row) :
  extract_surface (Calculated (add_face_columns o))
  = Ok (Calculated (add_face_columns (surface_rows o))).
Proof.
  unfold extract_surface, add_face_columns, surface_rows. do 2 f_equal.
  induction o as [|r o IH]; [done|].
  rewrite fmap_cons, !filter_cons. cbn [c_total_faces].
  destruct (decide (total_faces r ≠ 0)); [rewrite fmap_cons|]; by rewrite IH.
Qed.

Lemma scanned_row_add_face_columns (o : list row) :
  scanned_row <$> add_face_columns o = o.
Proof.
  unfold add_face_columns. induction o as [|r o IH]; [done|].
  by rewrite !fmap_cons, IH.
Qed.

(** X2.  [extract_core] and [extract_surface] read the column
    [total_faces], which only [count_exposed_faces] adds: on the table as
    the scanner returns it both raise [KeyError].  On that table with the
    two added columns they split it: a voxel is a core voxel exactly when
    its six axis neighbours are all occupied, and a surface voxel
    otherwise; the surface voxels are the rows that [count_exposed_faces]
    counts. *)
Theorem core_voxels_are_interior (rows o : list row) :
  NoDup (coords <$> rows) → scan_faces_all (Table rows) = Ok (Table o) →
  extract_core (Scanned o) = Raise KeyError
  ∧ extract_surface (Scanned o) = Raise KeyError
  ∧ ∃ core surface,
      extract_core (Calculated (add_face_columns o)) = Ok (Calculated core)
      ∧ extract_surface (Calculated (add_face_columns o)) = Ok (Calculated surface)
      ∧ (∀ r, r ∈ scanned_row <$> core
              ↔ r ∈ o ∧ ∀ c, c ∈ neighbours (coords r) → c ∈ coords <$> rows)
      ∧ (∀ r, r ∈ scanned_row <$> surface
              ↔ r ∈ o ∧ ∃ c, c ∈ neighbours (coords r) ∧ c ∉ coords <$> rows)
      ∧ (length surface + length core)%nat = length o
      ∧ scanned_row <$> surface = surface_rows o.
Proof.
  intros Hnd [Hne [= ->]]%scan_faces_all_rows.
  split; [reflexivity|]. split; [reflexivity|].
  set (o := pass_z (pass_y (pass_x rows))).
  assert (Htf : ∀ r, r ∈ o →
            total_faces r = 0 ↔ ∀ c, c ∈ neighbours (coords r) → c ∈ coords <$> rows).
  { intros r Hr. rewrite (scan_faces_all_exposure rows r Hnd Hr) at 1.
    by rewrite total_faces_exposure, sum_absent_zero. }
  exists (add_face_columns (filter (λ r, total_faces r = 0) o)),
    (add_face_columns (surface_rows o)).
  split; [apply extract_core_calculated|].
  split; [apply extract_surface_calculated|].
  rewrite !scanned_row_add_face_columns.
  unfold add_face_columns. rewrite !length_fmap. unfold surface_rows.
  split; [|split; [|split; [|reflexivity]]].
  - intros r. rewrite list_elem_of_filter. split.
    + intros [H0 Hr]. split; [done|]. by apply Htf.
    + intros [Hr H]. split; [|done]. by apply Htf.
  - intros r. rewrite list_elem_of_filter. split.
    + intros [H0 Hr]. split; [done|].
      destruct (decide (Forall (λ c, c ∈ coords <$> rows) (neighbours (coords r))))
        as [Hall|Hex].
      * destruct H0. apply Htf; [done|]. by apply Forall_forall.
      * apply not_Forall_Exists in Hex; [|apply _].
        apply Exists_exists in Hex as (c & Hc & Hn). by exists c.
    + intros [Hr (c & Hc & Hn)]. split; [|done].
      intros H0. apply Hn. by apply (Htf r Hr).
  - rewrite <- length_app. apply Permutation_length.
    rewrite Permutation_app_comm. apply (filter_app_complement (λ r, total_faces r = 0)).
Qed.

Lemma core_voxels_are_interior_witness :
  NoDup (coords <$> [Row 1 1 1 0 0 0; Row 2 1 1 0 0 0])
  ∧ extract_core (Scanned [Row 1 1 1 1 2 2; Row 2 1 1 1 2 2]) = Raise KeyError.
Proof.
  assert (Hnd : NoDup (coords <$> [Row 1 1 1 0 0 0; Row 2 1 1 0 0 0]))
    by (apply (bool_decide_unpack _); vm_compute; exact I).
  split; [exact Hnd|].
  exact (proj1 (core_voxels_are_interior
    [Row 1 1 1 0 0 0; Row 2 1 1 0 0 0] [Row 1 1 1 1 2 2; Row 2 1 1 1 2 2]
    Hnd eq_refl)).
Defined.

(** * Further properties of [count_exposed_faces] *)

Lemma counts_perm o1 o2 :
  o1 ≡ₚ o2 →
  (counts o1).1.1.1.2 = (counts o2).1.1.1.2 ∧ (counts o1).1.1.2 = (counts o2).1.1.2
  ∧ (counts o1).1.2 = (counts o2).1.2 ∧ (counts o1).2 = (counts o2).2.
Proof.
  intros Hp. unfold counts, surface_rows. cbn [fst snd].
  split; [by rewrite Hp|]. split; [by rewrite Hp|].
  split; apply sum_Z_perm; by apply fmap_Permutation.
Qed.

Lemma col_min_unique c (df df' : list row) :
  df ≠ [] → (∀ r, r ∈ df ↔ r ∈ df') → col_min c df = col_min c df'.
Proof.
  intros Hne Hiff.
  assert (Hne' : df' ≠ []).
  { destruct df as [|r df]; [done|]. intros ->.
    assert (r ∈ @nil row) as Hin by (apply Hiff; left). by apply elem_of_nil in Hin. }
  destruct (col_min_elem c df Hne) as (r & Hr & Hmin).
  destruct (col_min_elem c df' Hne') as (r' & Hr' & Hmin').
  pose proof (col_min_le c df r' (proj2 (Hiff r') Hr')).
  pose proof (col_min_le c df' r (proj1 (Hiff r) Hr)). lia.
Qed.

Section voxel_set.
Variables (bin_xy bin_z : Q).
Hypothesis Hxy : ¬ (bin_xy == 0)%Q.
Hypothesis Hz : ¬ (bin_z == 0)%Q.

Lemma voxel_grid_coords_perm locs1 locs2 :
  locs1 ≠ [] →
  (∀ c, c ∈ voxel_of bin_xy bin_z <$> locs1 ↔ c ∈ voxel_of bin_xy bin_z <$> locs2) →
  coords <$> voxel_grid locs1 bin_xy bin_z ≡ₚ coords <$> voxel_grid locs2 bin_xy bin_z.
Proof.
  intros Hne Hset.
  rewrite !(voxel_grid_coords bin_xy bin_z).
  set (vs1 := (λ v, voxel_of bin_xy bin_z (locsutil.src v))
                <$> not_duplicated locsutil.vox_key []
                      (locsutil.voxelize locs1 bin_xy bin_z)).
  set (vs2 := (λ v, voxel_of bin_xy bin_z (locsutil.src v))
                <$> not_duplicated locsutil.vox_key []
                      (locsutil.voxelize locs2 bin_xy bin_z)).
  assert (Hvs : ∀ c, c ∈ vs1 ↔ c ∈ vs2).
  { intros c. unfold vs1, vs2.
    by rewrite !(dedup_voxels bin_xy bin_z Hxy Hz). }
  assert (Hperm : vs1 ≡ₚ vs2).
  { apply NoDup_Permutation; [by apply dedup_voxels_NoDup..|done]. }
  assert (Hne1 : int_row <$> vs1 ≠ []).
  { destruct locs1 as [|l locs1]; [done|].
    assert (voxel_of bin_xy bin_z l ∈ vs1) as Hin.
    { apply (dedup_voxels bin_xy bin_z Hxy Hz). rewrite fmap_cons. left. }
    intros E. apply fmap_nil_inv in E. rewrite E in Hin. by apply elem_of_nil in Hin. }
  assert (Hrows : ∀ r, r ∈ int_row <$> vs1 ↔ r ∈ int_row <$> vs2).
  { intros r. rewrite !list_elem_of_fmap. by setoid_rewrite Hvs. }
  unfold corner.
  rewrite (col_min_unique x_vox _ _ Hne1 Hrows),
    (col_min_unique y_vox _ _ Hne1 Hrows), (col_min_unique z_vox _ _ Hne1 Hrows).
  by apply fmap_Permutation.
Qed.

Lemma scanned_grids_perm locs1 locs2 :
  locs1 ≠ [] →
  (∀ c, c ∈ voxel_of bin_xy bin_z <$> locs1 ↔ c ∈ voxel_of bin_xy bin_z <$> locs2) →
  pass_z (pass_y (pass_x (voxel_grid locs1 bin_xy bin_z)))
  ≡ₚ pass_z (pass_y (pass_x (voxel_grid locs2 bin_xy bin_z))).
Proof.
  intros Hne Hset.
  pose proof (voxel_grid_coords_perm locs1 locs2 Hne Hset) as Hp.
  rewrite !scan_faces_all_perm_exposure by by apply voxel_grid_NoDup.
  etrans; [apply fmap_Permutation, Hp|].
  apply reflexive_eq, list_fmap_ext. intros i [[x y] z] _.
  unfold exposure. by rewrite !(absent_perm _ _ _ Hp).
Qed.

End voxel_set.



(** * Bounds on the counts, and degenerate inputs *)

Lemma sum_Z_bounds {A : Type} (f : A → Z) (l : list A) (a b : Z) :
  (∀ x, x ∈ l → a ≤ f x ≤ b) →
  a * Z.of_nat (length l) ≤ sum_Z (f <$> l) ≤ b * Z.of_nat (length l).
Proof.
  unfold sum_Z. induction l as [|x l IH]; intros Hf; csimpl; [lia|].
  pose proof (Hf x ltac:(left)).
  pose proof (IH (λ y Hy, Hf y ltac:(by right))). lia.
Qed.

Lemma exposure_faces_range grid c :
  0 ≤ xy_faces (exposure grid c) ≤ 4 ∧ 0 ≤ get z_faces (exposure grid c) ≤ 2.
Proof.
  destruct c as [[x y] z]. unfold xy_faces, exposure. simpl.
  repeat match goal with
  | |- context [absent ?l ?c] =>
      let H := fresh in destruct (absent_cases l c) as [H|H]; rewrite H; clear H
  end; lia.
Qed.

(** A grid with at least one voxel has a surface voxel: a voxel with the
    least x coordinate has no neighbour below it. *)
Lemma surface_nonempty rows :
  NoDup (coords <$> rows) → rows ≠ [] →
  surface_rows (pass_z (pass_y (pass_x rows))) ≠ [].
Proof.
  intros Hnd Hne.
  destruct (col_min_elem x_vox rows Hne) as (r0 & Hr0 & Hmin).
  assert (Hin : coords r0 ∈ coords <$> pass_z (pass_y (pass_x rows))).
  { rewrite scan_faces_all_coords. by apply list_elem_of_fmap_2. }
  apply list_elem_of_fmap in Hin as (r & Hc & Hr).
  assert (Hs : r ∈ surface_rows (pass_z (pass_y (pass_x rows)))).
  { unfold surface_rows. apply list_elem_of_filter. split; [|done].
    rewrite (scan_faces_all_exposure rows r Hnd Hr).
    rewrite total_faces_exposure, sum_absent_zero. intros Hall.
    assert (Hn : (r_x_vox r - 1, r_y_vox r, r_z_vox r) ∈ coords <$> rows).
    { apply Hall. destruct r. simpl. left. }
    apply list_elem_of_fmap in Hn as (r' & Heq & Hr').
    pose proof (col_min_le x_vox rows r' Hr') as Hle.
    destruct r, r0, r'. unfold coords in *. simpl in *. simplify_eq. lia. }
  intros E. rewrite E in Hs. by apply elem_of_nil in Hs.
Qed.

Lemma truediv_bounds (n s : Z) q :
  1 ≤ s ≤ n → voxelscan.truediv (n - s) n = Ok q → (0 <= q)%Q ∧ (q < 1)%Q.
Proof.
  intros Hs. unfold voxelscan.truediv. rewrite decide_False by lia.
  intros [= <-]. split.
  - apply Qle_shift_div_l; [by rewrite <- (Zlt_Qlt 0); lia|].
    rewrite Qmult_0_l. rewrite <- (Zle_Qle 0). lia.
  - apply Qlt_shift_div_r; [by rewrite <- (Zlt_Qlt 0); lia|].
    rewrite Qmult_1_l. rewrite <- Zlt_Qlt. lia.
Qed.

(** X4.  Whenever [count_exposed_faces] returns on voxelized points, at
    least one voxel is a surface voxel and at most all are, the xy face
    sum is at most 4 per voxel and the z face sum at most 2 per voxel; so
    the core ratio [(total_vox - surf_vox) / total_vox] of the sweep is
    defined and lies in [0, 1): no cluster is all core. *)
Theorem surface_count_bounds (locs : list locsutil.loc) (bin_xy bin_z : Q)
    (o : list row) (total_vox surf_vox xy zf : Z) :
  ¬ (bin_xy == 0)%Q → ¬ (bin_z == 0)%Q →
  count_exposed_faces (locsutil.voxelize locs bin_xy bin_z)
  = Ok (o, total_vox, surf_vox, xy, zf) →
  1 ≤ surf_vox ≤ total_vox
  ∧ 0 ≤ xy ≤ 4 * total_vox
  ∧ 0 ≤ zf ≤ 2 * total_vox
  ∧ ∃ q, voxelscan.truediv (total_vox - surf_vox) total_vox = Ok q
      ∧ (0 <= q)%Q ∧ (q < 1)%Q.
Proof.
  intros Hxy Hz Hc.
  assert (Hne : locs ≠ []) by (intros ->; vm_compute in Hc; discriminate Hc).
  pose proof (count_exposed_faces_voxelize bin_xy bin_z Hxy Hz locs Hne) as Heq.
  cbv zeta in Heq.
  pose proof (voxel_grid_NoDup bin_xy bin_z Hxy Hz locs) as Hnd.
  pose proof (voxel_grid_nonempty bin_xy bin_z locs Hne) as Hgne.
  generalize dependent (voxel_grid locs bin_xy bin_z).
  intros grid Heq Hnd Hgne.
  pose proof (surface_nonempty grid Hnd Hgne) as Hsurf.
  assert (Hrange : ∀ r, r ∈ pass_z (pass_y (pass_x grid)) →
            0 ≤ xy_faces r ≤ 4 ∧ 0 ≤ get z_faces r ≤ 2).
  { intros r Hr. rewrite (scan_faces_all_exposure grid r Hnd Hr).
    apply exposure_faces_range. }
  generalize dependent (pass_z (pass_y (pass_x grid))).
  intros out Heq Hsurf Hrange.
  rewrite Heq in Hc.
  injection Hc as <- <- <- <- <-.
  assert (H1 : 1 ≤ Z.of_nat (length (surface_rows out)) ≤ Z.of_nat (length out)).
  { split.
    - destruct (surface_rows out); [done|]. simpl. lia.
    - apply inj_le. unfold surface_rows. apply length_filter. }
  pose proof (sum_Z_bounds xy_faces out 0 4 (λ r Hr, proj1 (Hrange r Hr))).
  pose proof (sum_Z_bounds (get z_faces) out 0 2 (λ r Hr, proj2 (Hrange r Hr))).
  split; [done|]. split; [lia|]. split; [lia|].
  destruct (voxelscan.truediv _ _) as [q|e] eqn:Hq.
  - exists q. split; [done|]. by eapply truediv_bounds.
  - unfold voxelscan.truediv in Hq. rewrite decide_False in Hq by lia. done.
Qed.

Lemma surface_count_bounds_witness :
  ¬ (15 == 0)%Q
  ∧ count_exposed_faces (locsutil.voxelize [locsutil.Loc 0 0 0 1 0] 15 15)
    = Ok ([Row 1 1 1 2 2 2], 1, 1, 4, 2)
  ∧ 1 ≤ 1 ≤ 1.
Proof.
  assert (H15 : ¬ (15 == 0)%Q) by (intros E; discriminate E).
  assert (Hc : count_exposed_faces (locsutil.voxelize [locsutil.Loc 0 0 0 1 0] 15 15)
               = Ok ([Row 1 1 1 2 2 2], 1, 1, 4, 2)) by reflexivity.
  split; [exact H15|]. split; [exact Hc|].
  exact (proj1 (surface_count_bounds _ 15 15 _ _ _ _ _ H15 H15 Hc)).
Defined.



(** X6.  A bin size of zero is not rejected by [voxelize]: it fills the
    voxel columns with non-finite values, and [count_exposed_faces] raises
    at the integer cast.  A sweep that starts at bin size 0 ends with that
    exception at its first bin. *)
Theorem zero_bin_raises (locs : list locsutil.loc) (bin_z : Q) :
  locs ≠ [] →
  (∀ v, v ∈ locsutil.voxelize locs 0 bin_z → ∀ n, locsutil.x_vox v ≠ locsutil.Fin n)
  ∧ count_exposed_faces (locsutil.voxelize locs 0 bin_z) = Raise IntCastingNaNError
  ∧ ∀ bin_max step, 0 < bin_max → 0 < step →
      voxelscan.voxel_scan locs 0 bin_max step = Raise IntCastingNaNError.
Proof.
  intros Hne.
  assert (Hnf : ∀ bz v, v ∈ locsutil.voxelize locs 0 bz →
            ∀ n, locsutil.x_vox v ≠ locsutil.Fin n).
  { intros bz v (l & -> & _)%list_elem_of_fmap n. apply floordiv_zero. }
  assert (Hc : ∀ bz, count_exposed_faces (locsutil.voxelize locs 0 bz)
                     = Raise IntCastingNaNError).
  { intros bz. unfold count_exposed_faces.
    destruct (not_duplicated locsutil.vox_key [] (locsutil.voxelize locs 0 bz))
      as [|v d] eqn:Hd.
    { exfalso. revert Hd. apply not_duplicated_nonempty. by destruct locs. }
    rewrite (astype_int_nonfinite (v :: d) v); [done|left|].
    apply (Hnf bz). apply (not_duplicated_sublist locsutil.vox_key []).
    rewrite Hd. left. }
  split; [apply Hnf|]. split; [apply Hc|].
  intros bin_max step Hmax Hstep. unfold voxelscan.voxel_scan.
  rewrite py_range_pos by done. rewrite decide_True by done.
  assert (0 ≤ (bin_max - 0 - 1) / step) by (apply Z.div_pos; lia).
  destruct (Z.to_nat ((bin_max - 0 - 1) / step + 1)) as [|n] eqn:Hn; [lia|].
  unfold mbind, result_bind. cbn [seq fmap list_fmap for_in].
  unfold voxelscan.voxel_scan_bin.
  replace (inject_Z (0 + Z.of_nat 0 * step)) with 0%Q by reflexivity.
  by rewrite Hc.
Qed.

Lemma zero_bin_raises_witness :
  [locsutil.Loc 1 2 3 1 0] ≠ []
  ∧ count_exposed_faces (locsutil.voxelize [locsutil.Loc 1 2 3 1 0] 0 50)
    = Raise IntCastingNaNError.
Proof.
  assert (Hne : [locsutil.Loc 1 2 3 1 0] ≠ []) by discriminate.
  split; [exact Hne|].
  exact (proj1 (proj2 (zero_bin_raises _ 50 Hne))).
Defined.

(** * The table of [_analyze_vox]: success, empty range, failed fits *)

Section analyze_vox_table.
Variable curve_fit : list Z → list Q → Q * Q * Q → result (Q * Q * Q).
Variables bin_min bin_max step cutoff : Z.

Lemma make_rows_snoc c1 c2 c3 c4 c5 c6 c7 c8 c9 rows a1 a2 a3 a4 a5 a6 a7 a8 a9 :
  voxelscan.make_rows c1 c2 c3 c4 c5 c6 c7 c8 c9 = Ok rows →
  voxelscan.make_rows (c1 ++ [a1]) (c2 ++ [a2]) (c3 ++ [a3]) (c4 ++ [a4])
    (c5 ++ [a5]) (c6 ++ [a6]) (c7 ++ [a7]) (c8 ++ [a8]) (c9 ++ [a9])
  = Ok (rows ++ [voxelscan.ClusterRow a1 a2 a3 a4 a5 a6 a7 a8 a9]).
Proof.
  revert c2 c3 c4 c5 c6 c7 c8 c9 rows.
  induction c1 as [|b1 c1 IH]; intros c2 c3 c4 c5 c6 c7 c8 c9 rows;
    destruct c2, c3, c4, c5, c6, c7, c8, c9; try discriminate.
  - intros [= <-]. reflexivity.
  - cbn [voxelscan.make_rows]. unfold mbind, result_bind.
    destruct (voxelscan.make_rows c1 c2 c3 c4 c5 c6 c7 c8 c9) as [rs|] eqn:Hrs;
      [|discriminate].
    intros [= <-]. rewrite <- !app_comm_cons. cbn [voxelscan.make_rows].
    rewrite (IH _ _ _ _ _ _ _ _ _ Hrs). reflexivity.
Qed.

Lemma analyze_group_skip acc i (locs_group : list locsutil.loc) :
  Z.of_nat (length locs_group) < cutoff →
  voxelscan.analyze_group curve_fit bin_min bin_max step cutoff acc (i, locs_group)
  = Ok acc.
Proof.
  intros Hlt. unfold voxelscan.analyze_group. by rewrite decide_True.
Qed.

(** The step of the loop for a cluster that is processed, once the sweep
    has returned. *)
Lemma analyze_group_step acc i (locs_group : list locsutil.loc) sl :
  ¬ Z.of_nat (length locs_group) < cutoff →
  voxelscan.voxel_scan locs_group bin_min bin_max step = Ok sl →
  voxelscan.analyze_group curve_fit bin_min bin_max step cutoff acc (i, locs_group)
  = let acc' := {|
      voxelscan._id := voxelscan._id acc ++ [i];
      voxelscan.total_locs :=
        voxelscan.total_locs acc ++ [Z.of_nat (length locs_group)];
      voxelscan.num_clusters := voxelscan.num_clusters acc ++
        [Z.of_nat (length (remove_dups (locsutil.hdbscan <$> locs_group)))];
      voxelscan.bins := voxelscan.bins acc ++ [voxelscan.bin_list sl];
      voxelscan.vols := voxelscan.vols acc ++ [voxelscan.vol_list sl];
      voxelscan.surfs := voxelscan.surfs acc ++ [voxelscan.surf_list sl];
      voxelscan.stovs := voxelscan.stovs acc ++ [voxelscan.stov_list sl];
      voxelscan.core_ratios :=
        voxelscan.core_ratios acc ++ [voxelscan.core_ratio_list sl];
      voxelscan.params := voxelscan.params acc |} in
    match voxelscan.fit_sigmoid curve_fit (voxelscan.bin_list sl)
            (voxelscan.core_ratio_list sl) with
    | Ok popt =>
        Ok {| voxelscan._id := voxelscan._id acc';
              voxelscan.total_locs := voxelscan.total_locs acc';
              voxelscan.num_clusters := voxelscan.num_clusters acc';
              voxelscan.bins := voxelscan.bins acc';
              voxelscan.vols := voxelscan.vols acc';
              voxelscan.surfs := voxelscan.surfs acc';
              voxelscan.stovs := voxelscan.stovs acc';
              voxelscan.core_ratios := voxelscan.core_ratios acc';
              voxelscan.params := voxelscan.params acc' ++ [popt] |}
    | Raise RuntimeError => Ok acc'
    | Raise e => Raise e
    end.
Proof.
  intros Hge Hsl. unfold voxelscan.analyze_group.
  rewrite decide_False by done. rewrite Hsl. reflexivity.
Qed.

Lemma groupby_nonempty (locs : list locsutil.loc) :
  Forall (λ g : Z * list locsutil.loc, g.2 ≠ []) (groupby Z.le locsutil.id locs).
Proof.
  apply Forall_forall. intros [k g] Hg.
  by destruct (elem_of_groupby Z.le locsutil.id locs k g Hg) as (_ & _ & ?).
Qed.

Lemma analyze_groups_rows bins (groups : list (Z * list locsutil.loc)) :
  py_range bin_min bin_max step = Ok bins → Forall (λ b, b ≠ 0) bins →
  Forall (λ g : Z * list locsutil.loc, g.2 ≠ []) groups →
  (∀ g, g ∈ groups → ¬ Z.of_nat (length g.2) < cutoff →
        ∃ popt, voxelscan.fit_sigmoid curve_fit bins (sample_core_ratio g.2 <$> bins)
                = Ok popt) →
  ∀ acc rows0, voxelscan.DataFrame_of acc = Ok rows0 →
  ∃ c rows,
    for_in groups (voxelscan.analyze_group curve_fit bin_min bin_max step cutoff) acc
    = Ok c
    ∧ voxelscan.DataFrame_of c = Ok (rows0 ++ rows)
    ∧ Forall2 (λ row g,
        ∃ popt, voxelscan.fit_sigmoid curve_fit bins (sample_core_ratio g.2 <$> bins)
                = Ok popt ∧ row = table_row bins g popt)
        rows (filter (λ g, ¬ Z.of_nat (length g.2) < cutoff) groups).
Proof.
  intros Hbins Hnz Hne. induction Hne as [|[i lg] groups Hlg Hne IH];
    intros Hfit acc rows0 Hacc.
  - exists acc, []. rewrite app_nil_r. split; [done|]. split; [done|]. constructor.
  - cbn [for_in]. cbn [snd] in Hlg.
    destruct (decide (Z.of_nat (length lg) < cutoff)) as [Hlt|Hge].
    + rewrite analyze_group_skip by done. unfold mbind, result_bind.
      rewrite filter_cons_False by (cbn [snd]; tauto).
      apply IH; [|done]. intros g Hg. apply Hfit. by right.
    + destruct (Hfit (i, lg) ltac:(left) Hge) as [popt Hpopt]. cbn [snd] in Hpopt.
      rewrite (analyze_group_step acc i lg _ Hge
                 (voxel_scan_ok lg Hlg bin_min bin_max step bins Hbins Hnz)).
      cbn zeta. cbn [voxelscan.bin_list voxelscan.core_ratio_list voxelscan.vol_list
                     voxelscan.surf_list voxelscan.stov_list].
      rewrite Hpopt. unfold mbind, result_bind.
      cbn [voxelscan._id voxelscan.total_locs voxelscan.num_clusters voxelscan.bins
           voxelscan.vols voxelscan.surfs voxelscan.stovs voxelscan.core_ratios
           voxelscan.params].
      match goal with |- ∃ c rows, for_in _ _ ?a = _ ∧ _ =>
        destruct (IH (λ g Hg, Hfit g ltac:(by right)) a
                    (rows0 ++ [table_row bins (i, lg) popt]))
          as (c & rows & Hc & Hdf & Hrows)
      end.
      { unfold voxelscan.DataFrame_of in *.
        cbn [voxelscan._id voxelscan.total_locs voxelscan.num_clusters voxelscan.bins
             voxelscan.vols voxelscan.surfs voxelscan.stovs voxelscan.core_ratios
             voxelscan.params].
        by apply make_rows_snoc. }
      exists c, (table_row bins (i, lg) popt :: rows).
      split; [done|]. split; [by rewrite Hdf, <- app_assoc|].
      rewrite filter_cons_True by done. constructor; [|done]. by exists popt.
Qed.

Lemma analyze_groups_empty_range (groups : list (Z * list locsutil.loc)) acc :
  0 < step → bin_max ≤ bin_min →
  for_in groups (voxelscan.analyze_group curve_fit bin_min bin_max step cutoff) acc
  = if decide (filter (λ g, ¬ Z.of_nat (length g.2) < cutoff) groups = [])
    then Ok acc else Raise ValueError.
Proof.
  intros Hs Hle. induction groups as [|[i lg] groups IH]; [done|].
  cbn [for_in].
  destruct (decide (Z.of_nat (length lg) < cutoff)) as [Hlt|Hge].
  - rewrite analyze_group_skip by done. unfold mbind, result_bind.
    rewrite filter_cons_False by (cbn [snd]; tauto). done.
  - assert (Hsl : voxelscan.voxel_scan lg bin_min bin_max step
                  = Ok (voxelscan.ScanLists [] [] [] [] [])).
    { unfold voxelscan.voxel_scan. by rewrite py_range_empty. }
    rewrite (analyze_group_step acc i lg _ Hge Hsl).
    rewrite filter_cons_True by done. reflexivity.
Qed.

Lemma table_rows_ids bins (rows : list voxelscan.cluster_row)
    (gs : list (Z * list locsutil.loc)) :
  Forall2 (λ row g,
    ∃ popt, voxelscan.fit_sigmoid curve_fit bins (sample_core_ratio g.2 <$> bins)
            = Ok popt ∧ row = table_row bins g popt) rows gs →
  voxelscan.row_id <$> rows = gs.*1.
Proof.
  induction 1 as [|row g rows gs (popt & _ & ->) _ IH]; [done|].
  rewrite !fmap_cons, IH. reflexivity.
Qed.

End analyze_vox_table.

(** X7.  With a positive first bin size and a positive step, and a fit
    that converges for every processed cluster, [_analyze_vox] returns
    one row per cluster with at least [cutoff] localizations, in
    ascending order of the cluster id: the row holds the id, the number
    of localizations, the number of distinct hdbscan labels, the bin
    sizes of the range, the four lists of the sweep of that cluster over
    these bins, and the fitted parameters. *)
Theorem analyze_vox_table
    (curve_fit : list Z → list Q → Q * Q * Q → result (Q * Q * Q))
    (locs : list locsutil.loc) (bin_min bin_max step cutoff : Z) (bins : list Z) :
  0 < bin_min → 0 < step →
  py_range bin_min bin_max step = Ok bins →
  (∀ g, g ∈ processed locs cutoff →
        ∃ popt, voxelscan.fit_sigmoid curve_fit bins (sample_core_ratio g.2 <$> bins)
                = Ok popt) →
  ∃ rows,
    voxelscan._analyze_vox curve_fit locs bin_min bin_max step cutoff = Ok rows
    ∧ Forall2 (λ row g,
        ∃ popt, voxelscan.fit_sigmoid curve_fit bins (sample_core_ratio g.2 <$> bins)
                = Ok popt ∧ row = table_row bins g popt)
        rows (processed locs cutoff)
    ∧ StronglySorted Z.lt (voxelscan.row_id <$> rows).
Proof.
  intros Hmin Hstep Hbins Hfit.
  assert (Hnz : Forall (λ b, b ≠ 0) bins).
  { apply Forall_forall. intros b Hb.
    pose proof (py_range_positive _ _ _ _ b Hstep Hmin Hbins Hb). lia. }
  destruct (analyze_groups_rows curve_fit bin_min bin_max step cutoff bins
              (groupby Z.le locsutil.id locs) Hbins Hnz (groupby_nonempty locs))
    with (acc := voxelscan.Columns [] [] [] [] [] [] [] [] []) (rows0 := @nil voxelscan.cluster_row)
    as (c & rows & Hc & Hdf & Hrows); [|done|].
  { intros g Hg Hge. apply Hfit. unfold processed. by apply list_elem_of_filter. }
  exists rows. unfold voxelscan._analyze_vox. rewrite Hc.
  split; [exact Hdf|]. split; [exact Hrows|].
  rewrite (table_rows_ids curve_fit bins rows (processed locs cutoff) Hrows).
  unfold processed.
  assert (Hs : StronglySorted Z.lt (groupby Z.le locsutil.id locs).*1).
  { rewrite groupby_keys. apply Sorted_le_NoDup_lt.
    - apply Sorted_group_keys. apply _.
    - apply NoDup_group_keys. }
  revert Hs. generalize (groupby Z.le locsutil.id locs). intros gs.
  induction gs as [|g gs IH]; [constructor|].
  csimpl. intros [Hgs Hall]%StronglySorted_inv.
  destruct (decide (¬ Z.of_nat (length g.2) < cutoff)) as [Hk|Hk].
  - rewrite filter_cons_True by done. csimpl. constructor; [by apply IH|].
    apply Forall_forall. intros k (g' & -> & Hg'%list_elem_of_filter)%list_elem_of_fmap.
    rewrite Forall_forall in Hall. apply Hall. apply list_elem_of_fmap_2. tauto.
  - rewrite filter_cons_False by done. by apply IH.
Qed.

Lemma analyze_vox_table_witness :
  0 < 10 ∧ py_range 10 20 10 = Ok [10]
  ∧ ∃ rows,
      voxelscan._analyze_vox (λ _ _ p0, Ok p0) [locsutil.Loc 0 0 0 1 0] 10 20 10 1
      = Ok rows
      ∧ Forall2 (λ row g,
          ∃ popt, voxelscan.fit_sigmoid (λ _ _ p0, Ok p0) [10]
                    (sample_core_ratio g.2 <$> [10]) = Ok popt
                  ∧ row = table_row [10] g popt)
          rows (processed [locsutil.Loc 0 0 0 1 0] 1)
      ∧ StronglySorted Z.lt (voxelscan.row_id <$> rows).
Proof.
  assert (H10 : 0 < 10) by lia.
  assert (Hr : py_range 10 20 10 = Ok [10]) by reflexivity.
  split; [exact H10|]. split; [exact Hr|].
  apply (analyze_vox_table (λ _ _ p0, Ok p0) [locsutil.Loc 0 0 0 1 0]
           10 20 10 1 [10] H10 H10 Hr).
  intros g _. eexists. unfold voxelscan.fit_sigmoid.
  rewrite list_fmap_singleton. reflexivity.
Defined.

(** X8.  When the range of bin sizes is empty (positive step, [bin_max]
    not above [bin_min]), [_analyze_vox] returns the empty table if no
    cluster reaches the cutoff; as soon as one cluster is processed, the
    sweep gives empty lists, [max] of the empty list of core ratios raises
    [ValueError] in [fit_sigmoid], and the call ends with that exception,
    whatever the solver does. *)
Theorem analyze_vox_empty_range
    (curve_fit : list Z → list Q → Q * Q * Q → result (Q * Q * Q))
    (locs : list locsutil.loc) (bin_min bin_max step cutoff : Z) :
  0 < step → bin_max ≤ bin_min →
  voxelscan._analyze_vox curve_fit locs bin_min bin_max step cutoff
  = if decide (processed locs cutoff = []) then Ok [] else Raise ValueError.
Proof.
  intros Hs Hle. unfold voxelscan._analyze_vox.
  rewrite analyze_groups_empty_range by done. fold (processed locs cutoff).
  by destruct (decide (processed locs cutoff = [])).
Qed.

Lemma analyze_vox_empty_range_witness :
  0 < 5
  ∧ voxelscan._analyze_vox (λ _ _ p0, Ok p0) [locsutil.Loc 0 0 0 1 0] 20 20 5 1
    = Raise ValueError.
Proof.
  assert (H5 : 0 < 5) by lia.
  split; [exact H5|].
  exact (analyze_vox_empty_range (λ _ _ p0, Ok p0) [locsutil.Loc 0 0 0 1 0]
           20 20 5 1 H5 ltac:(lia)).
Defined.

(** X9.  With a positive first bin size and a positive step and a solver
    that either converges or raises [RuntimeError], one processed cluster
    whose fit does not converge is enough for [_analyze_vox] to raise
    [ValueError]: the loop runs to its end, but the list of parameters is
    shorter than the other lists and the table cannot be built.  The
    results of all the other clusters are lost with it. *)
Theorem nonconverging_fit_loses_table
    (curve_fit : list Z → list Q → Q * Q * Q → result (Q * Q * Q))
    (locs : list locsutil.loc) (bin_min bin_max step cutoff : Z)
    (g : Z * list locsutil.loc) :
  0 < bin_min → 0 < step →
  (∀ _x _y p0 e, curve_fit _x _y p0 = Raise e → e = RuntimeError) →
  g ∈ groupby Z.le locsutil.id locs →
  fit_fails curve_fit bin_min bin_max step cutoff g →
  voxelscan._analyze_vox curve_fit locs bin_min bin_max step cutoff
  = Raise ValueError.
Proof.
  intros Hmin Hstep Hcf Hg Hfail.
  destruct (py_range bin_min bin_max step) as [bins|e] eqn:Hbins;
    [|by rewrite py_range_pos in Hbins].
  assert (Hnz : Forall (λ b, b ≠ 0) bins).
  { apply Forall_forall. intros b Hb.
    pose proof (py_range_positive _ _ _ _ b Hstep Hmin Hbins Hb). lia. }
  assert (Hbne : bins ≠ []).
  { destruct Hfail as (_ & sl & Hsl & Hf). destruct g as [i lg]. cbn [snd] in *.
    assert (Hlg : lg ≠ []).
    { by destruct (elem_of_groupby Z.le locsutil.id locs i lg Hg) as (_ & _ & ?). }
    rewrite (voxel_scan_ok lg Hlg bin_min bin_max step bins Hbins Hnz) in Hsl.
    injection Hsl as <-. intros ->. discriminate Hf. }
  assert (Hloop : ∀ groups acc,
    Forall (λ g : Z * list locsutil.loc, g.2 ≠ []) groups →
    ∃ c, for_in groups
           (voxelscan.analyze_group curve_fit bin_min bin_max step cutoff) acc = Ok c).
  { intros groups acc Hne. revert acc.
    induction Hne as [|[i lg] groups Hlg Hne IH]; intros acc; [by exists acc|].
    cbn [for_in]. cbn [snd] in Hlg.
    destruct (decide (Z.of_nat (length lg) < cutoff)) as [Hlt|Hge].
    - rewrite analyze_group_skip by done. apply IH.
    - rewrite (analyze_group_step curve_fit bin_min bin_max step cutoff acc i lg _ Hge
                 (voxel_scan_ok lg Hlg bin_min bin_max step bins Hbins Hnz)).
      cbn zeta. cbn [voxelscan.bin_list voxelscan.core_ratio_list].
      unfold voxelscan.fit_sigmoid.
      destruct bins as [|b bins]; [done|]. rewrite fmap_cons.
      cbn [voxelscan.py_max]. unfold mbind, result_bind. cbn beta iota.
      match goal with |- context [curve_fit ?a ?b ?p] =>
        destruct (curve_fit a b p) as [popt|e] eqn:Hfit end.
      + apply IH.
      + rewrite (Hcf _ _ _ _ Hfit). apply IH. }
  destruct (Hloop (groupby Z.le locsutil.id locs)
              (voxelscan.Columns [] [] [] [] [] [] [] [] []) (groupby_nonempty locs))
    as [c Hc].
  apply (fit_failure_raises curve_fit locs bin_min bin_max step cutoff c Hc).
  by exists g.
Qed.

Lemma nonconverging_fit_loses_table_witness :
  0 < 10
  ∧ voxelscan._analyze_vox (λ _ _ _, Raise RuntimeError)
      [locsutil.Loc 0 0 0 1 0] 10 20 10 1
    = Raise ValueError.
Proof.
  assert (H10 : 0 < 10) by lia.
  split; [exact H10|].
  apply (nonconverging_fit_loses_table (λ _ _ _, Raise RuntimeError)
           [locsutil.Loc 0 0 0 1 0] 10 20 10 1 (1, [locsutil.Loc 0 0 0 1 0]) H10 H10).
  - intros _ _ _ e [= <-]. reflexivity.
  - left.
  - split; [cbn; lia|].
    eexists. split; [apply (voxel_scan_ok [locsutil.Loc 0 0 0 1 0] ltac:(done)
                              10 20 10 [10] eq_refl);
                     repeat constructor; lia|].
    reflexivity.
Defined.

(** * The filters of [clean_locs] *)

Section clean_locs.
Import locsutil.clean.
Variables max_dzcalib max_lp min_z max_z : Q.
Variable max_photon : Z.

Lemma keep_le_spec col bound (data : list loc) r :
  r ∈ keep_le col bound data ↔ r ∈ data ∧ (col r <= bound)%Q.
Proof.
  unfold keep_le. rewrite list_elem_of_filter, Is_true_true, Qle_bool_iff. tauto.
Qed.

Lemma keep_ge_spec col bound (data : list loc) r :
  r ∈ keep_ge col bound data ↔ r ∈ data ∧ (bound <= col r)%Q.
Proof.
  unfold keep_ge. rewrite list_elem_of_filter, Is_true_true, Qle_bool_iff. tauto.
Qed.

Lemma Qeq_bool_false (a b : Q) : Qeq_bool a b = false ↔ ¬ (a == b)%Q.
Proof.
  rewrite <- Qeq_bool_iff. destruct (Qeq_bool a b); split; try done;
    intros H; exfalso; by apply H.
Qed.

(** [clean_locs] is one filter: the conjunction of the active bounds. *)
Lemma clean_locs_filter :
  ∃ (P : loc → Prop) (HP : ∀ r, Decision (P r)),
    (∀ r, P r ↔ within_bounds max_dzcalib max_lp min_z max_z max_photon r)
    ∧ ∀ data, clean_locs data max_dzcalib max_lp min_z max_z max_photon
              = filter P data.
Proof.
  assert (Hid : ∀ data : list loc, data = filter (λ _, True) data).
  { intros data. symmetry. by apply filter_all. }
  unfold clean_locs, within_bounds, keep_le, keep_ge.
  destruct (Qeq_bool max_dzcalib 0) eqn:H1;
  destruct (Qeq_bool max_lp 0) eqn:H2;
  destruct (Qeq_bool min_z (-99999 # 10)) eqn:H3;
  destruct (Qeq_bool max_z (99999 # 10)) eqn:H4;
  destruct (decide (max_photon = -1)) as [H5|H5];
  repeat match goal with
  | H : Qeq_bool _ _ = true |- _ => apply Qeq_bool_iff in H
  | H : Qeq_bool _ _ = false |- _ => apply Qeq_bool_false in H
  end;
  eexists _, _;
  (split; [|intros data; rewrite ?list_filter_filter; first [reflexivity|apply Hid]]);
  intros r; cbn beta; rewrite ?Is_true_true, ?Qle_bool_iff; tauto.
Qed.

End clean_locs.

(** X10.  [clean_locs] keeps exactly the rows that satisfy every active
    bound, in their original order: a row is in the result if and only
    if it is in the input and within the bounds, where a parameter equal
    to its switch-off value (0, 0, -9999.9, 9999.9, -1) asks nothing.
    Cleaning a cleaned table with the same parameters changes nothing,
    and with the five switch-off values the table is returned as it is. *)
Theorem clean_locs_keeps_rows_within_bounds (data : list locsutil.clean.loc)
    (max_dzcalib max_lp min_z max_z : Q) (max_photon : Z) :
  let cleaned :=
    locsutil.clean.clean_locs data max_dzcalib max_lp min_z max_z max_photon in
  (∀ r, r ∈ cleaned
        ↔ r ∈ data ∧ within_bounds max_dzcalib max_lp min_z max_z max_photon r)
  ∧ cleaned `sublist_of` data
  ∧ locsutil.clean.clean_locs cleaned max_dzcalib max_lp min_z max_z max_photon
    = cleaned
  ∧ locsutil.clean.clean_locs data 0 0 (-99999 # 10) (99999 # 10) (-1) = data.
Proof.
  intros cleaned. subst cleaned.
  destruct (clean_locs_filter max_dzcalib max_lp min_z max_z max_photon)
    as (P & HP & HPw & Hf).
  rewrite !Hf. split; [|split; [|split]].
  - intros r. rewrite list_elem_of_filter, HPw. tauto.
  - apply sublist_filter.
  - rewrite list_filter_filter. apply list_filter_iff. tauto.
  - reflexivity.
Qed.

(** * [extract_cluster] and [sigmoid] *)

Lemma sum_Z_ones {A : Type} (l : list A) :
  sum_Z ((λ _, 1) <$> l) = Z.of_nat (length l).
Proof.
  unfold sum_Z. induction l as [|a l IH]; [done|]. csimpl. rewrite IH. lia.
Qed.

Lemma sum_Z_lengths {A : Type} (ls : list (list A)) :
  sum_Z ((λ l, Z.of_nat (length l)) <$> ls) = Z.of_nat (length (concat ls)).
Proof.
  unfold sum_Z. induction ls as [|l ls IH]; [done|].
  csimpl. rewrite IH, length_app. lia.
Qed.

(** X11.  [extract_cluster] returns one count per distinct hdbscan label,
    the labels in ascending order; the count of a label is the number of
    rows that carry it, so it is at least 1, and the counts add up to the
    number of rows of the table. *)
Theorem extract_cluster_counts (df : list locsutil.loc) :
  StronglySorted Z.lt (extract_cluster df).*1
  ∧ (∀ h, h ∈ (extract_cluster df).*1 ↔ h ∈ locsutil.hdbscan <$> df)
  ∧ (∀ h n, (h, n) ∈ extract_cluster df →
       n = Z.of_nat (length (filter (λ l, locsutil.hdbscan l = h) df)) ∧ 1 ≤ n)
  ∧ sum_Z (extract_cluster df).*2 = Z.of_nat (length df).
Proof.
  assert (Hk : (extract_cluster df).*1 = group_keys Z.le locsutil.hdbscan df).
  { unfold extract_cluster. rewrite <- list_fmap_compose.
    rewrite <- groupby_keys. by apply list_fmap_ext. }
  split; [|split; [|split]].
  - rewrite Hk. apply Sorted_le_NoDup_lt.
    + apply Sorted_group_keys. apply _.
    + apply NoDup_group_keys.
  - intros h. rewrite Hk. apply elem_of_group_keys.
  - intros h n. unfold extract_cluster.
    intros ([k g] & [= -> ->] & Hg)%list_elem_of_fmap. cbn [fst snd].
    destruct (elem_of_groupby Z.le locsutil.hdbscan df k g Hg) as (-> & _ & Hne).
    rewrite sum_Z_ones. split; [done|].
    destruct (filter _ df); [done|]. simpl. lia.
  - unfold extract_cluster. rewrite <- list_fmap_compose.
    rewrite (list_fmap_ext _ ((λ l, Z.of_nat (length l)) ∘ snd) (groupby Z.le locsutil.hdbscan df))
      by (intros ? [k g] _; apply sum_Z_ones).
    rewrite list_fmap_compose, sum_Z_lengths.
    by rewrite (groupby_partition Z.le locsutil.hdbscan df).
Qed.

Lemma extract_cluster_counts_witness :
  (3, 2) ∈ extract_cluster
             [locsutil.Loc 0 0 0 1 3; locsutil.Loc 0 0 0 1 0; locsutil.Loc 1 1 1 1 3]
  ∧ 1 ≤ 2.
Proof.
  assert (Hin : (3, 2) ∈ extract_cluster
             [locsutil.Loc 0 0 0 1 3; locsutil.Loc 0 0 0 1 0; locsutil.Loc 1 1 1 1 3]).
  { apply list_elem_of_In. vm_compute. tauto. }
  split; [exact Hin|].
  exact (proj2 (proj1 (proj2 (proj2 (extract_cluster_counts _))) 3 2 Hin)).
Defined.

Section sigmoid.
Local Open Scope R_scope.

Lemma sigmoid_denominator_pos (x x0 k : R) : 1 < 1 + exp (- k * (x - x0)).
Proof. pose proof (exp_pos (- k * (x - x0))). lra. Qed.

(** X12.  The model curve [sigmoid]: at [x = x0] its value is [L / 2];
    it is point-symmetric about [(x0, L / 2)]; for a positive [L] its
    values lie strictly between 0 and [L]; and for positive [L] and [k] it
    is strictly increasing in [x]. *)
Theorem sigmoid_shape (L x0 k : R) :
  sigmoid x0 L x0 k = L / 2
  ∧ (∀ d, sigmoid (x0 + d) L x0 k + sigmoid (x0 - d) L x0 k = L)
  ∧ (0 < L → ∀ x, 0 < sigmoid x L x0 k < L)
  ∧ (0 < L → 0 < k → ∀ x y, x < y → sigmoid x L x0 k < sigmoid y L x0 k).
Proof.
  unfold sigmoid. split; [|split; [|split]].
  - replace (- k * (x0 - x0)) with 0 by ring. rewrite exp_0. field.
  - intros d.
    replace (- k * (x0 + d - x0)) with (- (k * d)) by ring.
    replace (- k * (x0 - d - x0)) with (k * d) by ring.
    rewrite exp_Ropp. pose proof (exp_pos (k * d)). field. lra.
  - intros HL x. pose proof (sigmoid_denominator_pos x x0 k) as Hd.
    split.
    + apply Rdiv_lt_0_compat; lra.
    + apply (Rmult_lt_reg_r (1 + exp (- k * (x - x0)))); [lra|].
      unfold Rdiv. rewrite Rmult_assoc, Rinv_l by lra. nra.
  - intros HL Hk x y Hxy.
    pose proof (sigmoid_denominator_pos x x0 k) as Hdx.
    pose proof (sigmoid_denominator_pos y x0 k) as Hdy.
    assert (He : exp (- k * (y - x0)) < exp (- k * (x - x0))).
    { apply exp_increasing. nra. }
    unfold Rdiv. apply Rmult_lt_compat_l; [done|].
    apply Rinv_lt_contravar; [nra|lra].
Qed.

Lemma sigmoid_shape_witness : 0 < sigmoid 0 1 0 1 < 1.
Proof.
  apply (proj1 (proj2 (proj2 (sigmoid_shape 1 0 1)))). lra.
Defined.

End sigmoid.

(** * The table of [analyze_data] *)

Lemma Forall2_fmap_eq {A B C : Type} (f : A → C) (g : B → C)
    (l1 : list A) (l2 : list B) :
  Forall2 (λ a b, g b = f a) l1 l2 → g <$> l2 = f <$> l1.
Proof.
  induction 1 as [|a b l1 l2 Hab _ IH]; [done|]. by rewrite !fmap_cons, Hab, IH.
Qed.

Lemma Forall2_elem_of_r {A B : Type} (P : A → B → Prop)
    (l1 : list A) (l2 : list B) (b : B) :
  Forall2 P l1 l2 → b ∈ l2 → ∃ a, a ∈ l1 ∧ P a b.
Proof.
  induction 1 as [|a b' l1 l2 Hab _ IH]; intros Hb.
  - by apply elem_of_nil in Hb.
  - apply elem_of_cons in Hb as [->|Hb].
    + exists a. split; [left|done].
    + destruct (IH Hb) as (a' & Ha' & HP). exists a'. split; [by right|done].
Qed.

Section analyze_data.
Variable data : list locsutil.loc.
Variables bin_xy bin_z : Q.
Hypothesis Hxy : ¬ (bin_xy == 0)%Q.
Hypothesis Hz : ¬ (bin_z == 0)%Q.

Lemma clusters_keys (locs : list locsutil.loc) :
  (clusters (locsutil.voxelize locs bin_xy bin_z)).*1
  = group_keys Z.le locsutil.id locs.
Proof.
  unfold clusters. rewrite groupby_keys. unfold group_keys.
  rewrite (list_fmap_compose locsutil.src locsutil.id).
  by rewrite voxelize_src.
Qed.

Lemma clusters_members (locs : list locsutil.loc) i g :
  (i, g) ∈ clusters (locsutil.voxelize locs bin_xy bin_z) →
  locsutil.src <$> g = filter (λ l, locsutil.id l = i) locs.
Proof.
  intros (-> & _ & _)%elem_of_groupby.
  rewrite (voxelize_filter locsutil.id i). apply voxelize_src.
Qed.

Lemma filter_id_decoded i :
  i ≠ -1 →
  filter (λ l, locsutil.id l = i) (filter (λ l, locsutil.id l ≠ -1) data)
  = filter (λ l, locsutil.id l = i) data.
Proof.
  intros Hi. rewrite list_filter_filter. apply list_filter_iff.
  intros l. split; [tauto|]. intros ->. done.
Qed.

(** The loop of [analyze_clusters] returns, with one row per cluster. *)
Lemma analyze_clusters_rows (locs : list locsutil.loc) :
  ∃ rows,
    analyze.analyze_clusters (locsutil.voxelize locs bin_xy bin_z) bin_xy bin_z
    = Ok rows
    ∧ Forall2 (λ g row,
        analyze.row_id row = g.1
        ∧ analyze.row_total_locs row = Z.of_nat (length g.2)
        ∧ analyze.row_com row = analyze.calc_com (locsutil.src <$> g.2))
        (clusters (locsutil.voxelize locs bin_xy bin_z)) rows.
Proof.
  unfold analyze.analyze_clusters. fold (clusters (locsutil.voxelize locs bin_xy bin_z)).
  match goal with |- ∃ rows, for_in ?items ?body [] = Ok rows ∧ Forall2 ?P _ rows =>
    destruct (for_in_append items body P) with (acc := @nil analyze.cluster_row)
      as (rows & Hrows & Hall)
  end.
  2:{ exists rows. by rewrite Hrows. }
  intros [i g] Hg.
  destruct (subgroup_counts locs bin_xy bin_z i g Hxy Hz Hg) as [outs Houts].
  destruct (add_subgroups (subgroups g) outs (analyze.Totals 0 0 0 0) Houts)
    as (t & Ht & _).
  eexists. split.
  2:{ intros acc. unfold analyze.analyze_cluster. unfold subgroups in Ht.
      rewrite Ht. unfold mbind, result_bind. reflexivity. }
  cbn [analyze.row_id analyze.row_total_locs analyze.row_com fst snd]. done.
Qed.

End analyze_data.



(** * Zero bin sizes in [analyze_data] *)

Lemma groupby_head {A : Type} (key : A → Z) (df : list A) :
  df ≠ [] →
  ∃ k g rest, groupby Z.le key df = (k, g) :: rest ∧ g ≠ [] ∧ ∀ r, r ∈ g → r ∈ df.
Proof.
  intros Hne. destruct (groupby Z.le key df) as [|[k g] rest] eqn:Hg.
  - exfalso. apply Hne. apply (group_keys_nil Z.le key).
    by rewrite <- groupby_keys, Hg.
  - exists k, g, rest. split; [done|].
    destruct (elem_of_groupby Z.le key df k g) as (-> & _ & Hgne).
    { rewrite Hg. left. }
    split; [done|]. by intros r [_ Hr]%list_elem_of_filter.
Qed.

Lemma add_subgroup_raises (t : analyze.totals) (sg : Z * list locsutil.voxelized) e :
  count_exposed_faces sg.2 = Raise e → analyze.add_subgroup t sg = Raise e.
Proof. unfold analyze.add_subgroup. by intros ->. Qed.

Lemma analyze_cluster_raises bin_xy bin_z acc i (g : list locsutil.voxelized) :
  g ≠ [] →
  (∀ v, v ∈ g → (∀ n, locsutil.x_vox v ≠ locsutil.Fin n)
                ∨ (∀ n, locsutil.z_vox v ≠ locsutil.Fin n)) →
  analyze.analyze_cluster bin_xy bin_z acc (i, g) = Raise IntCastingNaNError.
Proof.
  intros Hgne Hnf. unfold analyze.analyze_cluster.
  destruct (groupby_head (λ v, locsutil.hdbscan (locsutil.src v)) g Hgne)
    as (h & sg & rest & -> & Hsgne & Hsg).
  cbn [for_in]. rewrite (add_subgroup_raises _ (h, sg) IntCastingNaNError); [done|].
  apply (count_exposed_faces_raises sg Hsgne).
  intros v Hv. apply Hnf, Hsg, Hv.
Qed.

(** X14.  [analyze_data] does not reject a bin size of zero: as soon as
    the table has one localization with an id other than -1, the voxel
    columns of the first sub-group of the first cluster are not finite and
    the call ends with the exception of the integer cast. *)
Theorem analyze_data_zero_bin (data : list locsutil.loc) (bin_xy bin_z : Q)
    (l : locsutil.loc) :
  (bin_xy == 0)%Q ∨ (bin_z == 0)%Q →
  l ∈ data → locsutil.id l ≠ -1 →
  analyze.analyze_data data bin_xy bin_z = Raise IntCastingNaNError.
Proof.
  intros Hbin Hl Hid. unfold analyze.analyze_data.
  set (decoded := filter (λ l, locsutil.id l ≠ -1) data).
  assert (Hne : locsutil.voxelize decoded bin_xy bin_z ≠ []).
  { assert (Hin : l ∈ decoded) by by apply list_elem_of_filter.
    intros E%fmap_nil_inv. rewrite E in Hin. by apply elem_of_nil in Hin. }
  assert (Hnf : ∀ v, v ∈ locsutil.voxelize decoded bin_xy bin_z →
            (∀ n, locsutil.x_vox v ≠ locsutil.Fin n)
            ∨ (∀ n, locsutil.z_vox v ≠ locsutil.Fin n)).
  { intros v (l' & -> & _)%list_elem_of_fmap. cbn [locsutil.voxelize_row
      locsutil.x_vox locsutil.z_vox].
    destruct Hbin as [Hb|Hb]; [left|right]; by apply floordiv_by_zero. }
  unfold analyze.analyze_clusters.
  destruct (groupby_head (λ v, locsutil.id (locsutil.src v)) _ Hne)
    as (i & g & rest & -> & Hgne & Hg).
  cbn [for_in]. rewrite analyze_cluster_raises; [done..|].
  intros v Hv. apply Hnf, Hg, Hv.
Qed.

Lemma analyze_data_zero_bin_witness :
  ((0 == 0)%Q ∨ (50 == 0)%Q)
  ∧ analyze.analyze_data [locsutil.Loc 1 2 3 7 0] 0 50 = Raise IntCastingNaNError.
Proof.
  assert (H0 : (0 == 0)%Q ∨ (50 == 0)%Q) by (left; reflexivity).
  split; [exact H0|].
  apply (analyze_data_zero_bin [locsutil.Loc 1 2 3 7 0] 0 50 (locsutil.Loc 1 2 3 7 0) H0).
  - left.
  - cbn. lia.
Defined.

(** * Centre of mass and radius of gyration under a translation *)

Section translation_of_points.
Local Open Scope Q_scope.

Lemma sum_Q_ext {A : Type} (f g : A → Q) (l : list A) :
  (∀ a, a ∈ l → f a == g a) → analyze.sum_Q (f <$> l) == analyze.sum_Q (g <$> l).
Proof.
  unfold analyze.sum_Q. induction l as [|a l IH]; intros Hfg; [reflexivity|].
  rewrite !fmap_cons. cbn [foldr].
  rewrite (Hfg a) by left. rewrite IH; [reflexivity|].
  intros a' Ha'. apply Hfg. by right.
Qed.

Lemma sum_Q_shift (d : Q) (l : list Q) :
  analyze.sum_Q ((λ v, v + d) <$> l)
  == analyze.sum_Q l + inject_Z (Z.of_nat (length l)) * d.
Proof.
  unfold analyze.sum_Q. induction l as [|a l IH].
  - cbn. ring.
  - rewrite fmap_cons. cbn [foldr length]. rewrite IH.
    rewrite Nat2Z.inj_succ. unfold Z.succ. rewrite inject_Z_plus. ring.
Qed.

Lemma mean_shift (d : Q) (l : list Q) :
  l ≠ [] → analyze.mean ((λ v, v + d) <$> l) == analyze.mean l + d.
Proof.
  intros Hne. unfold analyze.mean. rewrite sum_Q_shift, length_fmap.
  assert (Hn : ¬ inject_Z (Z.of_nat (length l)) == 0).
  { destruct l; [done|]. unfold Qeq. simpl. lia. }
  by field.
Qed.

Lemma calc_com_translate (dx dy dz : Q) (locs : list locsutil.loc) :
  locs ≠ [] →
  (analyze.calc_com (translate_loc dx dy dz <$> locs)).1.1
  == (analyze.calc_com locs).1.1 + dx
  ∧ (analyze.calc_com (translate_loc dx dy dz <$> locs)).1.2
    == (analyze.calc_com locs).1.2 + dy
  ∧ (analyze.calc_com (translate_loc dx dy dz <$> locs)).2
    == (analyze.calc_com locs).2 + dz.
Proof.
  intros Hne. unfold analyze.calc_com. cbn [fst snd].
  assert (Hne' : ∀ f : locsutil.loc → Q, f <$> locs ≠ []).
  { intros f E%fmap_nil_inv. done. }
  rewrite <- !list_fmap_compose.
  rewrite <- (mean_shift dx (locsutil.x_nm <$> locs)) by done.
  rewrite <- (mean_shift dy (locsutil.y_nm <$> locs)) by done.
  rewrite <- (mean_shift dz (locsutil.z <$> locs)) by done.
  rewrite <- !list_fmap_compose. repeat split; reflexivity.
Qed.

End translation_of_points.

(** X15.  In exact arithmetic, moving all the points of a cluster by the
    same offset moves the centre of mass of [calc_com] by that offset and
    leaves the radius of gyration about the centre of mass unchanged. *)
Theorem radius_of_gyration_translation (locs : list locsutil.loc) (dx dy dz : Q) :
  locs ≠ [] →
  ((analyze.calc_com (translate_loc dx dy dz <$> locs)).1.1
   == (analyze.calc_com locs).1.1 + dx)%Q
  ∧ ((analyze.calc_com (translate_loc dx dy dz <$> locs)).1.2
     == (analyze.calc_com locs).1.2 + dy)%Q
  ∧ ((analyze.calc_com (translate_loc dx dy dz <$> locs)).2
     == (analyze.calc_com locs).2 + dz)%Q
  ∧ analyze.gyration_radius (translate_loc dx dy dz <$> locs)
      (analyze.calc_com (translate_loc dx dy dz <$> locs))
    = analyze.gyration_radius locs (analyze.calc_com locs).
Proof.
  intros Hne.
  destruct (calc_com_translate dx dy dz locs Hne) as (Hx & Hy & Hz).
  split; [done|]. split; [done|]. split; [done|].
  destruct (analyze.calc_com (translate_loc dx dy dz <$> locs)) as [[cx' cy'] cz'].
  destruct (analyze.calc_com locs) as [[cx cy] cz].
  cbn [fst snd] in Hx, Hy, Hz.
  unfold analyze.gyration_radius. f_equal. apply Qreals.Qeq_eqR.
  rewrite length_fmap, <- list_fmap_compose.
  apply Qdiv_comp; [|reflexivity].
  apply sum_Q_ext. intros l _. unfold compose, translate_loc.
  cbn [locsutil.x_nm locsutil.y_nm locsutil.z].
  rewrite Hx, Hy, Hz. ring.
Qed.

Lemma radius_of_gyration_translation_witness :
  [locsutil.Loc 0 0 0 1 0; locsutil.Loc 2 0 0 1 0] ≠ []
  ∧ analyze.gyration_radius
      (translate_loc 10 20 30 <$> [locsutil.Loc 0 0 0 1 0; locsutil.Loc 2 0 0 1 0])
      (analyze.calc_com
         (translate_loc 10 20 30 <$> [locsutil.Loc 0 0 0 1 0; locsutil.Loc 2 0 0 1 0]))
    = analyze.gyration_radius [locsutil.Loc 0 0 0 1 0; locsutil.Loc 2 0 0 1 0]
        (analyze.calc_com [locsutil.Loc 0 0 0 1 0; locsutil.Loc 2 0 0 1 0]).
Proof.
  assert (Hne : [locsutil.Loc 0 0 0 1 0; locsutil.Loc 2 0 0 1 0] ≠ []) by discriminate.
  split; [exact Hne|].
  exact (proj2 (proj2 (proj2 (radius_of_gyration_translation _ 10 20 30 Hne)))).
Defined.

(** * [get_status]: the fields of a file name *)

Section get_status.
Import locsutil.status.
Variable chars : str.

Lemma lstrip_app_chars (p t : str) :
  Forall (λ c, c ∈ chars) p → lstrip chars (p ++ t) = lstrip chars t.
Proof.
  induction 1 as [|c p Hc _ IH]; [done|].
  cbn [app lstrip]. by rewrite decide_True.
Qed.

Lemma lstrip_kept (s : str) :
  (∀ c, head s = Some c → c ∉ chars) → lstrip chars s = s.
Proof.
  destruct s as [|c s]; [done|]. intros Hc. cbn [lstrip].
  rewrite decide_False; [done|]. by apply Hc.
Qed.

Lemma strip_removes_characters (p s q : str) :
  Forall (λ c, c ∈ chars) p → Forall (λ c, c ∈ chars) q →
  (∀ c, head s = Some c → c ∉ chars) → (∀ c, last s = Some c → c ∉ chars) →
  strip chars (p ++ s ++ q) = s.
Proof.
  intros Hp Hq Hh Hl. unfold strip.
  rewrite lstrip_app_chars by done.
  destruct s as [|c s].
  - rewrite app_nil_l. rewrite <- (app_nil_r q) at 1.
    rewrite lstrip_app_chars by done. cbn [lstrip reverse]. 
    rewrite <- (app_nil_r (reverse [])). done.
  - rewrite (lstrip_kept ((c :: s) ++ q)) by exact Hh.
    rewrite reverse_app, lstrip_app_chars by by apply Forall_reverse.
    rewrite (lstrip_kept (reverse (c :: s))); [by rewrite reverse_involutive|].
    intros c'. rewrite head_reverse. apply Hl.
Qed.

End get_status.

(** X16.  [get_status] strips characters, not the suffix [.hdf5]: every
    leading and trailing character of the name that is one of [.], [h],
    [d], [f], [5] is removed before the name is split at [_].  For a name
    [p ++ s ++ q], where [p] and [q] consist of such characters and [s]
    neither starts nor ends with one, the status is the status of [s]; in
    particular the status of [s ++ ".hdf5"] is that of [s]. *)
Theorem get_status_strips_characters (p s q : locsutil.status.str) :
  Forall (λ c, c ∈ ["."; "h"; "d"; "f"; "5"]%char) p →
  Forall (λ c, c ∈ ["."; "h"; "d"; "f"; "5"]%char) q →
  (∀ c, head s = Some c → c ∉ ["."; "h"; "d"; "f"; "5"]%char) →
  (∀ c, last s = Some c → c ∉ ["."; "h"; "d"; "f"; "5"]%char) →
  locsutil.status.strip ["."; "h"; "d"; "f"; "5"]%char (p ++ s ++ q) = s
  ∧ locsutil.status.get_status (p ++ s ++ q) = locsutil.status.get_status s
  ∧ locsutil.status.get_status (s ++ ["."; "h"; "d"; "f"; "5"]%char)
    = locsutil.status.get_status s.
Proof.
  intros Hp Hq Hh Hl.
  pose proof (strip_removes_characters _ p s q Hp Hq Hh Hl) as H1.
  pose proof (strip_removes_characters _ [] s [] ltac:(constructor)
                ltac:(constructor) Hh Hl) as H2.
  pose proof (strip_removes_characters ["."; "h"; "d"; "f"; "5"]%char [] s
                ["."; "h"; "d"; "f"; "5"]%char ltac:(constructor)) as H3.
  rewrite app_nil_l, app_nil_r in H2. rewrite app_nil_l in H3.
  split; [exact H1|]. unfold locsutil.status.get_status.
  rewrite H1, H2, H3; [done| |done..].
  repeat constructor; apply list_elem_of_In; simpl; tauto.
Qed.

Lemma get_status_strips_characters_witness :
  locsutil.status.get_status
    (["d"]%char ++ ["x"; "a"; "_"; "1"]%char ++ ["."; "h"; "d"; "f"; "5"]%char)
  = ["a"; "c"; "t"; "i"; "v"; "e"]%char.
Proof.
  refine (eq_trans (proj1 (proj2 (get_status_strips_characters
    ["d"]%char ["x"; "a"; "_"; "1"]%char ["."; "h"; "d"; "f"; "5"]%char _ _ _ _))) _).
  - repeat constructor; apply list_elem_of_In; simpl; tauto.
  - repeat constructor; apply list_elem_of_In; simpl; tauto.
  - intros c [= <-] Hc. apply list_elem_of_In in Hc. simpl in Hc.
    repeat destruct Hc as [Hc|Hc]; try discriminate Hc. done.
  - intros c [= <-] Hc. apply list_elem_of_In in Hc. simpl in Hc.
    repeat destruct Hc as [Hc|Hc]; try discriminate Hc. done.
  - reflexivity.
Defined.
